(** * xcx-arduino: board connection lifecycle, pin I/O, registry and blocks

    A shallow embedding of
    - [arduino-board.js]     (class [ArduinoBoard]),
    - [arduino-connector.js] (class [ArduinoConnector]),
    - [index.js]             (class [ArduinoBlocks]),
    and the properties the specification states about them.

    JavaScript objects are records, object identity is an index into a
    store, a method is a computation in a state-and-exception monad, a
    promise is a cell that is settled once, and everything the outside
    world does (the serial port opens, the protocol client emits a signal,
    time passes) is an [Event]. *)

From Stdlib Require Import ZArith QArith Qround Qminmax Lia Ascii String Sorted.
From stdpp Require Import base list.

Local Open Scope Z_scope.

(** ** JavaScript values that cross the interfaces *)

(** A JS number used as an array index or pin number: an integer, or NaN
    ([None]), which indexes nothing. *)
Definition JsIndex := option Z.

(** Reasons a promise is rejected with, or an exception carries. *)
Inductive Reason :=
| TimeoutError (delay : Z)   (* new Error(`timeout ${delay}ms`) *)
| TypeError                  (* property access on null or undefined *)
| Failure (msg : string).    (* an error raised by an external collaborator *)

Inductive Res (A : Type) :=
| Ok (a : A)
| Throw (r : Reason).
Arguments Ok {A} a.
Arguments Throw {A} r.

Inductive Settled (A : Type) :=
| Pending
| Resolved (a : A)
| Rejected (r : Reason).
Arguments Pending {A}.
Arguments Resolved {A} a.
Arguments Rejected {A} r.

(** What a method that returns a promise hands back: a promise that is
    already settled ([Promise.resolve], [Promise.reject]), or the cell of
    one that settles later. *)
Inductive Promise (A : Type) :=
| Now (s : Settled A)
| Later (p : nat).
Arguments Now {A} s.
Arguments Later {A} p.

(** ** Numbers and strings of the language *)

Module Js.

(** The character of the decimal digit [n]. *)
Definition digit (n : nat) : ascii := ascii_of_nat (48 + n).

Fixpoint toString_digits (fuel n : nat) : string :=
  match fuel with
  | O => EmptyString
  | S fuel' =>
      if (n <? 10)%nat then String (digit n) EmptyString
      else String.append (toString_digits fuel' (n / 10)%nat)
                         (String (digit (n mod 10)%nat) EmptyString)
  end.

(** [n.toString(10)] for an array index [n]. *)
Definition toString (n : nat) : string := toString_digits (S n) n.

(** The white space [parseInt] skips, as far as it is ASCII. *)
Definition is_space (c : ascii) : bool :=
  existsb (Nat.eqb (nat_of_ascii c)) [9; 10; 11; 12; 13; 32]%nat.

Definition digit_value (c : ascii) : option Z :=
  let n := nat_of_ascii c in
  if ((48 <=? n) && (n <=? 57))%nat then Some (Z.of_nat (n - 48)) else None.

Fixpoint trimStart (s : string) : string :=
  match s with
  | String c s' => if is_space c then trimStart s' else s
  | EmptyString => s
  end.

(** The number the digits at the front of [s] make, read after [acc];
    [acc] itself where there is none. *)
Fixpoint leading_digits (s : string) (acc : option Z) : option Z :=
  match s with
  | String c s' =>
      match digit_value c with
      | Some d => leading_digits s' (Some (default 0 acc * 10 + d))
      | None => acc
      end
  | EmptyString => acc
  end.

(** [parseInt(s, 10)] for a string [s]: NaN where no digit follows the
    white space and the sign. *)
Definition parseInt (s : string) : JsIndex :=
  match trimStart s with
  | String c s' =>
      if Ascii.eqb c "-" then Z.opp <$> leading_digits s' None
      else if Ascii.eqb c "+" then leading_digits s' None
      else leading_digits (String c s') None
  | EmptyString => None
  end.

End Js.

Module Board.

(** Pin modes, [MODES] of arduino-board.js. *)
Module MODES.
Definition INPUT : Z := 0.
Definition OUTPUT : Z := 1.
Definition ANALOG : Z := 2.
Definition PWM : Z := 3.
Definition SERVO : Z := 4.
Definition PULLUP : Z := 11.
End MODES.

Definition DEBUG : bool := false.

(** [this.state]: the four strings the class assigns. *)
Inductive State :=
| S_disconnect
| S_portRequesting
| S_connect
| S_ready.

Definition State_eqb (a b : State) : bool :=
  match a, b with
  | S_disconnect, S_disconnect | S_portRequesting, S_portRequesting
  | S_connect, S_connect | S_ready, S_ready => true
  | _, _ => false
  end.

(** An entry of [firmata.pins], with the fields the board adds to it. *)
Record Pin := mkPin {
  supportedModes : list Z;
  mode : option Z;            (* undefined until a mode is known *)
  value : Z;
  updateTime : option Z;      (* undefined until the first sample *)
  updating : bool;
  inputBias : option Z
}.

Definition with_value (v : Z) (p : Pin) : Pin :=
  mkPin (supportedModes p) (mode p) v (updateTime p) (updating p) (inputBias p).
Definition with_updateTime (t : Z) (p : Pin) : Pin :=
  mkPin (supportedModes p) (mode p) (value p) (Some t) (updating p) (inputBias p).
Definition with_updating (b : bool) (p : Pin) : Pin :=
  mkPin (supportedModes p) (mode p) (value p) (updateTime p) b (inputBias p).
Definition with_inputBias (m : Z) (p : Pin) : Pin :=
  mkPin (supportedModes p) (mode p) (value p) (updateTime p) (updating p) (Some m).

(** Signals of the protocol client. *)
Inductive Signal :=
| E_open
| E_close
| E_disconnect
| E_error
| E_ready
| E_digital_read (pin : JsIndex)        (* `digital-read-${pin}` *)
| E_analog_read (analogPin : JsIndex).  (* `analog-read-${analogPin}` *)

(** The closures the board registers with [firmata.once]. Each one
    captures the instance it is registered on; [p] is the promise whose
    [resolve] it captured. *)
Inductive Handler :=
| on_open
| on_close
| on_disconnect
| on_error
| on_ready (p : nat)
| on_digital_read (pin : JsIndex) (p : nat)
| on_analog_read (analogPin pin : JsIndex) (p : nat).

Definition signal_of (h : Handler) : Signal :=
  match h with
  | on_open => E_open
  | on_close => E_close
  | on_disconnect => E_disconnect
  | on_error => E_error
  | on_ready _ => E_ready
  | on_digital_read pin _ => E_digital_read pin
  | on_analog_read analogPin _ _ => E_analog_read analogPin
  end.

Definition JsIndex_eqb (a b : JsIndex) : bool :=
  match a, b with
  | Some x, Some y => x =? y
  | None, None => true
  | _, _ => false
  end.

Definition Signal_eqb (a b : Signal) : bool :=
  match a, b with
  | E_open, E_open | E_close, E_close | E_disconnect, E_disconnect
  | E_error, E_error | E_ready, E_ready => true
  | E_digital_read x, E_digital_read y => JsIndex_eqb x y
  | E_analog_read x, E_analog_read y => JsIndex_eqb x y
  | _, _ => false
  end.

(** A protocol-client instance ([new Firmata(port, ...)]). [throws] is
    the oracle for the external library: whether a command sent to this
    instance raises. *)
Record Firmata := mkFirmata {
  transport : bool;           (* firmata.transport is set *)
  isOpen : bool;
  throws : bool;
  pins : list Pin;
  analogPins : list Z;
  listeners : list Handler;
  HIGH : Z;
  LOW : Z;
  RESOLUTION_PWM : Z
}.

Definition with_pins (ps : list Pin) (f : Firmata) : Firmata :=
  mkFirmata (transport f) (isOpen f) (throws f) ps (analogPins f)
            (listeners f) (HIGH f) (LOW f) (RESOLUTION_PWM f).
Definition with_listeners (ls : list Handler) (f : Firmata) : Firmata :=
  mkFirmata (transport f) (isOpen f) (throws f) (pins f) (analogPins f)
            ls (HIGH f) (LOW f) (RESOLUTION_PWM f).
Definition with_topology (ps : list Pin) (aps : list Z) (f : Firmata) : Firmata :=
  mkFirmata (transport f) (isOpen f) (throws f) ps aps
            (listeners f) (HIGH f) (LOW f) (RESOLUTION_PWM f).
Definition with_isOpen (b : bool) (f : Firmata) : Firmata :=
  mkFirmata (transport f) b (throws f) (pins f) (analogPins f)
            (listeners f) (HIGH f) (LOW f) (RESOLUTION_PWM f).

(** [new Firmata(port, {reportVersionTimeout: 0})] *)
Definition new_Firmata (faulty : bool) : Firmata :=
  mkFirmata true false faulty [] [] [] 1 0 255.

Record PortInfo := mkPortInfo {
  usbVendorId : option Z;
  usbProductId : option Z
}.

(** The fields of an [ArduinoBoard]. *)
Record Fields := mkFields {
  state : State;
  firmata : option nat;             (* the instance held, by identity *)
  extensionId : option string;
  portInfo : option PortInfo;
  digitalReadInterval : Z;
  connectingWaitingTime : Z;
  analogReadInterval : Z;
  sendingInterval : Z;
  updateDigitalInputWaitingTime : Z;
  updateAnalogInputWaitingTime : Z
}.

Definition with_state (s : State) (b : Fields) : Fields :=
  mkFields s (firmata b) (extensionId b) (portInfo b) (digitalReadInterval b)
           (connectingWaitingTime b) (analogReadInterval b) (sendingInterval b)
           (updateDigitalInputWaitingTime b) (updateAnalogInputWaitingTime b).
Definition with_firmata (f : option nat) (b : Fields) : Fields :=
  mkFields (state b) f (extensionId b) (portInfo b) (digitalReadInterval b)
           (connectingWaitingTime b) (analogReadInterval b) (sendingInterval b)
           (updateDigitalInputWaitingTime b) (updateAnalogInputWaitingTime b).
Definition with_extensionId (e : option string) (b : Fields) : Fields :=
  mkFields (state b) (firmata b) e (portInfo b) (digitalReadInterval b)
           (connectingWaitingTime b) (analogReadInterval b) (sendingInterval b)
           (updateDigitalInputWaitingTime b) (updateAnalogInputWaitingTime b).
Definition with_portInfo (i : option PortInfo) (b : Fields) : Fields :=
  mkFields (state b) (firmata b) (extensionId b) i (digitalReadInterval b)
           (connectingWaitingTime b) (analogReadInterval b) (sendingInterval b)
           (updateDigitalInputWaitingTime b) (updateAnalogInputWaitingTime b).

(** The constructor's values. *)
Definition new_Fields : Fields :=
  mkFields S_disconnect None None None 20 1000 20 10 100 100.

(** Commands sent to a protocol-client instance. *)
Inductive Command :=
| c_pinMode (pin : JsIndex) (mode : Z)
| c_reportDigitalPin (pin : JsIndex) (on : Z)
| c_reportAnalogPin (analogPin : JsIndex) (on : Z)
| c_digitalWrite (pin : JsIndex) (value : Z) (enqueue : bool)
| c_pwmWrite (pin : JsIndex) (value : Z)
| c_servoWrite (pin : JsIndex) (value : Q)
| c_i2cConfig
| c_reset
| c_transport_close.

(** What the board does that others can observe. *)
Inductive Effect :=
| Emit_RELEASED                                          (* this.emit(ArduinoBoard.RELEASED) *)
| Runtime_CONNECTION_LOST_ERROR (extensionId : option string)
| Sent (f : nat) (c : Command).

Definition is_RELEASED (e : Effect) : bool :=
  match e with
  | Emit_RELEASED => true
  | _ => false
  end.

(** How many times RELEASED was emitted in a log. *)
Definition released (l : list Effect) : nat :=
  length (List.filter is_RELEASED l).

(** Promise cells. *)
Inductive Cell :=
| ConnectCell (s : Settled unit)            (* the promise [connectSerial] returns *)
| ReadCell (pin : JsIndex) (s : Settled Z)  (* race/catch/finally of an input update on [pin] *)
| SentCell (s : Settled unit).              (* the pacing promise of a write *)

Inductive TimerAction :=
| RejectAfter (p : nat) (delay : Z)    (* timeoutReject(delay) racing promise p *)
| ResolveAfter (p : nat).              (* setTimeout(() => resolve(), ...) *)

Record Timer := mkTimer { due : Z; action : TimerAction }.

Record World := mkWorld {
  board : Fields;
  heap : list Firmata;      (* every instance constructed so far *)
  clock : Z;                (* Date.now() *)
  timers : list Timer;      (* in firing order *)
  cells : list Cell;
  opens : list nat;         (* openSerialPort calls in flight, by connect promise *)
  log : list Effect         (* oldest first *)
}.

Definition with_board (b : Fields) (w : World) : World :=
  mkWorld b (heap w) (clock w) (timers w) (cells w) (opens w) (log w).
Definition with_heap (h : list Firmata) (w : World) : World :=
  mkWorld (board w) h (clock w) (timers w) (cells w) (opens w) (log w).
Definition with_clock (t : Z) (w : World) : World :=
  mkWorld (board w) (heap w) t (timers w) (cells w) (opens w) (log w).
Definition with_timers (ts : list Timer) (w : World) : World :=
  mkWorld (board w) (heap w) (clock w) ts (cells w) (opens w) (log w).
Definition with_cells (cs : list Cell) (w : World) : World :=
  mkWorld (board w) (heap w) (clock w) (timers w) cs (opens w) (log w).
Definition with_opens (os : list nat) (w : World) : World :=
  mkWorld (board w) (heap w) (clock w) (timers w) (cells w) os (log w).
Definition with_log (l : list Effect) (w : World) : World :=
  mkWorld (board w) (heap w) (clock w) (timers w) (cells w) (opens w) l.

(** [new ArduinoBoard(runtime)] at time [t]. *)
Definition new_World (t : Z) : World :=
  mkWorld new_Fields [] t [] [] [] [].

(** ** The monad of methods: state that survives an exception *)

Definition M (A : Type) := World -> Res A * World.

Definition ret {A} (a : A) : M A := fun w => (Ok a, w).
Definition throw {A} (r : Reason) : M A := fun w => (Throw r, w).
Definition bind {A B} (c : M A) (k : A -> M B) : M B :=
  fun w => match c w with
           | (Ok a, w') => k a w'
           | (Throw r, w') => (Throw r, w')
           end.
Definition gets {A} (f : World -> A) : M A := fun w => (Ok (f w), w).
Definition modify (f : World -> World) : M unit := fun w => (Ok tt, f w).
(** [try { c } catch (e) { ... }] with the outcome handed on. *)
Definition attempt {A} (c : M A) : M (Res A) :=
  fun w => let '(r, w') := c w in (Ok r, w').
Definition exec {A} (c : M A) (w : World) : World := snd (c w).

Declare Scope js_scope.
Delimit Scope js_scope with js.
Notation "x <- c ;; k" := (bind c (fun x => k))
  (at level 100, c at next level, right associativity) : js_scope.
Notation "c ;; k" := (bind c (fun _ => k))
  (at level 100, right associativity) : js_scope.
Local Open Scope js_scope.

(** ** Access to the objects *)

(** [l[i]] for a JS number [i]: undefined ([None]) out of range. *)
Definition index {A} (l : list A) (i : JsIndex) : option A :=
  match i with
  | Some z => if z <? 0 then None else l !! Z.to_nat z
  | None => None
  end.

Definition alter_index {A} (g : A -> A) (i : JsIndex) (l : list A) : list A :=
  match i with
  | Some z => if z <? 0 then l else alter g (Z.to_nat z) l
  | None => l
  end.

(** [this.firmata.<member>]: a TypeError when [this.firmata] is null. *)
Definition this_firmata : M nat :=
  fun w => match firmata (board w) with
           | Some f => (Ok f, w)
           | None => (Throw TypeError, w)
           end.

Definition lookup_firmata (f : nat) : M Firmata :=
  fun w => match heap w !! f with
           | Some fo => (Ok fo, w)
           | None => (Throw TypeError, w)
           end.

Definition alter_firmata (f : nat) (g : Firmata -> Firmata) : M unit :=
  modify (fun w => with_heap (alter g f (heap w)) w).

(** [this.pins[pin]], where [this.pins] is [this.firmata.pins]: nothing
    when there is no instance or no such pin. *)
Definition the_pin (w : World) (pin : JsIndex) : option Pin :=
  match firmata (board w) with
  | Some f =>
      match heap w !! f with
      | Some fo => index (pins fo) pin
      | None => None
      end
  | None => None
  end.

(** [this.pins[pin].<field>]: a TypeError when there is nothing. *)
Definition this_pin (pin : JsIndex) : M Pin :=
  fun w => match the_pin w pin with
           | Some p => (Ok p, w)
           | None => (Throw TypeError, w)
           end.

(** [this.pins[pin].<field> = ...] *)
Definition set_this_pin (pin : JsIndex) (g : Pin -> Pin) : M unit :=
  _ <- this_pin pin;;
  f <- this_firmata;;
  alter_firmata f (fun fo => with_pins (alter_index g pin (pins fo)) fo).

Definition emit (e : Effect) : M unit :=
  modify (fun w => with_log (log w ++ [e]) w).

(** [this.firmata.<command>(...)]: the command is recorded as sent, or
    the instance raises. What the protocol client does with a command by
    itself is left out: the [mode] and [value] it records for the pin,
    and the exception it raises for a pin it does not have. Of a pin
    record only the fields the board writes are followed. *)
Definition send (c : Command) : M unit :=
  f <- this_firmata;;
  fo <- lookup_firmata f;;
  if throws fo then throw (Failure "protocol client") else emit (Sent f c).

(** [firmata.once(signal, handler)] *)
Definition once (f : nat) (h : Handler) : M unit :=
  alter_firmata f (fun fo => with_listeners (listeners fo ++ [h]) fo).

Definition new_cell (c : Cell) : M nat :=
  fun w => (Ok (length (cells w)), with_cells (cells w ++ [c]) w).

Definition set_cell (p : nat) (c : Cell) : M unit :=
  modify (fun w => with_cells (<[p := c]> (cells w)) w).

Fixpoint insert_timer (t : Timer) (ts : list Timer) : list Timer :=
  match ts with
  | [] => [t]
  | u :: us => if due t <? due u then t :: ts else u :: insert_timer t us
  end.

Definition setTimeout (a : TimerAction) (delay : Z) : M unit :=
  modify (fun w =>
    with_timers (insert_timer (mkTimer (clock w + Z.max 0 delay) a) (timers w)) w).

(** Whether [this.firmata === firmata] for the captured instance [f]. *)
Definition holds (f : nat) : M bool :=
  gets (fun w => match firmata (board w) with
                 | Some g => Nat.eqb g f
                 | None => false
                 end).

(** ** Lifecycle methods *)

(** [releaseBoard ()] *)
Definition releaseBoard : M unit :=
  modify (fun w => with_board (with_state S_disconnect (board w)) w);;
  cur <- gets (fun w => firmata (board w));;
  match cur with
  | Some f =>
      _ <- attempt (
        fo <- lookup_firmata f;;
        (if transport fo && isOpen fo then send c_transport_close else ret tt);;
        alter_firmata f (with_listeners []));;
      modify (fun w => with_board (with_firmata None (board w)) w)
  | None => ret tt
  end;;
  modify (fun w => with_board (with_extensionId None (board w)) w);;
  emit Emit_RELEASED.

(** [disconnect ()] *)
Definition disconnect : M unit :=
  st <- gets (fun w => state (board w));;
  if State_eqb st S_disconnect then ret tt else
  cur <- gets (fun w => firmata (board w));;
  match cur with
  | Some _ => send c_reset
  | None => ret tt
  end;;
  releaseBoard.

(** [handleDisconnectError (error)] *)
Definition handleDisconnectError : M unit :=
  st <- gets (fun w => state (board w));;
  if State_eqb st S_disconnect then ret tt else
  ext <- gets (fun w => extensionId (board w));;
  emit (Runtime_CONNECTION_LOST_ERROR ext);;
  disconnect.

(** [setupFirmata (firmata)] *)
Definition setupFirmata (f : nat) : M unit :=
  once f on_open;;
  once f on_close;;
  once f on_disconnect;;
  once f on_error;;
  h <- holds f;;
  if DEBUG && negb h then ret tt else
  modify (fun w => with_board (with_firmata (Some f) (board w)) w).

(** [onBoarReady ()]; what it prints on the console is left out. *)
Definition onBoarReady : M unit :=
  send c_i2cConfig;;
  modify (fun w => with_board (with_state S_ready (board w)) w).

(** [isConnected ()], [isReady ()] *)
Definition isConnected (w : World) : bool :=
  State_eqb (state (board w)) S_connect || State_eqb (state (board w)) S_ready.
Definition isReady (w : World) : bool :=
  State_eqb (state (board w)) S_ready.

(** [connectSerial (options)]: the synchronous part. The
    [openSerialPort] it starts completes with [PortOpened] or
    [PortFailed] below. *)
Definition connectSerial : M (Promise unit) :=
  cur <- gets (fun w => firmata (board w));;
  match cur with
  | Some _ => ret (Now (Resolved tt))
  | None =>
      modify (fun w => with_board (with_state S_portRequesting (board w)) w);;
      p <- new_cell (ConnectCell Pending);;
      modify (fun w => with_opens (opens w ++ [p]) w);;
      ret (Later p)
  end.

(** ** Settling promises *)

(** [resolve(this)] of the promise [connectSerial] returns: nothing once
    the promise is settled. *)
Definition resolve_connect (p : nat) : M unit :=
  c <- gets (fun w => cells w !! p);;
  match c with
  | Some (ConnectCell Pending) => set_cell p (ConnectCell (Resolved tt))
  | _ => ret tt
  end.

(** The request of [connectSerial] is rejected:
    [.catch(reason => { this.releaseBoard(); return Promise.reject(reason); })]. *)
Definition reject_connect (p : nat) (reason : Reason) : M unit :=
  c <- gets (fun w => cells w !! p);;
  match c with
  | Some (ConnectCell Pending) =>
      releaseBoard;;
      set_cell p (ConnectCell (Rejected reason))
  | _ => ret tt
  end.

(** The race of input update [p] settles with [o], unless it is settled
    already, and its [.catch(...).finally(...)] run. Both callbacks go
    through [this.pins[pin]] again, for the [pin] they captured. *)
Definition settle_read (p : nat) (o : Settled Z) : M unit :=
  c <- gets (fun w => cells w !! p);;
  match c with
  | Some (ReadCell pin Pending) =>
      o1 <- match o with
            | Rejected reason =>
                r <- attempt (set_this_pin pin (with_value 0));;
                ret (match r with
                     | Ok _ => Rejected reason
                     | Throw e => Rejected e
                     end)
            | _ => ret o
            end;;
      r <- attempt (set_this_pin pin (with_updating false));;
      set_cell p (ReadCell pin (match r with
                                | Ok _ => o1
                                | Throw e => Rejected e
                                end))
  | _ => ret tt
  end.

(** The pacing promise [p] of a write settles with [o], unless it is
    settled already. *)
Definition settle_sent (p : nat) (o : Settled unit) : M unit :=
  c <- gets (fun w => cells w !! p);;
  match c with
  | Some (SentCell Pending) => set_cell p (SentCell o)
  | _ => ret tt
  end.

(** ** Pin input *)

(** A JS number as a condition: 0 and undefined are false. *)
Definition truthy (t : option Z) : bool :=
  match t with
  | Some z => negb (z =? 0)
  | None => false
  end.

Definition is_mode (m : Z) (o : option Z) : bool :=
  match o with
  | Some x => x =? m
  | None => false
  end.

(** [updating || (updateTime && (Date.now() - updateTime) < interval)] *)
Definition recent (now interval : Z) (p : Pin) : bool :=
  updating p ||
  (truthy (updateTime p) &&
   match updateTime p with
   | Some t => now - t <? interval
   | None => false
   end).

(** [updateDigitalInput (pin)] *)
Definition updateDigitalInput (pin : JsIndex) : M (Promise Z) :=
  p0 <- this_pin pin;;
  if match mode p0 with
     | Some m => negb (m =? MODES.INPUT) && negb (m =? MODES.PULLUP)
     | None => false
     end
  then ret (Now (Resolved (value p0))) else
  now <- gets clock;;
  interval <- gets (fun w => digitalReadInterval (board w));;
  if recent now interval p0 then ret (Now (Resolved (value p0))) else
  set_this_pin pin (with_updating true);;
  p <- new_cell (ReadCell pin Pending);;
  r <- attempt (
    q <- this_pin pin;;
    (if negb (is_mode MODES.PULLUP (inputBias q))
     then set_this_pin pin (with_inputBias MODES.INPUT) else ret tt);;
    q' <- this_pin pin;;
    send (c_pinMode pin (default MODES.INPUT (inputBias q')));;
    send (c_reportDigitalPin pin 1);;
    f <- this_firmata;;
    once f (on_digital_read pin p));;
  wait <- gets (fun w => updateDigitalInputWaitingTime (board w));;
  setTimeout (RejectAfter p wait) wait;;
  match r with
  | Ok _ => ret tt
  | Throw e => settle_read p (Rejected e)
  end;;
  ret (Later p).

(** [updateAnalogInput (analogPin)] *)
Definition updateAnalogInput (analogPin : JsIndex) : M (Promise Z) :=
  f <- this_firmata;;
  fo <- lookup_firmata f;;
  let pin := index (analogPins fo) analogPin in
  p0 <- this_pin pin;;
  now <- gets clock;;
  interval <- gets (fun w => analogReadInterval (board w));;
  if recent now interval p0 then ret (Now (Resolved (value p0))) else
  set_this_pin pin (with_updating true);;
  p <- new_cell (ReadCell pin Pending);;
  r <- attempt (
    send (c_pinMode analogPin MODES.ANALOG);;
    send (c_reportAnalogPin analogPin 1);;
    g <- this_firmata;;
    once g (on_analog_read analogPin pin p));;
  wait <- gets (fun w => updateAnalogInputWaitingTime (board w));;
  setTimeout (RejectAfter p wait) wait;;
  match r with
  | Ok _ => ret tt
  | Throw e => settle_read p (Rejected e)
  end;;
  ret (Later p).

(** ** Pin output *)

(** [pinMode (pin, mode)] *)
Definition pinMode (pin : JsIndex) (mode : Z) : M unit :=
  send (c_pinMode pin mode).

(** [new Promise(resolve => { <command>; setTimeout(() => resolve(),
    this.sendingInterval); })] *)
Definition paced (command : M unit) : M (Promise unit) :=
  p <- new_cell (SentCell Pending);;
  r <- attempt (
    command;;
    interval <- gets (fun w => sendingInterval (board w));;
    setTimeout (ResolveAfter p) interval);;
  match r with
  | Ok _ => ret tt
  | Throw e => settle_sent p (Rejected e)
  end;;
  ret (Later p).

(** [setInputBias (pin, pullUp)] *)
Definition setInputBias (pin : JsIndex) (pullUp : bool) : M (Promise unit) :=
  set_this_pin pin
    (with_inputBias (if pullUp then MODES.PULLUP else MODES.INPUT));;
  paced (q <- this_pin pin;;
         pinMode pin (default MODES.INPUT (inputBias q))).

(** [digitalWrite (pin, value, enqueue)] *)
Definition digitalWrite (pin : JsIndex) (value : Z) (enqueue : bool)
  : M (Promise unit) :=
  paced (send (c_digitalWrite pin value enqueue)).

(** [pwmWrite (pin, value)] *)
Definition pwmWrite (pin : JsIndex) (value : Z) : M (Promise unit) :=
  paced (send (c_pwmWrite pin value)).

(** [servoWrite (...args)] *)
Definition servoWrite (pin : JsIndex) (value : Q) : M (Promise unit) :=
  paced (send (c_servoWrite pin value)).

(** The getters [HIGH], [LOW], [RESOLUTION]. *)
Definition get_HIGH : M Z :=
  f <- this_firmata;; fo <- lookup_firmata f;; ret (HIGH fo).
Definition get_LOW : M Z :=
  f <- this_firmata;; fo <- lookup_firmata f;; ret (LOW fo).
Definition get_RESOLUTION_PWM : M Z :=
  f <- this_firmata;; fo <- lookup_firmata f;; ret (RESOLUTION_PWM fo).

(** ** What the outside world does *)

(** The body of each closure, run for instance [f] with payload [v]. *)
Definition run_handler (f : nat) (h : Handler) (v : Z) : M unit :=
  match h with
  | on_open =>
      same <- holds f;;
      if negb same then ret tt else
      modify (fun w => with_board (with_state S_connect (board w)) w)
  | on_close =>
      same <- holds f;;
      if negb same then ret tt else
      st <- gets (fun w => state (board w));;
      if State_eqb st S_disconnect then ret tt else
      releaseBoard
  | on_disconnect | on_error =>
      same <- holds f;;
      if negb same then ret tt else
      st <- gets (fun w => state (board w));;
      if State_eqb st S_disconnect then ret tt else
      handleDisconnectError
  | on_ready p =>
      same <- holds f;;
      if negb same then ret tt else
      onBoarReady;;
      resolve_connect p
  | on_digital_read pin p =>
      set_this_pin pin (with_value v);;
      now <- gets clock;;
      set_this_pin pin (with_updateTime now);;
      send (c_reportDigitalPin pin 0);;
      q <- this_pin pin;;
      settle_read p (Resolved (value q))
  | on_analog_read analogPin pin p =>
      set_this_pin pin (with_value v);;
      now <- gets clock;;
      set_this_pin pin (with_updateTime now);;
      send (c_reportAnalogPin analogPin 0);;
      q <- this_pin pin;;
      settle_read p (Resolved (value q))
  end.

Fixpoint run_handlers (f : nat) (hs : list Handler) (v : Z) : M unit :=
  match hs with
  | [] => ret tt
  | h :: hs' => run_handler f h v;; run_handlers f hs' v
  end.

Definition listens (s : Signal) (h : Handler) : bool :=
  Signal_eqb (signal_of h) s.

(** [firmata.emit(signal, v)] on instance [f]: the [once] listeners of
    the signal are taken off and run in the order they were added. *)
Definition deliver (f : nat) (s : Signal) (v : Z) : M unit :=
  fo <- lookup_firmata f;;
  alter_firmata f
    (with_listeners (List.filter (fun h => negb (listens s h)) (listeners fo)));;
  run_handlers f (List.filter (listens s) (listeners fo)) v.

Definition fire (a : TimerAction) : M unit :=
  match a with
  | RejectAfter p delay => settle_read p (Rejected (TimeoutError delay))
  | ResolveAfter p => settle_sent p (Resolved tt)
  end.

Fixpoint fire_all (ts : list Timer) : M unit :=
  match ts with
  | [] => ret tt
  | t :: ts' => fire (action t);; fire_all ts'
  end.

(** The clock advances by [ms] and the timers that are due fire. *)
Definition elapse (ms : Z) : M unit :=
  modify (fun w => with_clock (clock w + Z.max 0 ms) w);;
  now <- gets clock;;
  ts <- gets timers;;
  modify (with_timers (List.filter (fun t => negb (due t <=? now)) ts));;
  fire_all (List.filter (fun t => due t <=? now) ts).

(** What the capability report says of a pin. *)
Record Capability := mkCapability {
  cap_supportedModes : list Z;
  cap_mode : option Z;
  cap_value : Z
}.

(** The entry of [firmata.pins] made from it: the fields the board adds
    are not there yet. *)
Definition reported (c : Capability) : Pin :=
  mkPin (cap_supportedModes c) (cap_mode c) (cap_value c) None false None.

(** What the protocol client does to its own object. *)
Inductive LibUpdate :=
| Topology (ps : list Capability) (aps : list Z)   (* the capability report *)
| IsOpen (b : bool)
| Faulty (b : bool).

Definition lib_update (u : LibUpdate) (fo : Firmata) : Firmata :=
  match u with
  | Topology ps aps => with_topology (map reported ps) aps fo
  | IsOpen b => with_isOpen b fo
  | Faulty b =>
      mkFirmata (transport fo) (isOpen fo) b (pins fo) (analogPins fo)
                (listeners fo) (HIGH fo) (LOW fo) (RESOLUTION_PWM fo)
  end.

Inductive Event :=
| PortOpened (p : nat) (info : PortInfo)   (* openSerialPort of attempt p resolved *)
| PortFailed (p : nat) (reason : Reason)   (* ... or rejected *)
| Emitted (f : nat) (s : Signal) (v : Z)   (* instance f emits signal s *)
| Elapsed (ms : Z)
| Library (f : nat) (u : LibUpdate).

Definition in_flight (p : nat) (w : World) : bool :=
  existsb (Nat.eqb p) (opens w).

Definition landed (p : nat) : M unit :=
  modify (fun w => with_opens (List.filter (fun q => negb (Nat.eqb p q)) (opens w)) w).

(** The [.then(port => ...)] of [connectSerial]. *)
Definition port_opened (p : nat) (info : PortInfo) : M unit :=
  landed p;;
  modify (fun w => with_board (with_portInfo (Some info) (board w)) w);;
  f <- gets (fun w => length (heap w));;
  modify (fun w => with_heap (heap w ++ [new_Firmata false]) w);;
  setupFirmata f;;
  once f (on_ready p).

Definition handle (e : Event) : M unit :=
  match e with
  | PortOpened p info =>
      live <- gets (in_flight p);;
      if live then port_opened p info else ret tt
  | PortFailed p reason =>
      live <- gets (in_flight p);;
      if live then landed p;; reject_connect p reason else ret tt
  | Emitted f s v => deliver f s v
  | Elapsed ms => elapse ms
  | Library f u => alter_firmata f (lib_update u)
  end.

Definition step (e : Event) (w : World) : World := exec (handle e) w.

Definition run (es : list Event) (w : World) : World :=
  fold_left (fun w e => step e w) es w.

(** ** Lists of pins *)

(** [array.includes(x)] *)
Definition includes (x : Z) (l : list Z) : bool := existsb (Z.eqb x) l.

(** [array.forEach((element, index) => ...)] from [i] on, with the
    variable [s] the callback assigns to. *)
Fixpoint forEach {A S : Type} (callback : A -> nat -> S -> S)
    (l : list A) (i : nat) (s : S) : S :=
  match l with
  | [] => s
  | x :: l' => forEach callback l' (Datatypes.S i) (callback x i s)
  end.

(** [Object.keys(array)] *)
Definition Object_keys {A} (l : list A) : list string :=
  map Js.toString (seq 0 (length l)).

(** [getAllPinIndex ()] *)
Definition getAllPinIndex : M (list JsIndex) :=
  cur <- gets (fun w => firmata (board w));;
  match cur with
  | None => ret []
  | Some f =>
      fo <- lookup_firmata f;;
      ret (map (fun key => Js.parseInt key) (Object_keys (pins fo)))
  end.

(** [getDigitalPinIndex ()] *)
Definition getDigitalPinIndex : M (list nat) :=
  let pinIndex := [] in
  cur <- gets (fun w => firmata (board w));;
  match cur with
  | None => ret pinIndex
  | Some f =>
      fo <- lookup_firmata f;;
      ret (forEach
             (fun pin index pinIndex =>
                if (0 <? length (supportedModes pin))%nat &&
                   negb (includes MODES.ANALOG (supportedModes pin))
                then pinIndex ++ [index] else pinIndex)
             (pins fo) 0%nat pinIndex)
  end.

(** [getPWMPinIndex ()] *)
Definition getPWMPinIndex : M (list nat) :=
  let pinIndex := [] in
  cur <- gets (fun w => firmata (board w));;
  match cur with
  | None => ret pinIndex
  | Some f =>
      fo <- lookup_firmata f;;
      ret (forEach
             (fun pin index pinIndex =>
                if includes MODES.PWM (supportedModes pin) &&
                   negb (includes MODES.ANALOG (supportedModes pin))
                then pinIndex ++ [index] else pinIndex)
             (pins fo) 0%nat pinIndex)
  end.

(** [getServoPinIndex ()] *)
Definition getServoPinIndex : M (list nat) :=
  let pinIndex := [] in
  cur <- gets (fun w => firmata (board w));;
  match cur with
  | None => ret pinIndex
  | Some f =>
      fo <- lookup_firmata f;;
      ret (forEach
             (fun pin index pinIndex =>
                if includes MODES.SERVO (supportedModes pin) &&
                   negb (includes MODES.ANALOG (supportedModes pin))
                then pinIndex ++ [index] else pinIndex)
             (pins fo) 0%nat pinIndex)
  end.

End Board.

(** * The connector: [ArduinoConnector] *)

Module Connector.

Inductive EventName :=
| BOARD_REMOVED
| BOARD_ADDED.

Inductive Emission :=
| Emit (name : EventName) (b : nat)                        (* this.emit(name, board) *)
| Runtime_PERIPHERAL_DISCONNECTED (b : nat) (path : option Board.PortInfo).

(** A [connectSerial] of the connector that has not settled yet: the
    board it constructed and that board's connect promise. *)
Record Call := mkCall {
  call_board : nat;
  call_promise : nat;
  call_status : Settled nat
}.

Record Filter := mkFilter {
  filter_usbVendorId : option Z;
  filter_usbProductId : option Z
}.

(** [options]: absent, or an object whose [filters] may be absent. *)
Definition Options := option (option (list Filter)).

Record State := mkState {
  boards : list nat;             (* this.boards, references into [store] *)
  store : list Board.World;      (* every ArduinoBoard constructed, by identity *)
  serial : bool;                 (* 'serial' in navigator *)
  clock : Z;
  calls : list Call;
  watching : list nat;           (* boards carrying the once(RELEASED) listener *)
  emitted : list Emission        (* oldest first *)
}.

Definition with_boards (l : list nat) (c : State) : State :=
  mkState l (store c) (serial c) (clock c) (calls c) (watching c) (emitted c).
Definition with_store (l : list Board.World) (c : State) : State :=
  mkState (boards c) l (serial c) (clock c) (calls c) (watching c) (emitted c).
Definition with_clock (t : Z) (c : State) : State :=
  mkState (boards c) (store c) (serial c) t (calls c) (watching c) (emitted c).
Definition with_calls (l : list Call) (c : State) : State :=
  mkState (boards c) (store c) (serial c) (clock c) l (watching c) (emitted c).
Definition with_watching (l : list nat) (c : State) : State :=
  mkState (boards c) (store c) (serial c) (clock c) (calls c) l (emitted c).
Definition with_emitted (l : list Emission) (c : State) : State :=
  mkState (boards c) (store c) (serial c) (clock c) (calls c) (watching c) l.

(** [new ArduinoConnector(runtime)] *)
Definition new_State (serial : bool) (t : Z) : State :=
  mkState [] [] serial t [] [] [].

Definition option_Z_eqb (a b : option Z) : bool :=
  match a, b with
  | Some x, Some y => x =? y
  | None, None => true
  | _, _ => false
  end.

(** The predicate of [this.boards.find(...)] for one board. *)
Definition confirmed (filters : list Filter) (w : Board.World) : Res bool :=
  if negb (Board.isConnected w) then Ok false else
  match filters with
  | [] => Ok false
  | _ :: _ =>
      match Board.portInfo (Board.board w) with
      | None => Throw TypeError
      | Some info =>
          Ok (existsb (fun flt =>
                option_Z_eqb (filter_usbVendorId flt) (Board.usbVendorId info) &&
                option_Z_eqb (filter_usbProductId flt) (Board.usbProductId info))
              filters)
      end
  end.

Fixpoint find (filters : list Filter) (st : list Board.World) (bs : list nat)
  : Res (option nat) :=
  match bs with
  | [] => Ok None
  | b :: bs' =>
      match st !! b with
      | None => Throw TypeError
      | Some w =>
          match confirmed filters w with
          | Throw r => Throw r
          | Ok true => Ok (Some b)
          | Ok false => find filters st bs'
          end
      end
  end.

(** [findBoard (options)] *)
Definition findBoard (options : Options) (c : State) : Res (option nat) :=
  match boards c with
  | [] => Ok None
  | first :: _ =>
      match options with
      | None | Some None => Ok (Some first)
      | Some (Some filters) => find filters (store c) (boards c)
      end
  end.

(** [addBoard (newBoard)] *)
Definition addBoard (newBoard : nat) (c : State) : State :=
  with_emitted (emitted c ++ [Emit BOARD_ADDED newBoard])
    (with_boards (boards c ++ [newBoard]) c).

(** [this.boards.indexOf(removal)] *)
Fixpoint indexOf (removal : nat) (bs : list nat) : option nat :=
  match bs with
  | [] => None
  | b :: bs' => if Nat.eqb b removal then Some O else S <$> indexOf removal bs'
  end.

(** [removeBoard (removal)] *)
Definition removeBoard (removal : nat) (c : State) : State :=
  match indexOf removal (boards c) with
  | None => c
  | Some indexOfRemoval =>
      with_emitted (emitted c ++ [Emit BOARD_ADDED removal])
        (with_boards (delete indexOfRemoval (boards c)) c)
  end.

(** [connectSerial (extensionId)] *)
Definition connectSerial (extensionId : string) (c : State)
  : Promise nat * State :=
  if negb (serial c)
  then (Now (Rejected (Failure "This browser does not support Web Serial API.")), c)
  else
    let newBoard := length (store c) in
    let w0 := Board.new_World (clock c) in
    let w1 := Board.with_board
                (Board.with_extensionId (Some extensionId) (Board.board w0)) w0 in
    match Board.connectSerial w1 with
    | (Ok (Later p), w2) =>
        (Later (length (calls c)),
         with_calls (calls c ++ [mkCall newBoard p Pending])
           (with_store (store c ++ [w2]) c))
    | (Ok (Now (Resolved _)), w2) =>
        let c1 := with_store (store c ++ [w2]) c in
        (Now (Resolved newBoard),
         with_watching (watching c1 ++ [newBoard]) (addBoard newBoard c1))
    | (Ok (Now (Rejected r)), w2) | (Throw r, w2) =>
        (Now (Rejected r), with_store (store c ++ [w2]) c)
    | (Ok (Now Pending), w2) =>
        (Now Pending, with_store (store c ++ [w2]) c)
    end.

(** [connectedBoard (extensionId)] *)
Definition connectedBoard (extensionId : string) (c : State)
  : Promise nat * State :=
  match findBoard None c with
  | Ok (Some connectedBoard) => (Now (Resolved connectedBoard), c)
  | _ => connectSerial extensionId c
  end.

(** ** Reactions to what a board does *)

(** The listener [connected.once(ArduinoBoard.RELEASED, ...)]. *)
Definition on_RELEASED (connected : nat) (c : State) : State :=
  if existsb (Nat.eqb connected) (watching c) then
    let c1 := with_watching
                (List.filter (fun b => negb (Nat.eqb connected b)) (watching c)) c in
    let c2 := removeBoard connected c1 in
    with_emitted
      (emitted c2 ++
       [Runtime_PERIPHERAL_DISCONNECTED connected
          (match store c2 !! connected with
           | Some w => Board.portInfo (Board.board w)
           | None => None
           end)]) c2
  else c.

(** The [.then(connected => ...)] of [connectSerial], for one call. *)
Definition settle_call (k : nat) (c : State) : State :=
  match calls c !! k with
  | Some (mkCall b p Pending) =>
      match Board.cells <$> store c !! b with
      | Some cs =>
          match cs !! p with
          | Some (Board.ConnectCell (Resolved _)) =>
              let c1 := addBoard b c in
              with_calls (<[k := mkCall b p (Resolved b)]> (calls c1))
                (with_watching (watching c1 ++ [b]) c1)
          | Some (Board.ConnectCell (Rejected r)) =>
              with_calls (<[k := mkCall b p (Rejected r)]> (calls c)) c
          | _ => c
          end
      | None => c
      end
  | _ => c
  end.

Definition settle_calls (c : State) : State :=
  fold_left (fun c k => settle_call k c) (seq 0 (length (calls c))) c.

(** Board [b] takes a step; its RELEASED listener runs during the step,
    promise callbacks after it. The callbacks are run here with nothing
    done in between, which is the course when no other job comes before
    them; [RegistrySpec.run_job] takes the step and each callback as
    jobs of their own, with anything in between. *)
Definition on_board (b : nat) (e : Board.Event) (c : State) : State :=
  match store c !! b with
  | None => c
  | Some w =>
      let w' := Board.step e w in
      let c1 := with_store (<[b := w']> (store c)) c in
      let c2 := if Nat.ltb (Board.released (Board.log w)) (Board.released (Board.log w'))
                then on_RELEASED b c1 else c1 in
      settle_calls c2
  end.

Inductive Event :=
| At (b : nat) (e : Board.Event)
| Tick (ms : Z).

Definition step (e : Event) (c : State) : State :=
  match e with
  | At b e => on_board b e c
  | Tick ms =>
      fold_left (fun c b => on_board b (Board.Elapsed ms) c)
                (seq 0 (length (store c)))
                (with_clock (clock c + Z.max 0 ms) c)
  end.

Definition run (es : list Event) (c : State) : State :=
  fold_left (fun c e => step e c) es c.

End Connector.

(** * The blocks: [ArduinoBlocks] *)

Module Blocks.

Import Board.
Local Open Scope js_scope.

Inductive JsValue :=
| VUndefined
| VBool (b : bool)
| VNum (q : Q)
| VStr (s : string).

(** The arguments of a block. *)
Record Args := mkArgs {
  PIN : JsValue;
  BIAS : JsValue;
  LEVEL : JsValue;
  ANGLE : JsValue;
  VALUE : JsValue
}.

(** [this.board]: the board the blocks hold, or null. *)
Record Blocks := mkBlocks { board : option Board.World }.

(** The callbacks a block chains on a promise of the board. *)
Inductive Then :=
| then_analogLevel
| then_digitalLevel.

(** What a block hands back to the runtime. *)
Inductive Outcome :=
| Returns (v : JsValue)            (* a plain value *)
| Promised (s : Settled JsValue)   (* a promise settled on the spot *)
| Reading (p : nat) (k : Then)     (* an input update of the board, then [k] *)
| Sending (p : nat)                (* the pacing promise of the board, as it is *)
| Raises (r : Reason).             (* an exception *)

(** [Math.round], on exact rationals: the rounding of the doubles the
    argument is computed with is left out. *)
Definition Math_round (x : Q) : Z := Qfloor (x + (1 # 2)).

(** [raw => Math.round((raw / 1023) * 1000) / 10] *)
Definition analogLevel (raw : Z) : Q :=
  inject_Z (Math_round ((inject_Z raw / 1023) * 1000)) / 10.

(** [value => { if (value === 0) return false; return true; }] *)
Definition digitalLevel (value : Z) : bool := negb (value =? 0).

(** [.then(...).catch(reason => ...)] applied to the board's promise. *)
Definition callbacks (k : Then) (s : Settled Z) : Settled JsValue :=
  match s with
  | Pending => Pending
  | Resolved v =>
      Resolved (match k with
                | then_analogLevel => VNum (analogLevel v)
                | then_digitalLevel => VBool (digitalLevel v)
                end)
  | Rejected _ =>
      Resolved (match k with
                | then_analogLevel => VNum 0
                | then_digitalLevel => VBool false
                end)
  end.

(** [x === ''] *)
Definition is_empty (x : JsValue) : bool :=
  match x with
  | VStr EmptyString => true
  | _ => false
  end.

(** [x === 'pullUp'] *)
Definition is_pullUp (x : JsValue) : bool :=
  match x with
  | VStr s => String.eqb s "pullUp"
  | _ => false
  end.

(** [isConnected ()] *)
Definition isConnected (b : Blocks) : bool :=
  match board b with
  | None => false
  | Some w => Board.isReady w
  end.

(** A method of [this.board] is called and its result handed to [k]. *)
Definition on_board {A} (m : M A) (k : A -> Outcome) (b : Blocks)
  : Outcome * Blocks :=
  match board b with
  | None => (Raises TypeError, b)
  | Some w =>
      match m w with
      | (Ok a, w') => (k a, mkBlocks (Some w'))
      | (Throw r, w') => (Raises r, mkBlocks (Some w'))
      end
  end.

Definition reading (k : Then) (r : Promise Z) : Outcome :=
  match r with
  | Now s => Promised (callbacks k s)
  | Later p => Reading p k
  end.

Definition sending (r : Promise unit) : Outcome :=
  match r with
  | Now Pending => Promised Pending
  | Now (Resolved _) => Promised (Resolved VUndefined)
  | Now (Rejected e) => Promised (Rejected e)
  | Later p => Sending p
  end.

Section Cast.

(** scratch-vm's [Cast.toNumber] and [Cast.toBoolean], and the
    language's [parseInt(x, 10)]: not part of this repository. *)
Variable Cast_toNumber : JsValue -> Q.
Variable Cast_toBoolean : JsValue -> bool.
Variable parseInt : JsValue -> JsIndex.

(** [getAnalogLevel (analogPin)] *)
Definition getAnalogLevel (analogPin : JsIndex) (b : Blocks) : Outcome * Blocks :=
  if negb (isConnected b) then (Promised (Resolved (VNum 0)), b) else
  on_board (updateAnalogInput analogPin) (reading then_analogLevel) b.

(** [a0 ()] ... [a5 ()] *)
Definition a (n : Z) (b : Blocks) : Outcome * Blocks :=
  if negb (isConnected b) then (Returns (VNum 0), b) else
  getAnalogLevel (Some n) b.

(** [getDigitalLevel (args)] *)
Definition getDigitalLevel (args : Args) (b : Blocks) : Outcome * Blocks :=
  if negb (isConnected b) then (Promised (Resolved (VBool false)), b) else
  if is_empty (PIN args) then (Promised (Resolved (VBool false)), b) else
  let pin := parseInt (VNum (Cast_toNumber (PIN args))) in
  on_board (updateDigitalInput pin) (reading then_digitalLevel) b.

(** [setDigitalLevel (args)]. [Cast.toString(...).toLowerCase] is a
    function, never equal to a string: the last two tests are false. *)
Definition setDigitalLevel (args : Args) (b : Blocks) : Outcome * Blocks :=
  if negb (isConnected b) then (Returns (VStr "not connected"), b) else
  if is_empty (PIN args) then (Promised (Resolved (VStr "pin not assigned")), b) else
  let pin := parseInt (VNum (Cast_toNumber (PIN args))) in
  on_board
    (value <- (if Cast_toBoolean (LEVEL args) ||
                  (if Qlt_le_dec 0 (Cast_toNumber (LEVEL args)) then true else false) ||
                  false || false
               then get_HIGH else get_LOW);;
     pinMode pin MODES.OUTPUT;;
     digitalWrite pin value false)
    sending b.

(** [setAnalogLevel (args)] *)
Definition setAnalogLevel (args : Args) (b : Blocks) : Outcome * Blocks :=
  if negb (isConnected b) then (Returns (VStr "not connected"), b) else
  if is_empty (PIN args) then (Promised (Resolved (VStr "pin not assigned")), b) else
  let pin := parseInt (PIN args) in
  let percent := Qmin (Qmax (Cast_toNumber (LEVEL args)) 0) 100 in
  on_board
    (resolution <- get_RESOLUTION_PWM;;
     let value := Math_round (inject_Z resolution * (percent / 100)) in
     pinMode pin MODES.PWM;;
     pwmWrite pin value)
    sending b.

(** [setPinValuePwm (args)]: the board has no method of that name. *)
Definition setPinValuePwm (args : Args) (b : Blocks) : Outcome * Blocks :=
  if negb (isConnected b) then (Returns (VStr "not connected"), b) else
  if is_empty (PIN args) then (Promised (Resolved (VStr "pin not assigned")), b) else
  (Raises TypeError, b).

(** [setInputBias (args)] *)
Definition setInputBias (args : Args) (b : Blocks) : Outcome * Blocks :=
  if negb (isConnected b) then (Returns (VStr "not connected"), b) else
  if is_empty (PIN args) then (Promised (Resolved (VStr "pin not assigned")), b) else
  let pin := parseInt (PIN args) in
  let pullUp := is_pullUp (BIAS args) in
  on_board (Board.setInputBias pin pullUp) sending b.

(** [servoTurn (args)] *)
Definition servoTurn (args : Args) (b : Blocks) : Outcome * Blocks :=
  if negb (isConnected b) then (Returns (VStr "not connected"), b) else
  if is_empty (PIN args) then (Promised (Resolved (VStr "pin not assigned")), b) else
  let pin := parseInt (PIN args) in
  let angle := Cast_toNumber (ANGLE args) in
  let servoValue := (90 - angle)%Q in
  let servoValue := Qmin 180 (Qmax 0 servoValue) in
  on_board
    (pinMode pin MODES.SERVO;;
     servoWrite pin servoValue)
    sending b.

(** The blocks that act on a pin, by opcode. *)
Inductive Opcode :=
| op_a (n : Z)
| op_getAnalogLevel (analogPin : JsIndex)
| op_getDigitalLevel
| op_setInputBias
| op_setDigitalLevel
| op_setAnalogLevel
| op_setPinValuePwm
| op_servoTurn.

Definition call (op : Opcode) (args : Args) (b : Blocks) : Outcome * Blocks :=
  match op with
  | op_a n => a n b
  | op_getAnalogLevel analogPin => getAnalogLevel analogPin b
  | op_getDigitalLevel => getDigitalLevel args b
  | op_setInputBias => setInputBias args b
  | op_setDigitalLevel => setDigitalLevel args b
  | op_setAnalogLevel => setAnalogLevel args b
  | op_setPinValuePwm => setPinValuePwm args b
  | op_servoTurn => servoTurn args b
  end.

End Cast.

(** Whether the block reads [args.PIN]. *)
Definition takes_PIN (op : Opcode) : bool :=
  match op with
  | op_a _ | op_getAnalogLevel _ => false
  | _ => true
  end.

(** The state of the promise a block returned, as of [b]. *)
Definition settled (o : Outcome) (b : Blocks) : Settled JsValue :=
  match o with
  | Returns v => Resolved v
  | Promised s => s
  | Raises r => Rejected r
  | Reading p k =>
      match board b with
      | Some w =>
          match cells w !! p with
          | Some (ReadCell _ s) => callbacks k s
          | _ => Pending
          end
      | None => Pending
      end
  | Sending p =>
      match board b with
      | Some w =>
          match cells w !! p with
          | Some (SentCell (Resolved _)) => Resolved VUndefined
          | Some (SentCell (Rejected r)) => Rejected r
          | _ => Pending
          end
      | None => Pending
      end
  end.

(** ** Menus *)

(** An entry of a pin menu: the string [''], or an object
    [{value, text}]. *)
Inductive MenuItem :=
| Placeholder
| Item (value text : string).

(** [getDigitalPinIndexMenu ()] *)
Definition getDigitalPinIndexMenu (b : Blocks) : Res (list MenuItem) :=
  if negb (isConnected b) then Ok [Placeholder] else
  match board b with
  | None => Throw TypeError
  | Some w =>
      match Board.getDigitalPinIndex w with
      | (Ok pinIndex, _) =>
          let menu := map (fun value => Item (Js.toString value) (Js.toString value))
                          pinIndex in
          Ok (if (length menu =? 0)%nat then menu ++ [Placeholder] else menu)
      | (Throw r, _) => Throw r
      end
  end.

(** [getPWMPinIndexMenu ()] *)
Definition getPWMPinIndexMenu (b : Blocks) : Res (list MenuItem) :=
  if negb (isConnected b) then Ok [Placeholder] else
  match board b with
  | None => Throw TypeError
  | Some w =>
      match Board.getPWMPinIndex w with
      | (Ok pinIndex, _) =>
          let menu := map (fun value => Item (Js.toString value) (Js.toString value))
                          pinIndex in
          Ok (if (length menu =? 0)%nat then menu ++ [Placeholder] else menu)
      | (Throw r, _) => Throw r
      end
  end.

(** [getServoPinIndexMenu ()] *)
Definition getServoPinIndexMenu (b : Blocks) : Res (list MenuItem) :=
  if negb (isConnected b) then Ok [Placeholder] else
  match board b with
  | None => Throw TypeError
  | Some w =>
      match Board.getServoPinIndex w with
      | (Ok pinIndex, _) =>
          let menu := map (fun value => Item (Js.toString value) (Js.toString value))
                          pinIndex in
          Ok (if (length menu =? 0)%nat then menu ++ [Placeholder] else menu)
      | (Throw r, _) => Throw r
      end
  end.

End Blocks.

(** * What the properties are stated with *)

Module Spec.

Import Board.

(** [releaseBoard ()] called [n] times in a row. *)
Definition release_n (n : nat) (w : World) : World :=
  Nat.iter n (exec releaseBoard) w.

(** The signals of the connection; the others carry samples. *)
Definition lifecycle (s : Signal) : bool :=
  match s with
  | E_open | E_close | E_disconnect | E_error | E_ready => true
  | E_digital_read _ | E_analog_read _ => false
  end.

(** A connect call that has failed, with its attempt released. *)
Definition failed_and_released (p : nat) (w : World) : Prop :=
  (exists r, cells w !! p = Some (ConnectCell (Rejected r))) /\
  state (board w) = S_disconnect /\
  firmata (board w) = None.

(** The two input updates. *)
Inductive Input :=
| Digital (pin : JsIndex)
| Analog (analogPin : JsIndex).

Definition update (i : Input) : M (Promise Z) :=
  match i with
  | Digital pin => updateDigitalInput pin
  | Analog analogPin => updateAnalogInput analogPin
  end.

(** The waiting time configured for an input update. *)
Definition waiting (i : Input) (w : World) : Z :=
  match i with
  | Digital _ => updateDigitalInputWaitingTime (board w)
  | Analog _ => updateAnalogInputWaitingTime (board w)
  end.

(** The sample listener an input update on [pin] registers for promise [p]. *)
Definition listener (i : Input) (pin : JsIndex) (p : nat) : Handler :=
  match i with
  | Digital _ => on_digital_read pin p
  | Analog analogPin => on_analog_read analogPin pin p
  end.

Definition target (a : TimerAction) : nat :=
  match a with
  | RejectAfter p _ | ResolveAfter p => p
  end.

(** Every timer belongs to a promise that exists. *)
Definition timers_exist (w : World) : Prop :=
  Forall (fun t => (target (action t) < length (cells w))%nat) (timers w).

Definition is_request (pin : JsIndex) (e : Effect) : bool :=
  match e with
  | Sent _ (c_reportDigitalPin pin' on) => JsIndex_eqb pin pin' && (on =? 1)
  | _ => false
  end.


(** What the [catch] and [finally] callbacks of reads may do to a pin. *)
Inductive cleared : Pin -> Pin -> Prop :=
| cleared_refl q : cleared q q
| cleared_value q q' : cleared q q' -> cleared q (with_value 0 q')
| cleared_updating q q' : cleared q q' -> cleared q (with_updating false q').

(** Steps that leave promise [p], the board and the log alone. *)
Record quiet (p : nat) (w w' : World) : Prop := mkQuiet {
  quiet_board : board w' = board w;
  quiet_log : log w' = log w;
  quiet_cell : cells w' !! p = cells w !! p;
  quiet_length : length (cells w') = length (cells w);
  quiet_pin : forall pin q, the_pin w pin = Some q ->
              exists q', the_pin w' pin = Some q' /\ cleared q q'
}.

(** ** The worlds a board gets into *)

(** What the users of a board do with it. *)
Inductive Call :=
| do_connectSerial
| do_disconnect
| do_releaseBoard
| do_handleDisconnectError
| do_update (i : Input)
| do_setInputBias (pin : JsIndex) (pullUp : bool)
| do_pinMode (pin : JsIndex) (mode : Z)
| do_digitalWrite (pin : JsIndex) (value : Z) (enqueue : bool)
| do_pwmWrite (pin : JsIndex) (value : Z)
| do_servoWrite (pin : JsIndex) (value : Q)
| do_set_extensionId (extensionId : option string)
| do_configure (digitalReadInterval connectingWaitingTime analogReadInterval
                sendingInterval updateDigitalInputWaitingTime
                updateAnalogInputWaitingTime : Z).

Local Open Scope js_scope.

Definition invoke (c : Call) : M unit :=
  match c with
  | do_connectSerial => _ <- connectSerial;; ret tt
  | do_disconnect => disconnect
  | do_releaseBoard => releaseBoard
  | do_handleDisconnectError => handleDisconnectError
  | do_update i => _ <- update i;; ret tt
  | do_setInputBias pin pullUp => _ <- setInputBias pin pullUp;; ret tt
  | do_pinMode pin mode => pinMode pin mode
  | do_digitalWrite pin value enqueue => _ <- digitalWrite pin value enqueue;; ret tt
  | do_pwmWrite pin value => _ <- pwmWrite pin value;; ret tt
  | do_servoWrite pin value => _ <- servoWrite pin value;; ret tt
  | do_set_extensionId e =>
      modify (fun w => with_board (with_extensionId e (board w)) w)
  | do_configure d1 d2 d3 d4 d5 d6 =>
      modify (fun w =>
        with_board (mkFields (state (board w)) (firmata (board w))
                             (extensionId (board w)) (portInfo (board w))
                             d1 d2 d3 d4 d5 d6) w)
  end.

Inductive Action :=
| Outside (e : Event)   (* something happens to the board *)
| Inside (c : Call).    (* a method of the board is called *)

Definition perform (a : Action) (w : World) : World :=
  match a with
  | Outside e => step e w
  | Inside c => exec (invoke c) w
  end.

(** The worlds a board constructed at some time gets into. *)
Definition reachable (w : World) : Prop :=
  exists (t : Z) (acts : list Action),
    w = fold_left (fun w a => perform a w) acts (new_World t).

(** The promises [ps] exist. *)
Definition allocated (ps : list nat) (w : World) : Prop :=
  Forall (fun p => (p < length (cells w))%nat) ps.

(** [c] leaves every timer on a promise that exists and drops no
    promise, where the promises [ps] exist. *)
Definition keeps {A} (ps : list nat) (c : M A) : Prop :=
  forall w, timers_exist w -> allocated ps w ->
    timers_exist (snd (c w)) /\
    (length (cells w) <= length (cells (snd (c w))))%nat.

(** The connect promise [p] is pending or resolved: not rejected. *)
Definition standing (p : nat) (w : World) : Prop :=
  cells w !! p = Some (ConnectCell Pending) \/
  cells w !! p = Some (ConnectCell (Resolved tt)).

(** [c] does not reject the connect promise [p]. *)
Definition leaves {A} (p : nat) (c : M A) : Prop :=
  forall w, standing p w -> standing p (snd (c w)).

(** The open request of connect promise [p] fails. *)
Definition fails_open (p : nat) (a : Action) : bool :=
  match a with
  | Outside (PortFailed q _) => Nat.eqb p q
  | _ => false
  end.

(** ** Worlds to try things on *)

Definition a_port : PortInfo := mkPortInfo (Some 1240) (Some 59450).

Definition three_pins : list Capability :=
  replicate 3 (mkCapability [MODES.INPUT; MODES.OUTPUT] None 0).

(** A board that went through its connect sequence. *)
Definition ready_world : World :=
  run [PortOpened 0 a_port; Emitted 0 E_open 0;
       Library 0 (Topology three_pins [2]); Emitted 0 E_ready 0]
      (exec connectSerial (new_World 1700000000000)).

(** Two overlapping connects: instance 0 is superseded by instance 1. *)
Definition overlapped_world : World :=
  run [PortOpened 0 a_port; PortOpened 1 a_port]
      (exec connectSerial (exec connectSerial (new_World 1700000000000))).

(** The port is open and five seconds have gone by without "ready". *)
Definition waited_world : World :=
  run [PortOpened 0 a_port; Elapsed 5000]
      (exec connectSerial (new_World 1700000000000)).

(** A digital read of pin 1 is in flight. *)
Definition reading_world : World :=
  exec (updateDigitalInput (Some 1)) ready_world.


(** The three writes. *)
Inductive Write :=
| W_digital (pin : JsIndex) (value : Z) (enqueue : bool)
| W_pwm (pin : JsIndex) (value : Z)
| W_servo (pin : JsIndex) (value : Q).

Definition write (x : Write) : M (Promise unit) :=
  match x with
  | W_digital pin value enqueue => digitalWrite pin value enqueue
  | W_pwm pin value => pwmWrite pin value
  | W_servo pin value => servoWrite pin value
  end.

(** The command a write sends to the instance. *)
Definition command_of (x : Write) : Command :=
  match x with
  | W_digital pin value enqueue => c_digitalWrite pin value enqueue
  | W_pwm pin value => c_pwmWrite pin value
  | W_servo pin value => c_servoWrite pin value
  end.

(** The command that stops the reports of an input. *)
Definition report_off (i : Input) (pin : JsIndex) : Command :=
  match i with
  | Digital _ => c_reportDigitalPin pin 0
  | Analog analogPin => c_reportAnalogPin analogPin 0
  end.

(** The lists of pins the board gives, by what the pins are for. *)
Inductive PinKind :=
| DigitalPins
| PWMPins
| ServoPins.

Definition pinIndex (k : PinKind) : M (list nat) :=
  match k with
  | DigitalPins => getDigitalPinIndex
  | PWMPins => getPWMPinIndex
  | ServoPins => getServoPinIndex
  end.

(** What a pin has to support to be in the list: anything at all, PWM,
    or SERVO; and never ANALOG. *)
Definition serves (k : PinKind) (pin : Pin) : Prop :=
  match k with
  | DigitalPins => supportedModes pin <> []
  | PWMPins => In MODES.PWM (supportedModes pin)
  | ServoPins => In MODES.SERVO (supportedModes pin)
  end /\ ~ In MODES.ANALOG (supportedModes pin).

(** The indices of [l], from [n] on, whose elements pass [test]. *)
Fixpoint positions {A} (test : A -> bool) (l : list A) (n : nat) : list nat :=
  match l with
  | [] => []
  | x :: l' =>
      if test x then n :: positions test l' (S n) else positions test l' (S n)
  end.

(** ** Relations between the worlds before and after *)

(** Whatever [c] does, the world after is related to the world before. *)
Definition respects (R : World -> World -> Prop) {A} (c : M A) : Prop :=
  forall w, R w (snd (c w)).

(** The board is connected and holds an instance. *)
Definition attached (w : World) : Prop :=
  isConnected w = true /\ firmata (board w) <> None.

(** From [w] to [w'] a board that was attached is attached still, unless
    RELEASED was emitted on the way. *)
Definition announced (w w' : World) : Prop :=
  (released (log w) <= released (log w'))%nat /\
  (released (log w') = released (log w) -> attached w -> attached w').

(** A board that is connected holds an instance, and the instance a
    board holds is one that was constructed. *)
Definition grounded (w : World) : Prop :=
  (isConnected w = true -> firmata (board w) <> None) /\
  (forall f, firmata (board w) = Some f -> (f < length (heap w))%nat).

(** [I] is kept from [w] to [w']. *)
Definition stays (I : World -> Prop) (w w' : World) : Prop := I w -> I w'.

(** The connect promise [p] is resolved. *)
Definition resolved (p : nat) (w : World) : Prop :=
  exists u, cells w !! p = Some (ConnectCell (Resolved u)).

(** From [w] to [w'] the connect promise [p] is not resolved. *)
Definition unresolving (p : nat) (w w' : World) : Prop :=
  resolved p w' -> resolved p w.

(** From [w] to [w'] the connect promise [p] is resolved only on a board
    that is attached, and a board that was attached is attached still. *)
Definition readying (p : nat) (w w' : World) : Prop :=
  (resolved p w' -> resolved p w \/ attached w') /\
  (attached w -> attached w').

(** Pin [pin] is awaited among the timers [ts]: a read of the pin is
    pending and its timeout is one of the timers. *)
Definition awaited (ts : list Timer) (w : World) (pin : JsIndex) : Prop :=
  exists p delay t,
    In (mkTimer t (RejectAfter p delay)) ts /\
    cells w !! p = Some (ReadCell pin Pending).

(** Every pin of the instance the board holds that is marked as
    updating, the pin [x] apart, is awaited among the timers [ts]. *)
Definition watched_in (ts : list Timer) (x : JsIndex) (w : World) : Prop :=
  forall pin q, the_pin w pin = Some q -> updating q = true ->
    JsIndex_eqb x pin = true \/ awaited ts w pin.

(** ... among the timers [ts] and the timers that are set. *)
Definition watched (ts : list Timer) (x : JsIndex) (w : World) : Prop :=
  watched_in (ts ++ timers w) x w.

(** From [w] to [w'] the promises and the timers are not touched. *)
Definition same_promises (w w' : World) : Prop :=
  cells w' = cells w /\ timers w' = timers w.

(** The read of [reading_world] is in flight when the port closes, 5 ms
    after it went out; then its waiting time goes by. *)
Definition unplugged_world : World :=
  run [Elapsed 5; Emitted 0 E_close 0; Elapsed 100] reading_world.

(** The same with a read of analog channel 0, which is pin 2. *)
Definition unplugged_analog_world : World :=
  run [Elapsed 5; Emitted 0 E_close 0; Elapsed 100]
      (exec (update (Analog (Some 0))) ready_world).

(** The same with [disconnect ()] called where the port closed. *)
Definition disconnected_world : World :=
  step (Elapsed 100) (perform (Inside do_disconnect) (step (Elapsed 5) reading_world)).

End Spec.

Module BlockSpec.

Import Blocks.

(** What a block answers when the board is not ready. *)
Definition not_connected (op : Opcode) : Outcome :=
  match op with
  | op_a _ => Returns (VNum 0)
  | op_getAnalogLevel _ => Promised (Resolved (VNum 0))
  | op_getDigitalLevel => Promised (Resolved (VBool false))
  | _ => Returns (VStr "not connected")
  end.

(** What a block answers when [PIN] is the empty string. *)
Definition not_assigned (op : Opcode) : Outcome :=
  match op with
  | op_getDigitalLevel => Promised (Resolved (VBool false))
  | _ => Promised (Resolved (VStr "pin not assigned"))
  end.

(** The state of an input update of the board, as of [w]. *)
Definition read_state (r : Promise Z) (w : Board.World) : Settled Z :=
  match r with
  | Now s => s
  | Later p =>
      match Board.cells w !! p with
      | Some (Board.ReadCell _ s) => s
      | _ => Pending
      end
  end.

(** Stand-ins for scratch-vm's casts, to try the blocks on. *)
Definition toNumber (x : JsValue) : Q :=
  match x with
  | VNum q => q
  | VBool true => 1
  | _ => 0
  end.

Definition toBoolean (x : JsValue) : bool :=
  match x with
  | VBool b => b
  | VNum q => negb (Qeq_bool q 0)
  | VStr EmptyString => false
  | VStr _ => true
  | VUndefined => false
  end.

Definition toIndex (x : JsValue) : JsIndex :=
  match x with
  | VNum q => Some (Z.quot (Qnum q) (Z.pos (Qden q)))
  | _ => None
  end.

Definition some_args : Args :=
  mkArgs (VNum 1) (VStr "none") (VNum 1) (VNum 200) VUndefined.

(** The pin menus, by what the pins are for. *)
Definition menu (k : Spec.PinKind) (b : Blocks) : Res (list MenuItem) :=
  match k with
  | Spec.DigitalPins => getDigitalPinIndexMenu b
  | Spec.PWMPins => getPWMPinIndexMenu b
  | Spec.ServoPins => getServoPinIndexMenu b
  end.

(** The pin a block makes of a menu entry chosen as [PIN]:
    [parseInt(args.PIN, 10)]. *)
Definition item_pin (m : MenuItem) : JsIndex :=
  match m with
  | Placeholder => Js.parseInt EmptyString
  | Item value _ => Js.parseInt value
  end.

End BlockSpec.

Module RegistrySpec.

Import Connector.

(** Board [b] has gone from world [w] to world [w']: its RELEASED
    listener runs if RELEASED was emitted on the way, promise callbacks
    after that, with nothing done in between; [moved_now] and [run_job]
    below take the callbacks as jobs of their own. *)
Definition moved (b : nat) (w w' : Board.World) (c : State) : State :=
  let c1 := with_store (<[b := w']> (store c)) c in
  let c2 := if Nat.ltb (Board.released (Board.log w)) (Board.released (Board.log w'))
            then on_RELEASED b c1 else c1 in
  settle_calls c2.

(** A user of board [b] calls one of its methods. *)
Definition on_call (b : nat) (call : Spec.Call) (c : State) : State :=
  match store c !! b with
  | None => c
  | Some w => moved b w (Board.exec (Spec.invoke call) w) c
  end.

(** What happens to a connector and what its users do. *)
Inductive Action :=
| Happens (e : Event)                  (* something happens to a board; time goes by *)
| Acquires (extensionId : string)      (* connectedBoard (extensionId) is called *)
| Connects (extensionId : string)      (* connectSerial (extensionId) is called *)
| Calls (b : nat) (call : Spec.Call).  (* a method of board [b] is called *)

Definition perform (a : Action) (c : State) : State :=
  match a with
  | Happens e => step e c
  | Acquires extensionId => snd (connectedBoard extensionId c)
  | Connects extensionId => snd (connectSerial extensionId c)
  | Calls b call => on_call b call c
  end.

(** The states a connector gets into. *)
Definition reachable (c : State) : Prop :=
  exists (serial : bool) (t : Z) (acts : list Action),
    c = fold_left (fun c a => perform a c) acts (new_State serial t).

(** A promise of [connectSerial] of a board that is not settled. *)
Definition unsettled (x : option Board.Cell) : Prop :=
  match x with
  | Some (Board.ConnectCell (Resolved _)) | Some (Board.ConnectCell (Rejected _)) => False
  | _ => True
  end.

(** The callback of call [k] has run if the board's promise is settled. *)
Definition seen (k : nat) (c : State) : Prop :=
  forall b p w,
    calls c !! k = Some (mkCall b p Pending) ->
    store c !! b = Some w ->
    unsettled (Board.cells w !! p).

(** The registry and the calls fit together. *)
Record orderly (c : State) : Prop := mkOrderly {
  orderly_calls : Forall (fun call => (call_board call < length (store c))%nat) (calls c);
  orderly_one_call : NoDup (map call_board (calls c));
  orderly_watching : watching c = boards c;
  orderly_once : NoDup (boards c);
  orderly_resolved : forall b, In b (boards c) ->
    exists k p, calls c !! k = Some (mkCall b p (Resolved b))
}.

(** Every board in the registry is connected and holds an instance. *)
Definition all_attached (c : State) : Prop :=
  forall b, In b (boards c) ->
    exists w, store c !! b = Some w /\ Spec.attached w.

(** The board [connectSerial] of the connector constructs at time [t]
    for [extensionId], after its own [connectSerial] was called. *)
Definition fresh_board (extensionId : string) (t : Z) : Board.World :=
  snd (Board.connectSerial
         (Board.with_board
            (Board.with_extensionId (Some extensionId)
               (Board.board (Board.new_World t)))
            (Board.new_World t))).

(** The state of call [k]. *)
Definition status (k : nat) (c : State) : option (Settled nat) :=
  call_status <$> calls c !! k.

(** Something done with board [b], as an action on the connector. *)
Definition on (b : nat) (a : Spec.Action) : Action :=
  match a with
  | Spec.Outside e => Happens (At b e)
  | Spec.Inside call => Calls b call
  end.

(** A connector to try things on: a board is acquired, its port opens
    and its instance is ready. *)
Definition acquired : State :=
  fold_left (fun c a => perform a c)
    [Acquires "xcxArduino";
     Happens (At 0 (Board.PortOpened 0 Spec.a_port));
     Happens (At 0 (Board.Emitted 0 Board.E_open 0));
     Happens (At 0 (Board.Emitted 0 Board.E_ready 0))]
    (new_State true 1700000000000).

(** ** Job by job *)

(** Board [b] has gone from [w] to [w'] within one job: its RELEASED
    listener has run if RELEASED was emitted, inside [releaseBoard]. The
    callbacks of promises are jobs of their own. *)
Definition moved_now (b : nat) (w w' : Board.World) (c : State) : State :=
  let c1 := with_store (<[b := w']> (store c)) c in
  if Nat.ltb (Board.released (Board.log w)) (Board.released (Board.log w'))
  then on_RELEASED b c1 else c1.

(** Something is done with board [b], or happens to it. *)
Definition on_now (b : nat) (a : Spec.Action) (c : State) : State :=
  match store c !! b with
  | None => c
  | Some w => moved_now b w (Spec.perform a w) c
  end.

(** What is done with a connector, job by job. The [.then] callback of a
    [connectSerial] runs in a job of its own, some time after the
    promise of its board was settled; anything may be done with the
    board before it. *)
Inductive Job :=
| Step (b : nat) (a : Spec.Action)     (* board [b]: an event, or a call of a method *)
| Elapse (ms : Z)                      (* time goes by for every board *)
| Acquire (extensionId : string)       (* connectedBoard (extensionId) *)
| Connect (extensionId : string)       (* connectSerial (extensionId) *)
| Callback (k : nat).                  (* the callback of call [k] *)

Definition run_job (j : Job) (c : State) : State :=
  match j with
  | Step b a => on_now b a c
  | Elapse ms =>
      fold_left (fun c b => on_now b (Spec.Outside (Board.Elapsed ms)) c)
                (seq 0 (length (store c)))
                (with_clock (clock c + Z.max 0 ms) c)
  | Acquire extensionId => snd (connectedBoard extensionId c)
  | Connect extensionId => snd (connectSerial extensionId c)
  | Callback k => settle_call k c
  end.

(** The states a connector gets into, job by job. *)
Definition occurs (c : State) : Prop :=
  exists (serial : bool) (t : Z) (jobs : list Job),
    c = fold_left (fun c j => run_job j c) jobs (new_State serial t).

(** The callback of call [k] finds its board connected, if it is about
    to register it. *)
Definition in_time (j : Job) (c : State) : Prop :=
  forall k b p w u,
    j = Callback k ->
    calls c !! k = Some (mkCall b p Pending) ->
    store c !! b = Some w ->
    Board.cells w !! p = Some (Board.ConnectCell (Resolved u)) ->
    Spec.attached w.

(** A connector to try things on: the instance of its board is ready
    and the callback of [connectSerial] has not run yet. *)
Definition answered : State :=
  fold_left (fun c j => run_job j c)
    [Acquire "xcxArduino";
     Step 0 (Spec.Outside (Board.PortOpened 0 Spec.a_port));
     Step 0 (Spec.Outside (Board.Emitted 0 Board.E_ready 0))]
    (new_State true 1700000000000).

End RegistrySpec.

(** * The blocks as a peripheral: [this.board], [scan], [disconnect] *)

Module Peripheral.

Import Connector.

(** The blocks with the connector of their runtime; [this.board] refers
    to a board in the connector's store. *)
Record State := mkState {
  boardConnector : Connector.State;   (* this.boardConnector *)
  board : option nat                  (* this.board *)
}.

Definition EXTENSION_ID : string := "xcxArduino".

(** [getArduinoConnector (runtime)], for what [runtime.arduinoConnector]
    holds. *)
Definition getArduinoConnector (arduinoConnector : option Connector.State)
    (serial : bool) (t : Z) : Connector.State :=
  match arduinoConnector with
  | Some c => c
  | None => Connector.new_State serial t
  end.

(** [new ArduinoBlocks (runtime)] *)
Definition new_State (arduinoConnector : option Connector.State)
    (serial : bool) (t : Z) : State :=
  mkState (getArduinoConnector arduinoConnector serial t) None.

(** [isConnected ()] of board [b]. *)
Definition board_isConnected (c : Connector.State) (b : nat) : bool :=
  match store c !! b with
  | Some w => Board.isConnected w
  | None => false
  end.

(** [updateBoard ()]; [connected] is what [isConnected ()] of a board
    gives when it runs. *)
Definition updateBoard (connected : nat -> bool) (s : State) : State :=
  if match board s with Some b => connected b | None => false end then s else
  match findBoard None (boardConnector s) with
  | Ok found => mkState (boardConnector s) found
  | Throw _ => s
  end.

(** The listeners of the constructor: [() => this.updateBoard()] on
    BOARD_ADDED and on BOARD_REMOVED. *)
Definition listener (connected : nat -> bool) (e : Emission) (s : State) : State :=
  match e with
  | Emit BOARD_ADDED _ | Emit BOARD_REMOVED _ => updateBoard connected s
  | Runtime_PERIPHERAL_DISCONNECTED _ _ => s
  end.

(** The connector has gone to [c'] by one of [addBoard], [removeBoard]
    and the callbacks that call them, which emit once, after the
    registry has changed: the listeners run for what was emitted. *)
Definition heard (connected : nat -> bool) (c' : Connector.State) (s : State)
  : State :=
  fold_left (fun s e => listener connected e s)
    (drop (length (emitted (boardConnector s))) (emitted c'))
    (mkState c' (board s)).

(** RELEASED is the last thing [releaseBoard] does, after it made the
    board 'disconnect': to a listener that runs then, board [b] is not
    connected. *)
Definition released_now (b : nat) (c : Connector.State) (x : nat) : bool :=
  negb (Nat.eqb x b) && board_isConnected c x.

(** Board [b] has gone from world [w] to world [w'] within one job, as
    for the connector alone, with the listeners of the blocks. *)
Definition moved_now (b : nat) (w w' : Board.World) (s : State) : State :=
  let c := boardConnector s in
  let c1 := with_store (<[b := w']> (store c)) c in
  let s1 := mkState c1 (board s) in
  if Nat.ltb (Board.released (Board.log w)) (Board.released (Board.log w'))
  then heard (released_now b c1) (on_RELEASED b c1) s1 else s1.

Definition on_now (b : nat) (a : Spec.Action) (s : State) : State :=
  match store (boardConnector s) !! b with
  | None => s
  | Some w => moved_now b w (Spec.perform a w) s
  end.

(** [isConnected ()] *)
Definition isConnected (s : State) : bool :=
  match board s with
  | None => false
  | Some b =>
      match store (boardConnector s) !! b with
      | Some w => Board.isReady w
      | None => false
      end
  end.

(** [connectBoard ()] up to the promise of the connector it chains its
    callbacks on; [None] where it returns undefined. *)
Definition connectBoard (s : State) : option (Promise nat) * State :=
  if match board s with
     | Some b => board_isConnected (boardConnector s) b
     | None => false
     end
  then (None, s)
  else
    let (p, c') := connectedBoard EXTENSION_ID (boardConnector s) in
    (Some p, heard (board_isConnected c') c' s).

(** What [connectBoard] resolves with. *)
Inductive Message :=
| connected_to (path : option Board.PortInfo)  (* `connected to ${JSON.stringify(...)}` *)
| undefined.

(** The callbacks [.then(connectedBoard => ...).catch(reason => ...)] of
    [connectBoard] once the connector's promise is settled with [r]: the
    paths the runtime is told with PERIPHERAL_CONNECTED, and how the
    promise [connectBoard] returned settles. What is printed on the
    console is left out. *)
Definition connectBoard_callbacks (c : Connector.State) (r : Settled nat)
  : list (option Board.PortInfo) * Settled Message :=
  match r with
  | Pending => ([], Pending)
  | Resolved connectedBoard =>
      match store c !! connectedBoard with
      | Some w =>
          ([Board.portInfo (Board.board w)],
           Resolved (connected_to (Board.portInfo (Board.board w))))
      | None => ([], Resolved undefined)
      end
  | Rejected _ => ([], Resolved undefined)
  end.

(** [scan ()] *)
Definition scan (s : State) : option (Promise nat) * State := connectBoard s.

(** [disconnectBoard ()] *)
Definition disconnectBoard (s : State) : Res unit * State :=
  match board s with
  | None => (Ok tt, s)
  | Some b =>
      match store (boardConnector s) !! b with
      | None => (Throw TypeError, s)
      | Some w =>
          (fst (Board.disconnect w), on_now b (Spec.Inside Spec.do_disconnect) s)
      end
  end.

(** [disconnect ()] *)
Definition disconnect (s : State) : Res unit * State := disconnectBoard s.

(** What happens to the blocks, job by job: their connector and its
    boards are used and things happen to them; the runtime calls [scan]
    and [disconnect]. *)
Inductive Action :=
| Underneath (j : RegistrySpec.Job)
| Scans
| Disconnects.

Definition perform (a : Action) (s : State) : State :=
  match a with
  | Underneath (RegistrySpec.Step b a) => on_now b a s
  | Underneath (RegistrySpec.Elapse ms) =>
      let c := boardConnector s in
      fold_left (fun s b => on_now b (Spec.Outside (Board.Elapsed ms)) s)
                (seq 0 (length (store c)))
                (mkState (with_clock (clock c + Z.max 0 ms) c) (board s))
  | Underneath (RegistrySpec.Acquire extensionId) =>
      let c' := snd (connectedBoard extensionId (boardConnector s)) in
      heard (board_isConnected c') c' s
  | Underneath (RegistrySpec.Connect extensionId) =>
      let c' := snd (connectSerial extensionId (boardConnector s)) in
      heard (board_isConnected c') c' s
  | Underneath (RegistrySpec.Callback k) =>
      let c := boardConnector s in
      heard (board_isConnected c) (settle_call k c) s
  | Scans => snd (scan s)
  | Disconnects => snd (disconnect s)
  end.

(** What an action of the blocks is to their connector. *)
Definition below (a : Action) (s : State) : list RegistrySpec.Job :=
  match a with
  | Underneath j => [j]
  | Scans =>
      match fst (scan s) with
      | None => []
      | Some _ => [RegistrySpec.Acquire EXTENSION_ID]
      end
  | Disconnects =>
      match board s with
      | None => []
      | Some b => [RegistrySpec.Step b (Spec.Inside Spec.do_disconnect)]
      end
  end.

(** The states the blocks get into on a runtime that had no connector
    when they were constructed. *)
Definition reachable (s : State) : Prop :=
  exists (serial : bool) (t : Z) (acts : list Action),
    s = fold_left (fun s a => perform a s) acts (new_State None serial t).

(** [this.board] is the first board of the registry, or null when the
    registry is empty. *)
Definition held_ok (s : State) : Prop :=
  board s = head (boards (boardConnector s)).

(** The registry is in order and [this.board] fits it. *)
Definition sound (s : State) : Prop :=
  RegistrySpec.orderly (boardConnector s) /\ held_ok s.

(** Blocks to try things on: they scan, the port opens, the instance is
    ready and the callback of the connector runs. *)
Definition scanned : State :=
  fold_left (fun s a => perform a s)
    [Scans;
     Underneath (RegistrySpec.Step 0 (Spec.Outside (Board.PortOpened 0 Spec.a_port)));
     Underneath (RegistrySpec.Step 0 (Spec.Outside (Board.Emitted 0 Board.E_ready 0)));
     Underneath (RegistrySpec.Callback 0)]
    (new_State None true 1700000000000).

(** ... and blocks whose board was disconnected by another user before
    the callback ran. *)
Definition overtaken : State :=
  fold_left (fun s a => perform a s)
    [Scans;
     Underneath (RegistrySpec.Step 0 (Spec.Outside (Board.PortOpened 0 Spec.a_port)));
     Underneath (RegistrySpec.Step 0 (Spec.Outside (Board.Emitted 0 Board.E_ready 0)));
     Underneath (RegistrySpec.Step 0 (Spec.Inside Spec.do_disconnect));
     Underneath (RegistrySpec.Callback 0)]
    (new_State None true 1700000000000).

End Peripheral.

(** * Proofs *)

(** Running the monad by hand: unfold its operations, keep list
    operations folded. *)
Ltac js :=
  cbv [Board.exec Board.bind Board.ret Board.throw Board.gets Board.modify
       Board.attempt Board.emit Board.send Board.this_firmata
       Board.lookup_firmata Board.alter_firmata Board.this_pin
       Board.set_this_pin Board.the_pin Board.once Board.new_cell
       Board.set_cell Board.setTimeout Board.holds Board.pinMode
       Board.servoWrite Board.paced];
  cbn -[lookup alter insert Board.index Board.alter_index Qmin Qmax Qminus].

Ltac bad := let E := fresh in intros E; discriminate E.

Section Lists.

Context {A : Type}.

Lemma index_alter_any (g : A -> A) (pin' pin : JsIndex) (l : list A) :
  Board.index (Board.alter_index g pin' l) pin =
  if Board.JsIndex_eqb pin' pin then g <$> Board.index l pin else Board.index l pin.
Proof.
  destruct pin' as [z'|], pin as [z|]; cbn; try reflexivity.
  destruct (Z.ltb_spec z' 0), (Z.ltb_spec z 0), (Z.eqb_spec z' z);
    subst; cbn; try reflexivity; try lia.
  - apply list_lookup_alter_eq.
  - apply list_lookup_alter_ne. lia.
Qed.

Lemma JsIndex_eqb_refl (pin : JsIndex) : Board.JsIndex_eqb pin pin = true.
Proof. destruct pin; cbn; [apply Z.eqb_refl|reflexivity]. Qed.

Lemma index_alter_same (g : A -> A) (pin : JsIndex) (l : list A) :
  Board.index (Board.alter_index g pin l) pin = g <$> Board.index l pin.
Proof. now rewrite index_alter_any, JsIndex_eqb_refl. Qed.

Lemma insert_last (l : list A) (x y : A) :
  <[length l := y]> (l ++ [x]) = l ++ [y].
Proof. rewrite insert_app_r_alt by lia. now rewrite Nat.sub_diag. Qed.


Lemma Forall_filter_bool (P : A -> Prop) (f : A -> bool) (l : list A) :
  Forall P l -> Forall P (List.filter f l).
Proof.
  induction 1 as [|x l Hx _ IH]; cbn; [constructor|].
  destruct (f x); [now constructor|assumption].
Qed.

End Lists.

(** Normal form of a run: reduce, and look pins and instances up. *)
Ltac norm :=
  repeat (progress cbn -[lookup alter insert Board.index Board.alter_index]
          || rewrite list_lookup_alter_eq
          || rewrite index_alter_same
          || (rewrite list_lookup_middle by reflexivity)
          || match goal with
             | H : _ !! _ = _ |- _ => rewrite H
             | H : Board.index _ _ = _ |- _ => rewrite H
             | H : Board.throws _ = _ |- _ => rewrite H
             end).

(** ** Release *)

Section Release.

Import Board Spec.

Lemma releaseBoard_board (w : World) :
  board (exec releaseBoard w) =
  with_extensionId None (with_firmata None (with_state S_disconnect (board w))).
Proof.
  destruct w as [[st fm ext pi a1 a2 a3 a4 a5 a6] h c t ce o l].
  unfold releaseBoard; js.
  destruct fm as [f|]; js; [|reflexivity].
  destruct (h !! f) as [fo|] eqn:Hh; js; [|reflexivity].
  destruct (transport fo && isOpen fo); js; [|reflexivity].
  rewrite Hh; js. destruct (throws fo); reflexivity.
Qed.

Lemma releaseBoard_log (w : World) :
  exists l, log (exec releaseBoard w) = log w ++ l ++ [Emit_RELEASED]
            /\ released l = 0%nat.
Proof.
  destruct w as [[st fm ext pi a1 a2 a3 a4 a5 a6] h c t ce o l].
  unfold releaseBoard; js.
  destruct fm as [f|]; js; [|now exists []].
  destruct (h !! f) as [fo|] eqn:Hh; js; [|now exists []].
  destruct (transport fo && isOpen fo); js; [|now exists []].
  rewrite Hh; js. destruct (throws fo); js; [now exists []|].
  exists [Sent f c_transport_close]. now rewrite <- app_assoc.
Qed.

Lemma releaseBoard_again (w : World) :
  state (board w) = S_disconnect -> firmata (board w) = None ->
  extensionId (board w) = None ->
  exec releaseBoard w = with_log (log w ++ [Emit_RELEASED]) w.
Proof.
  destruct w as [[st fm ext pi a1 a2 a3 a4 a5 a6] h c t ce o l]; cbn.
  intros -> -> ->. reflexivity.
Qed.

Lemma released_app (l1 l2 : list Effect) :
  released (l1 ++ l2) = (released l1 + released l2)%nat.
Proof. unfold released. now rewrite List.filter_app, length_app. Qed.

Lemma release_n_S (n : nat) (w : World) :
  release_n (S n) w = exec releaseBoard (release_n n w).
Proof. reflexivity. Qed.

(** C2, as the code has it: every call of [releaseBoard] emits RELEASED,
    so [N] calls in a row emit [N] of them (one per call, whatever the
    state before). After every call the state is 'disconnect' and no
    instance is held, and every call after the first changes nothing but
    the log, to which it adds its RELEASED. *)
Theorem release_emits_on_every_call (N : nat) (w : World) :
  released (log (release_n N w)) = (released (log w) + N)%nat /\
  forall k : nat,
    state (board (release_n (S k) w)) = S_disconnect /\
    firmata (board (release_n (S k) w)) = None /\
    release_n (S (S k)) w =
      with_log (log (release_n (S k) w) ++ [Emit_RELEASED]) (release_n (S k) w).
Proof.
  split.
  - induction N as [|N IH]; [cbn; lia|].
    rewrite release_n_S.
    destruct (releaseBoard_log (release_n N w)) as (l & -> & Hl).
    rewrite !released_app, Hl, IH. cbn. lia.
  - intros k. rewrite (release_n_S (S k)), !release_n_S.
    rewrite !releaseBoard_board; cbn.
    repeat split.
    apply releaseBoard_again; rewrite releaseBoard_board; reflexivity.
Qed.

(** C2 as the specification states it, that [N] calls in a row emit one
    RELEASED in all, fails for two calls on a ready board. *)
Lemma release_twice_emits_twice :
  ~ (released (log (release_n 2 ready_world))
     = (released (log ready_world) + 1)%nat).
Proof. vm_compute. discriminate. Qed.

End Release.

(** ** Stale signals *)

Section Stale.

Import Board Spec.

Lemma holds_stale (w : World) (f : nat) :
  firmata (board w) <> Some f -> holds f w = (Ok false, w).
Proof.
  intros H. unfold holds, gets.
  destruct (firmata (board w)) as [g|]; [|reflexivity].
  destruct (Nat.eqb_spec g f) as [->|]; [congruence|reflexivity].
Qed.

Lemma stale_handler (w : World) (f : nat) (h : Handler) (v : Z) :
  lifecycle (signal_of h) = true ->
  firmata (board w) <> Some f ->
  run_handler f h v w = (Ok tt, w).
Proof.
  intros Hl Hs.
  destruct h; cbn in Hl; try discriminate;
    unfold run_handler, bind; rewrite (holds_stale _ _ Hs); reflexivity.
Qed.

Lemma stale_handlers (w : World) (f : nat) (hs : list Handler) (v : Z) :
  Forall (fun h => lifecycle (signal_of h) = true) hs ->
  firmata (board w) <> Some f ->
  run_handlers f hs v w = (Ok tt, w).
Proof.
  intros Hall Hs. induction Hall as [|h hs Hh _ IH]; [reflexivity|].
  cbn. unfold bind. now rewrite (stale_handler _ _ _ _ Hh Hs).
Qed.

Lemma Signal_eqb_eq (a b : Signal) : Signal_eqb a b = true -> a = b.
Proof.
  destruct a as [| | | | |[x|]|[x|]], b as [| | | | |[y|]|[y|]];
    cbn; try discriminate; try reflexivity;
    intros H; apply Z.eqb_eq in H; now subst.
Qed.

Lemma Signal_eqb_refl (s : Signal) : Signal_eqb s s = true.
Proof. destruct s; cbn; try reflexivity; apply JsIndex_eqb_refl. Qed.

Lemma pins_alter_listeners (ls : list Handler) (f : nat) (h : list Firmata) :
  map pins (alter (with_listeners ls) f h) = map pins h.
Proof.
  revert f; induction h as [|x h IH]; intros [|f]; cbn; try reflexivity.
  f_equal. apply IH.
Qed.

(** C3: a lifecycle signal (open, close, error, disconnect, ready) from
    an instance that is not the one the board holds changes neither the
    board's fields, nor any pin of any instance, nor what was emitted or
    sent, nor any promise, timer or pending open: its handlers return at
    the identity test. *)
Theorem stale_lifecycle_signal_is_discarded
    (w : World) (f : nat) (s : Signal) (v : Z) :
  lifecycle s = true ->
  firmata (board w) <> Some f ->
  board (step (Emitted f s v) w) = board w /\
  map pins (heap (step (Emitted f s v) w)) = map pins (heap w) /\
  log (step (Emitted f s v) w) = log w /\
  cells (step (Emitted f s v) w) = cells w /\
  timers (step (Emitted f s v) w) = timers w /\
  opens (step (Emitted f s v) w) = opens w.
Proof.
  intros Hl Hs. unfold step, handle, deliver. js.
  destruct (heap w !! f) as [fo|]; cbn -[lookup alter]; [|tauto].
  rewrite stale_handlers; cbn -[lookup alter].
  - rewrite pins_alter_listeners. tauto.
  - apply List.Forall_forall. intros h Hin. apply List.filter_In in Hin as [_ Hin].
    unfold listens in Hin. apply Signal_eqb_eq in Hin. now rewrite Hin.
  - exact Hs.
Qed.

Lemma stale_lifecycle_signal_witness :
  (lifecycle E_error = true /\ firmata (board overlapped_world) <> Some 0%nat) /\
  board (step (Emitted 0 E_error 0) overlapped_world) = board overlapped_world /\
  log (step (Emitted 0 E_error 0) overlapped_world) = log overlapped_world.
Proof.
  assert (H1 : lifecycle E_error = true) by reflexivity.
  assert (H2 : firmata (board overlapped_world) <> Some 0%nat)
    by (vm_compute; discriminate).
  split; [split; assumption|].
  destruct (stale_lifecycle_signal_is_discarded overlapped_world 0 E_error 0 H1 H2)
    as (Hb & _ & Hlog & _).
  split; assumption.
Defined.

End Stale.

(** ** Pin input *)

Section Reads.

Import Board Spec.

Lemma cleared_trans (q1 q2 q3 : Pin) :
  cleared q1 q2 -> cleared q2 q3 -> cleared q1 q3.
Proof.
  intros H12 H23.
  induction H23; [assumption|apply cleared_value; auto|apply cleared_updating; auto].
Qed.

Lemma cleared_keeps (q q' : Pin) :
  cleared q q' -> value q = 0 -> updating q = false ->
  value q' = 0 /\ updating q' = false.
Proof. induction 1; cbn; intros; tauto. Qed.

Lemma quiet_refl (p : nat) (w : World) : quiet p w w.
Proof.
  split; try reflexivity.
  intros pin q H. exists q. split; [assumption|constructor].
Qed.

Lemma quiet_trans (p : nat) (w1 w2 w3 : World) :
  quiet p w1 w2 -> quiet p w2 w3 -> quiet p w1 w3.
Proof.
  intros [b1 l1 c1 n1 p1] [b2 l2 c2 n2 p2]. split; try congruence.
  intros pin q H. destruct (p1 _ _ H) as (q' & H' & C').
  destruct (p2 _ _ H') as (q'' & H'' & C''). exists q''.
  split; [assumption|]. eapply cleared_trans; eassumption.
Qed.

Lemma the_pin_Some (w : World) (pin : JsIndex) (q : Pin) :
  the_pin w pin = Some q ->
  exists f fo, firmata (board w) = Some f /\ heap w !! f = Some fo /\
               index (pins fo) pin = Some q.
Proof.
  unfold the_pin. destruct (firmata (board w)) as [f|]; [|discriminate].
  destruct (heap w !! f) as [fo|] eqn:Hh; [|discriminate]. eauto.
Qed.

(** The callbacks of a pending read whose pin is there. *)
Lemma settle_read_live (w : World) (p : nat) (pin : JsIndex) (o : Settled Z) (q : Pin) :
  cells w !! p = Some (ReadCell pin Pending) ->
  the_pin w pin = Some q ->
  exists w', settle_read p o w = (Ok tt, w') /\
    board w' = board w /\ log w' = log w /\ timers w' = timers w /\
    clock w' = clock w /\ opens w' = opens w /\
    cells w' = <[p := ReadCell pin o]> (cells w) /\
    the_pin w' pin =
      Some (with_updating false
              (match o with Rejected _ => with_value 0 q | _ => q end)).
Proof.
  intros Hc H. apply the_pin_Some in H as (f & fo & Hf & Hh & Hq).
  destruct w as [[st fm ext pi a1 a2 a3 a4 a5 a6] h c t ce o' l].
  cbn -[lookup] in Hf, Hh, Hc. subst fm.
  unfold settle_read. destruct o as [|v|r]; js; norm;
    eexists; (split; [reflexivity|]); js; norm; repeat split.
Qed.

(** The callbacks of another read leave promise [p] alone. *)
Lemma settle_read_frame (w : World) (p' : nat) (o : Settled Z) (p : nat) :
  p' <> p ->
  exists w', settle_read p' o w = (Ok tt, w') /\ quiet p w w' /\
             timers w' = timers w.
Proof.
  intros Hne. unfold settle_read at 1. unfold bind at 1, gets.
  destruct (cells w !! p') as [[s|pin' [| |]|s]|] eqn:Hc';
    try (exists w; split; [reflexivity|split; [apply quiet_refl|reflexivity]]).
  destruct w as [[st fm ext pi a1 a2 a3 a4 a5 a6] h c t ce o' l].
  assert (Hcell : forall (x : Cell), <[p' := x]> ce !! p = ce !! p)
    by (intros x; now apply list_lookup_insert_ne).
  clear Hc'.
  destruct fm as [f|].
  2:{ destruct o; js; eexists; (split; [reflexivity|]); (split; [|reflexivity]);
      (split; cbn; try reflexivity; try apply Hcell; try apply length_insert;
       intros pin q H; discriminate). }
  destruct (h !! f) as [fo|] eqn:Hh.
  2:{ destruct o; js; norm; eexists; (split; [reflexivity|]); (split; [|reflexivity]);
      (split; cbn; try reflexivity; try apply Hcell; try apply length_insert;
       intros pin q H; unfold the_pin in H; cbn in H; rewrite Hh in H; discriminate). }
  destruct (index (pins fo) pin') as [q0|] eqn:Hq.
  2:{ destruct o; js; norm; eexists; (split; [reflexivity|]); (split; [|reflexivity]);
      (split; cbn; try reflexivity; try apply Hcell; try apply length_insert;
       intros pin q H; exists q; split; [assumption|constructor]). }
  destruct o; js; norm; eexists; (split; [reflexivity|]); (split; [|reflexivity]);
    (split; cbn -[lookup insert alter index alter_index];
       try reflexivity; try apply Hcell; try apply length_insert).
  all: intros pin q H; unfold the_pin in *;
       cbn -[lookup insert alter index alter_index] in *;
       rewrite ?list_lookup_alter_eq, Hh in *;
       cbn -[lookup insert alter index alter_index] in *;
       rewrite ?index_alter_any;
       destruct (JsIndex_eqb pin' pin);
       rewrite ?H; cbn; eexists; (split; [reflexivity|]); repeat constructor.
Qed.

Lemma fire_frame (a : TimerAction) (w : World) (p : nat) :
  target a <> p ->
  exists w', fire a w = (Ok tt, w') /\ quiet p w w' /\ timers w' = timers w.
Proof.
  intros Hne. destruct a as [p' d|p']; cbn in Hne; unfold fire.
  - now apply settle_read_frame.
  - unfold settle_sent, bind, gets.
    destruct (cells w !! p') as [[s|pin' s|[| |]]|];
      try (exists w; split; [reflexivity|split; [apply quiet_refl|reflexivity]]).
    js. eexists; split; [reflexivity|]. split; [|reflexivity].
    split; cbn; try reflexivity.
    + now apply list_lookup_insert_ne.
    + apply length_insert.
    + intros pin q H. exists q. split; [exact H|constructor].
Qed.

Lemma fire_all_frame (ts : list Timer) (w : World) (p : nat) :
  Forall (fun t => target (action t) <> p) ts ->
  exists w', fire_all ts w = (Ok tt, w') /\ quiet p w w' /\ timers w' = timers w.
Proof.
  intros H; revert w; induction H as [|t ts Ht _ IH]; intros w.
  - exists w. split; [reflexivity|split; [apply quiet_refl|reflexivity]].
  - destruct (fire_frame (action t) w p Ht) as (w1 & E1 & Q1 & T1).
    destruct (IH w1) as (w2 & E2 & Q2 & T2).
    exists w2. cbn. unfold bind. rewrite E1, E2.
    split; [reflexivity|]. split; [eapply quiet_trans; eassumption|congruence].
Qed.

Lemma fire_all_app (ts1 ts2 : list Timer) (w w1 : World) :
  fire_all ts1 w = (Ok tt, w1) ->
  fire_all (ts1 ++ ts2) w = fire_all ts2 w1.
Proof.
  revert w; induction ts1 as [|t ts1 IH]; intros w; cbn.
  - now intros [= ->].
  - unfold bind. destruct (fire (action t) w) as [[[]|r] w'] eqn:E; [|discriminate].
    apply IH.
Qed.

Lemma insert_timer_split (T : Timer) (ts : list Timer) :
  exists ts1 ts2, ts = ts1 ++ ts2 /\ insert_timer T ts = ts1 ++ T :: ts2.
Proof.
  induction ts as [|u us (ts1 & ts2 & -> & E)]; cbn.
  - now exists [], [].
  - destruct (due T <? due u).
    + now exists [], (u :: ts1 ++ ts2).
    + exists (u :: ts1), ts2. now rewrite E.
Qed.

(** The timer of a read goes off while the read is pending and its pin
    is there. *)
Lemma fire_timeout (w : World) (p : nat) (pin : JsIndex) (wait : Z) (q : Pin) :
  cells w !! p = Some (ReadCell pin Pending) ->
  the_pin w pin = Some q ->
  exists w', fire (RejectAfter p wait) w = (Ok tt, w') /\
    board w' = board w /\ log w' = log w /\ timers w' = timers w /\
    cells w' = <[p := ReadCell pin (Rejected (TimeoutError wait))]> (cells w) /\
    the_pin w' pin = Some (with_updating false (with_value 0 q)).
Proof.
  intros Hc Hq. unfold fire.
  destruct (settle_read_live w p pin (Rejected (TimeoutError wait)) q Hc Hq)
    as (w' & E & Hb & Hl & Ht & _ & _ & Hcs & Hp).
  exists w'. tauto.
Qed.

(** An input update that went out: its promise, its timer, its pin. *)
Lemma read_issued (i : Input) (w w1 : World) (p : nat) :
  update i w = (Ok (Later p), w1) ->
  exists pin,
    p = length (cells w) /\ board w1 = board w /\ clock w1 = clock w /\
    timers w1 = insert_timer (mkTimer (clock w + Z.max 0 (waiting i w))
                                      (RejectAfter p (waiting i w))) (timers w) /\
    exists s q, cells w1 = cells w ++ [ReadCell pin s] /\
      the_pin w1 pin = Some q /\
      (s = Pending /\ updating q = true \/
       (exists e, s = Rejected e) /\ value q = 0 /\ updating q = false).
Proof.
  destruct w as [[st fm ext pi a1 a2 a3 a4 a5 a6] h c t ce o l].
  destruct i as [pin|analogPin]; cbn [update waiting].
  - unfold updateDigitalInput, settle_read. js.
    destruct fm as [f|]; [|norm; bad].
    destruct (h !! f) as [fo|] eqn:Hh; [|norm; bad].
    destruct (index (pins fo) pin) as [q0|] eqn:Hq; [|norm; bad].
    destruct (match mode q0 with Some _ => _ | None => _ end); [norm; bad|].
    norm.
    destruct (recent c a1 q0); [norm; bad|].
    norm.
    destruct (is_mode MODES.PULLUP (inputBias q0)); norm;
      (destruct (throws fo) eqn:Hth; norm; rewrite ?insert_last;
       intros [= <- <-]; exists pin; cbn -[lookup insert alter index alter_index];
       repeat (split; [reflexivity|]); do 2 eexists; (split; [reflexivity|]);
       unfold the_pin; norm; (split; [reflexivity|]); cbn; eauto).
  - unfold updateAnalogInput, settle_read. js.
    destruct fm as [f|]; [|norm; bad].
    destruct (h !! f) as [fo|] eqn:Hh; [|norm; bad]. norm.
    destruct (index (pins fo) (index (analogPins fo) analogPin)) as [q0|] eqn:Hq;
      [|norm; bad].
    norm.
    destruct (recent c a3 q0); [norm; bad|].
    norm.
    destruct (throws fo) eqn:Hth; norm; rewrite ?insert_last;
       intros [= <- <-]; exists (index (analogPins fo) analogPin);
       cbn -[lookup insert alter index alter_index];
       repeat (split; [reflexivity|]); do 2 eexists; (split; [reflexivity|]);
       unfold the_pin; norm; (split; [reflexivity|]); cbn; eauto.
Qed.

Lemma elapse_fires (ms : Z) (w : World) :
  handle (Elapsed ms) w =
  fire_all (List.filter (fun t => due t <=? clock w + Z.max 0 ms) (timers w))
    (with_timers
       (List.filter (fun t => negb (due t <=? clock w + Z.max 0 ms)) (timers w))
       (with_clock (clock w + Z.max 0 ms) w)).
Proof. reflexivity. Qed.

(** The waiting time goes by and no sample has come. *)
Lemma read_times_out (i : Input) (w w1 : World) (p : nat) (pin : JsIndex) (ms : Z) :
  timers_exist w ->
  update i w = (Ok (Later p), w1) ->
  cells w1 !! p = Some (ReadCell pin Pending) ->
  Z.max 0 (waiting i w) <= Z.max 0 ms ->
  cells (step (Elapsed ms) w1) !! p
    = Some (ReadCell pin (Rejected (TimeoutError (waiting i w)))) /\
  (exists q, the_pin (step (Elapsed ms) w1) pin = Some q /\
             value q = 0 /\ updating q = false) /\
  board (step (Elapsed ms) w1) = board w /\
  log (step (Elapsed ms) w1) = log w1.
Proof.
  intros Hex Hup Hcell Hms.
  destruct (read_issued i w w1 p Hup)
    as (pin0 & Hp & Hb & Hc & Ht & s & q & Hcs & Hq & _).
  assert (pin0 = pin /\ s = Pending) as [-> ->].
  { rewrite Hcs, Hp, list_lookup_middle in Hcell by reflexivity.
    now injection Hcell as -> ->. }
  set (T := mkTimer (clock w + Z.max 0 (waiting i w)) (RejectAfter p (waiting i w))) in *.
  destruct (insert_timer_split T (timers w)) as (ts1 & ts2 & Hts & Hins).
  unfold timers_exist in Hex. rewrite Hts in Hex. apply Forall_app in Hex as [Hex1 Hex2].
  assert (Hne : forall ts, Forall (fun t => (target (action t) < length (cells w))%nat) ts ->
                Forall (fun t => target (action t) <> p) ts).
  { intros ts H. eapply List.Forall_impl; [|exact H]. intros t. cbn. lia. }
  unfold step, exec. rewrite elapse_fires, Ht, Hins, Hc.
  set (now := clock w + Z.max 0 ms).
  set (due_now := fun t : Timer => due t <=? now).
  rewrite (List.filter_app due_now). cbn [List.filter].
  assert (Hdue : due_now T = true) by (apply Z.leb_le; cbn; unfold now; lia).
  rewrite Hdue.
  set (Wa := with_timers _ _).
  destruct (fire_all_frame (List.filter due_now ts1) Wa p) as (Wb & Eb & Qb & _).
  { apply Forall_filter_bool, Hne, Hex1. }
  rewrite (fire_all_app _ _ _ _ Eb). cbn [fire_all]. unfold bind.
  destruct (quiet_pin _ _ _ Qb pin q) as (qb & Hqb & _); [exact Hq|].
  destruct (fire_timeout Wb p pin (waiting i w) qb) as (Wc & Ec & Hbc & Hlc & _ & Hcc & Hqc).
  { rewrite (quiet_cell _ _ _ Qb). exact Hcell. }
  { exact Hqb. }
  cbn [action T]. rewrite Ec.
  destruct (fire_all_frame (List.filter due_now ts2) Wc p) as (Wd & Ed & Qd & _).
  { apply Forall_filter_bool, Hne, Hex2. }
  rewrite Ed. cbn [snd].
  destruct (quiet_pin _ _ _ Qd pin _ Hqc) as (qd & Hqd & Cd).
  repeat split.
  - rewrite (quiet_cell _ _ _ Qd), Hcc. apply list_lookup_insert_eq.
    apply lookup_lt_is_Some. rewrite (quiet_cell _ _ _ Qb). eauto.
  - exists qd. split; [exact Hqd|]. now apply (cleared_keeps _ _ Cd).
  - rewrite (quiet_board _ _ _ Qd), Hbc, (quiet_board _ _ _ Qb). exact Hb.
  - rewrite (quiet_log _ _ _ Qd), Hlc, (quiet_log _ _ _ Qb). reflexivity.
Qed.

(** The sample listener of a pending read runs. *)
Lemma sample_settles (w : World) (f p : nat) (fo : Firmata) (q : Pin)
    (h : Handler) (pin : JsIndex) (v : Z) :
  (h = on_digital_read pin p \/ exists analogPin, h = on_analog_read analogPin pin p) ->
  firmata (board w) = Some f ->
  heap w !! f = Some fo ->
  throws fo = false ->
  index (pins fo) pin = Some q ->
  cells w !! p = Some (ReadCell pin Pending) ->
  exists w', run_handler f h v w = (Ok tt, w') /\
    board w' = board w /\ clock w' = clock w /\ timers w' = timers w /\
    cells w' = <[p := ReadCell pin (Resolved v)]> (cells w) /\
    the_pin w' pin =
      Some (with_updating false (with_updateTime (clock w) (with_value v q))) /\
    exists c, log w' = log w ++ [Sent f c] /\
              forall pin', is_request pin' (Sent f c) = false.
Proof.
  destruct w as [[st fm ext pi a1 a2 a3 a4 a5 a6] hp c t ce o l].
  cbn -[lookup]. intros Hh -> Hf Hth Hq Hc.
  destruct Hh as [->|[analogPin ->]];
    unfold run_handler, settle_read; js; norm;
    eexists; (split; [reflexivity|]); norm;
    repeat (split; [reflexivity|]);
    eexists; (split; [reflexivity|]); intros pin'; cbn;
    rewrite ?andb_false_r; reflexivity.
Qed.

(** An input update (digital or analog) that sent its request ends with
    [updating] false, however it ends, on a board that still has the
    pin when the read ends.
    - The waiting time goes by without a sample: the promise is rejected
      with the timeout error, the pin's value is 0, its [updating] is
      false, the board's fields are what they were and nothing was
      emitted or sent. The same holds whenever the timer goes off in a
      later world where the read is still pending and the pin is there.
    - The sample arrives: the promise is resolved with it and [updating]
      is false.
    - The request could not be sent: the promise is rejected and the pin
      has value 0 and [updating] false as the call returns. *)
Theorem read_timeout_resets_and_clears (i : Input) (w w1 : World) (p : nat) :
  timers_exist w ->
  update i w = (Ok (Later p), w1) ->
  exists (pin : JsIndex) (s : Settled Z),
    cells w1 !! p = Some (ReadCell pin s) /\
    match s with
    | Pending =>
        (forall ms : Z,
           Z.max 0 (waiting i w) <= Z.max 0 ms ->
           cells (step (Elapsed ms) w1) !! p
             = Some (ReadCell pin (Rejected (TimeoutError (waiting i w)))) /\
           (exists q, the_pin (step (Elapsed ms) w1) pin = Some q /\
                      value q = 0 /\ updating q = false) /\
           board (step (Elapsed ms) w1) = board w /\
           log (step (Elapsed ms) w1) = log w1) /\
        (forall (w2 : World) (q : Pin),
           cells w2 !! p = Some (ReadCell pin Pending) ->
           the_pin w2 pin = Some q ->
           cells (exec (fire (RejectAfter p (waiting i w))) w2) !! p
             = Some (ReadCell pin (Rejected (TimeoutError (waiting i w)))) /\
           the_pin (exec (fire (RejectAfter p (waiting i w))) w2) pin
             = Some (with_updating false (with_value 0 q)) /\
           board (exec (fire (RejectAfter p (waiting i w))) w2) = board w2 /\
           log (exec (fire (RejectAfter p (waiting i w))) w2) = log w2) /\
        (forall (w2 : World) (f : nat) (fo : Firmata) (q : Pin) (v : Z),
           firmata (board w2) = Some f ->
           heap w2 !! f = Some fo ->
           throws fo = false ->
           index (pins fo) pin = Some q ->
           cells w2 !! p = Some (ReadCell pin Pending) ->
           cells (exec (run_handler f (listener i pin p) v) w2) !! p
             = Some (ReadCell pin (Resolved v)) /\
           exists q', the_pin (exec (run_handler f (listener i pin p) v) w2) pin
                        = Some q' /\
                      value q' = v /\ updating q' = false /\
                      board (exec (run_handler f (listener i pin p) v) w2) = board w2)
    | Rejected _ =>
        exists q, the_pin w1 pin = Some q /\ value q = 0 /\ updating q = false
    | Resolved _ => False
    end.
Proof.
  intros Hex Hup.
  destruct (read_issued i w w1 p Hup)
    as (pin & Hp & Hb & Hc & Ht & s & q & Hcs & Hq & Hs).
  assert (Hcell : cells w1 !! p = Some (ReadCell pin s))
    by (rewrite Hcs, Hp; now apply list_lookup_middle).
  exists pin, s. split; [exact Hcell|].
  destruct Hs as [[-> Hu]|[[e ->] [Hv Hu]]]; [|now exists q].
  split; [|split].
  - intros ms Hms. now apply read_times_out.
  - intros w2 q2 Hc2 Hq2.
    destruct (fire_timeout w2 p pin (waiting i w) q2 Hc2 Hq2)
      as (w3 & E & Hb3 & Hl3 & _ & Hc3 & Hq3).
    unfold exec. rewrite E. cbn [snd]. repeat split; try assumption.
    rewrite Hc3. apply list_lookup_insert_eq. apply lookup_lt_is_Some. eauto.
  - intros w2 f fo q2 v Hf Hh Hth Hq2 Hc2.
    destruct (sample_settles w2 f p fo q2 (listener i pin p) pin v)
      as (w3 & E & Hb3 & _ & _ & Hc3 & Hq3 & _); try assumption.
    { destruct i; cbn; eauto. }
    unfold exec. rewrite E. cbn [snd]. split.
    + rewrite Hc3. apply list_lookup_insert_eq. apply lookup_lt_is_Some. eauto.
    + eexists. split; [exact Hq3|]. now cbn.
Qed.

Lemma read_timeout_witness :
  (timers_exist ready_world /\
   update (Digital (Some 1)) ready_world = (Ok (Later 1%nat), reading_world)) /\
  cells (step (Elapsed 100) reading_world) !! 1%nat
    = Some (ReadCell (Some 1) (Rejected (TimeoutError 100))) /\
  board (step (Elapsed 100) reading_world) = board ready_world.
Proof.
  assert (H1 : timers_exist ready_world) by (unfold timers_exist; vm_compute; constructor).
  assert (H2 : update (Digital (Some 1)) ready_world = (Ok (Later 1%nat), reading_world))
    by (vm_compute; reflexivity).
  split; [split; assumption|].
  destruct (read_timeout_resets_and_clears (Digital (Some 1)) ready_world
              reading_world 1 H1 H2) as (pin & s & Hcell & Hs).
  assert (E : Some (ReadCell pin s) = Some (ReadCell (Some 1) Pending))
    by (rewrite <- Hcell; vm_compute; reflexivity).
  injection E as -> ->.
  destruct Hs as (Htimeout & _ & _).
  destruct (Htimeout 100) as (Hc & _ & Hb & _); [vm_compute; discriminate|].
  split; assumption.
Defined.

(** C4, where the code leaves the claim: a digital read of pin 1 is in
    flight when the port closes, so that the board is released and holds
    no instance. When the waiting time has gone by, the [catch] and the
    [finally] of the read go through [this.pins] of a board without an
    instance: the promise is rejected with a TypeError, not with the
    timeout error, and the pin of the instance the read was made on is
    still marked as updating. It is the same when [disconnect ()] is
    called where the port closed, and the same for an analog read. *)
Theorem read_after_release_fails_with_TypeError :
  (update (Digital (Some 1)) ready_world = (Ok (Later 1%nat), reading_world) /\
   cells (run [Elapsed 5; Emitted 0 E_close 0] reading_world) !! 1%nat
     = Some (ReadCell (Some 1) Pending) /\
   firmata (board unplugged_world) = None /\
   cells unplugged_world !! 1%nat = Some (ReadCell (Some 1) (Rejected TypeError)) /\
   exists (fo : Firmata) (q : Pin),
     heap unplugged_world !! 0%nat = Some fo /\ pins fo !! 1%nat = Some q /\
     updating q = true) /\
  (firmata (board disconnected_world) = None /\
   cells disconnected_world !! 1%nat = Some (ReadCell (Some 1) (Rejected TypeError)) /\
   exists (fo : Firmata) (q : Pin),
     heap disconnected_world !! 0%nat = Some fo /\ pins fo !! 1%nat = Some q /\
     updating q = true) /\
  (fst (update (Analog (Some 0)) ready_world) = Ok (Later 1%nat) /\
   firmata (board unplugged_analog_world) = None /\
   cells unplugged_analog_world !! 1%nat
     = Some (ReadCell (Some 2) (Rejected TypeError)) /\
   exists (fo : Firmata) (q : Pin),
     heap unplugged_analog_world !! 0%nat = Some fo /\ pins fo !! 2%nat = Some q /\
     updating q = true).
Proof.
  split; [|split].
  - split; [vm_compute; reflexivity|]. split; [vm_compute; reflexivity|].
    split; [vm_compute; reflexivity|]. split; [vm_compute; reflexivity|].
    do 2 eexists. split; [vm_compute; reflexivity|]. split; reflexivity.
  - split; [vm_compute; reflexivity|]. split; [vm_compute; reflexivity|].
    do 2 eexists. split; [vm_compute; reflexivity|]. split; reflexivity.
  - split; [vm_compute; reflexivity|].
    split; [vm_compute; reflexivity|]. split; [vm_compute; reflexivity|].
    do 2 eexists. split; [vm_compute; reflexivity|]. split; reflexivity.
Qed.


(** The cached value is handed back and nothing else happens. *)
Lemma cached_read (w : World) (pin : JsIndex) (q : Pin) :
  the_pin w pin = Some q ->
  updating q = true \/
  (exists t, updateTime q = Some t /\ t <> 0 /\
             clock w - t < digitalReadInterval (board w)) ->
  updateDigitalInput pin w = (Ok (Now (Resolved (value q))), w).
Proof.
  intros Hq Hr.
  assert (R : recent (clock w) (digitalReadInterval (board w)) q = true).
  { unfold recent. destruct Hr as [->|(t & -> & Ht & Hlt)]; [reflexivity|].
    cbn. apply orb_true_iff. right. apply andb_true_iff. split.
    - apply negb_true_iff. now apply Z.eqb_neq.
    - now apply Z.ltb_lt. }
  unfold updateDigitalInput, bind, this_pin, gets, ret. rewrite Hq.
  destruct (match mode q with Some _ => _ | None => _ end); [reflexivity|].
  now rewrite R.
Qed.








End Reads.

(** ** What can reject a connect promise *)

Section Standing.

Import Board Spec.

Context {A B : Type}.

Lemma leaves_pure (p : nat) (c : M A) :
  (forall w, snd (c w) = w) -> leaves p c.
Proof. intros H w Hs. now rewrite H. Qed.

Lemma leaves_bind (p : nat) (c : M A) (k : A -> M B) :
  leaves p c -> (forall a, leaves p (k a)) -> leaves p (bind c k).
Proof.
  intros Hc Hk w Hs. unfold bind. specialize (Hc w Hs).
  destruct (c w) as [[a|r] w1]; cbn in *; [|exact Hc].
  now apply Hk.
Qed.

Lemma leaves_attempt (p : nat) (c : M A) : leaves p c -> leaves p (attempt c).
Proof. intros Hc w Hs. unfold attempt. specialize (Hc w Hs). now destruct (c w). Qed.

Lemma leaves_new_cell (p : nat) (c : Cell) (k : nat -> M B) :
  (forall q, leaves p (k q)) -> leaves p (bind (new_cell c) k).
Proof.
  intros Hk w Hs. unfold bind, new_cell. apply Hk.
  unfold standing in *. cbn -[lookup].
  destruct Hs as [Hs|Hs]; [left|right];
    (rewrite lookup_app_l; [exact Hs|]); apply lookup_lt_is_Some; eauto.
Qed.

End Standing.

Section Rejecting.

Import Board Spec.

Lemma leaves_modify (p : nat) (f : World -> World) :
  (forall w, cells (f w) = cells w) -> leaves p (modify f).
Proof. intros H w Hs. unfold standing in *. cbn. now rewrite H. Qed.

Lemma leaves_set_cell_ne (p q : nat) (c : Cell) :
  q <> p -> leaves p (set_cell q c).
Proof.
  intros Hne w Hs. unfold standing in *. cbn -[lookup insert].
  now rewrite list_lookup_insert_ne.
Qed.

Create HintDb leaves discriminated.

Ltac leaves_step :=
  match goal with
  | |- leaves _ (bind (new_cell _) _) => apply leaves_new_cell; intros ?
  | |- leaves _ (bind _ _) => apply leaves_bind; [|intros ?]
  | |- leaves _ (ret _) => apply leaves_pure; reflexivity
  | |- leaves _ (throw _) => apply leaves_pure; reflexivity
  | |- leaves _ (gets _) => apply leaves_pure; reflexivity
  | |- leaves _ this_firmata =>
      apply leaves_pure; intros w; unfold this_firmata;
      now destruct (firmata (board w))
  | |- leaves _ (lookup_firmata _) =>
      apply leaves_pure; intros w; unfold lookup_firmata;
      now destruct (heap w !! _)
  | |- leaves _ (this_pin _) =>
      apply leaves_pure; intros w; unfold this_pin;
      now destruct (the_pin w _)
  | |- leaves _ (holds _) => apply leaves_pure; reflexivity
  | |- leaves _ (modify _) => apply leaves_modify; reflexivity
  | |- leaves _ (alter_firmata _ _) => apply leaves_modify; reflexivity
  | |- leaves _ (emit _) => apply leaves_modify; reflexivity
  | |- leaves _ (once _ _) => apply leaves_modify; reflexivity
  | |- leaves _ (landed _) => apply leaves_modify; reflexivity
  | |- leaves _ (setTimeout _ _) => apply leaves_modify; reflexivity
  | |- leaves _ (attempt _) => apply leaves_attempt
  | |- leaves _ (if ?b then _ else _) => destruct b
  | |- leaves _ (match ?x with _ => _ end) => destruct x
  | |- leaves _ _ => solve [auto with leaves]
  end.

Ltac leaves_all := repeat leaves_step.

Lemma leaves_send (p : nat) (c : Command) : leaves p (send c).
Proof. unfold send. leaves_all. Qed.
#[local] Hint Resolve leaves_send : leaves.

Lemma leaves_set_this_pin p pin g : leaves p (set_this_pin pin g).
Proof. unfold set_this_pin. leaves_all. Qed.
#[local] Hint Resolve leaves_set_this_pin : leaves.

(** A promise that settles as a read or as a write is not [p]. *)
Lemma leaves_settle_read p q o : leaves p (settle_read q o).
Proof.
  intros w Hs. unfold settle_read at 1. unfold bind at 1, gets.
  destruct (cells w !! q) as [[s|pin [| |]|s]|] eqn:Hq; try exact Hs.
  assert (Hne : q <> p).
  { intros ->. destruct Hs as [Hs|Hs]; rewrite Hs in Hq; discriminate. }
  revert w Hs Hq. change (leaves p ?c) with (leaves p c).
  intros w Hs _. revert w Hs.
  change (leaves p
    (bind (match o with
           | Rejected reason =>
               bind (attempt (set_this_pin pin (with_value 0)))
                 (fun r => ret (match r with
                                | Ok _ => Rejected reason
                                | Throw e => Rejected e
                                end))
           | _ => ret o
           end)
       (fun o1 => bind (attempt (set_this_pin pin (with_updating false)))
          (fun r => set_cell q (ReadCell pin (match r with
                                              | Ok _ => o1
                                              | Throw e => Rejected e
                                              end)))))).
  pose proof (leaves_set_cell_ne p q) as Hset.
  leaves_all; now apply Hset.
Qed.
#[local] Hint Resolve leaves_settle_read : leaves.

Lemma leaves_settle_sent p q o : leaves p (settle_sent q o).
Proof.
  intros w Hs. unfold settle_sent, bind, gets.
  destruct (cells w !! q) as [[s|pin s|[| |]]|] eqn:Hq; try exact Hs.
  assert (Hne : q <> p).
  { intros ->. destruct Hs as [Hs|Hs]; rewrite Hs in Hq; discriminate. }
  now apply leaves_set_cell_ne.
Qed.
#[local] Hint Resolve leaves_settle_sent : leaves.

Lemma leaves_resolve_connect p q : leaves p (resolve_connect q).
Proof.
  intros w Hs. unfold resolve_connect, bind, gets.
  destruct (cells w !! q) as [[[| |]|pin s|s]|] eqn:Hq; try exact Hs.
  destruct (Nat.eq_dec q p) as [->|Hne]; [|now apply leaves_set_cell_ne].
  right. cbn -[lookup insert]. apply list_lookup_insert_eq.
  apply lookup_lt_is_Some. eauto.
Qed.
#[local] Hint Resolve leaves_resolve_connect : leaves.

Lemma leaves_releaseBoard p : leaves p releaseBoard.
Proof. unfold releaseBoard. leaves_all. Qed.
#[local] Hint Resolve leaves_releaseBoard : leaves.

Lemma leaves_disconnect p : leaves p disconnect.
Proof. unfold disconnect. leaves_all. Qed.
#[local] Hint Resolve leaves_disconnect : leaves.

Lemma leaves_handleDisconnectError p : leaves p handleDisconnectError.
Proof. unfold handleDisconnectError. leaves_all. Qed.
#[local] Hint Resolve leaves_handleDisconnectError : leaves.

Lemma leaves_reject_connect p q reason : q <> p -> leaves p (reject_connect q reason).
Proof.
  intros Hne. pose proof (leaves_set_cell_ne p q) as Hset.
  unfold reject_connect. leaves_all; now apply Hset.
Qed.

Lemma leaves_paced p (c : M unit) : leaves p c -> leaves p (paced c).
Proof. intros H. unfold paced. leaves_all. Qed.

Lemma leaves_fire_all p ts : leaves p (fire_all ts).
Proof. induction ts; cbn [fire_all]; unfold fire; leaves_all. Qed.
#[local] Hint Resolve leaves_fire_all : leaves.

Lemma leaves_run_handlers p f hs v : leaves p (run_handlers f hs v).
Proof.
  induction hs; cbn [run_handlers]; unfold run_handler, onBoarReady; leaves_all.
Qed.
#[local] Hint Resolve leaves_run_handlers : leaves.

Lemma leaves_handle p e :
  fails_open p (Outside e) = false -> leaves p (handle e).
Proof.
  destruct e; cbn [handle fails_open]; intros Hf.
  - unfold port_opened, setupFirmata. leaves_all.
  - leaves_step; [leaves_all|]. leaves_step; [|leaves_all].
    leaves_step; [leaves_all|]. apply leaves_reject_connect.
    intros ->. now rewrite Nat.eqb_refl in Hf.
  - unfold deliver. leaves_all.
  - unfold elapse. leaves_all.
  - leaves_all.
Qed.

Lemma leaves_invoke p c : leaves p (invoke c).
Proof.
  destruct c; cbn [invoke]; try (leaves_all; fail).
  - unfold connectSerial. leaves_all.
  - destruct i; cbn [update]; unfold updateDigitalInput, updateAnalogInput; leaves_all.
  - unfold setInputBias. leaves_step; [|leaves_all].
    leaves_step; [leaves_all|]. apply leaves_paced. unfold pinMode. leaves_all.
  - unfold pinMode. leaves_all.
  - leaves_step; [apply leaves_paced; leaves_all|leaves_all].
  - leaves_step; [apply leaves_paced; leaves_all|leaves_all].
  - leaves_step; [apply leaves_paced; leaves_all|leaves_all].
Qed.

(** Whatever is done to the board and whatever happens to it, a connect
    promise is rejected by nothing but the failure of its open request. *)
Lemma standing_through (p : nat) (acts : list Action) (w : World) :
  standing p w ->
  existsb (fails_open p) acts = false ->
  standing p (fold_left (fun w a => perform a w) acts w).
Proof.
  revert w; induction acts as [|a acts IH]; intros w Hs Hf; [exact Hs|].
  cbn in Hf. apply orb_false_iff in Hf as [Ha Hacts].
  cbn [fold_left]. apply IH; [|exact Hacts].
  destruct a as [e|c]; cbn [perform].
  - now apply leaves_handle.
  - now apply leaves_invoke.
Qed.

End Rejecting.

(** ** Connecting *)

Section Connect.

Import Board Spec.

Lemma elapse_quiet (ms : Z) (w : World) (p : nat) :
  Forall (fun t => target (action t) <> p) (timers w) ->
  quiet p w (step (Elapsed ms) w) /\
  Forall (fun t => target (action t) <> p) (timers (step (Elapsed ms) w)).
Proof.
  intros H. unfold step, exec. rewrite elapse_fires.
  set (wa := with_timers _ _).
  destruct (fire_all_frame
              (List.filter (fun t => due t <=? clock w + Z.max 0 ms) (timers w)) wa p)
    as (wb & E & Q & T); [now apply Forall_filter_bool|].
  rewrite E. cbn [snd]. split.
  - eapply quiet_trans; [|exact Q]. split; try reflexivity.
    intros pin q Hq. exists q. split; [exact Hq|constructor].
  - rewrite T. subst wa. cbn. now apply Forall_filter_bool.
Qed.

(** Time going by leaves a promise that no timer is set on alone. *)
Lemma run_elapsed_quiet (ds : list Z) (w : World) (p : nat) :
  Forall (fun t => target (action t) <> p) (timers w) ->
  quiet p w (run (map Elapsed ds) w).
Proof.
  revert w; induction ds as [|d ds IH]; intros w H; [apply quiet_refl|].
  cbn [map run fold_left]. fold (run (map Elapsed ds) (step (Elapsed d) w)).
  destruct (elapse_quiet d w p H) as [Q H'].
  eapply quiet_trans; [exact Q|]. now apply IH.
Qed.

Lemma in_flight_last (p : nat) (os : list nat) :
  existsb (Nat.eqb p) (os ++ [p]) = true.
Proof.
  rewrite existsb_app. cbn. rewrite Nat.eqb_refl. now rewrite orb_true_r.
Qed.

(** C1, as the code has it: [connectSerial] on a board that holds no
    instance moves to 'portRequesting' and returns a pending promise.
    The promise is rejected when the open request is rejected, with that
    reason and after [releaseBoard] (state 'disconnect', no instance,
    RELEASED emitted). No deadline is set: once the port is open, however
    much time goes by without "ready", and whatever other timers go off
    meanwhile, the promise stays pending and the board keeps the
    instance. Nothing else rejects it either: through any sequence of
    calls on the board and of things that happen to it, as long as its
    open request does not fail, it is pending or resolved. (Every timer
    is taken to belong to a promise that exists, as it does in every
    world the board gets into.) *)
Theorem connect_fails_only_with_the_open (w : World) :
  firmata (board w) = None ->
  timers_exist w ->
  let p := length (cells w) in
  let w1 := exec connectSerial w in
  fst (connectSerial w) = Ok (Later p) /\
  state (board w1) = S_portRequesting /\
  (forall reason : Reason,
     let w2 := step (PortFailed p reason) w1 in
     cells w2 !! p = Some (ConnectCell (Rejected reason)) /\
     state (board w2) = S_disconnect /\
     firmata (board w2) = None /\
     log w2 = log w ++ [Emit_RELEASED]) /\
  (forall (info : PortInfo) (ds : list Z),
     let w2 := step (PortOpened p info) w1 in
     let w3 := run (map Elapsed ds) w2 in
     cells w3 !! p = Some (ConnectCell Pending) /\
     board w3 = board w2 /\
     state (board w3) = S_portRequesting /\
     firmata (board w3) = Some (length (heap w)) /\
     log w3 = log w) /\
  (forall acts : list Action,
     existsb (fails_open p) acts = false ->
     standing p (fold_left (fun w a => perform a w) acts w1)).
Proof.
  intros Hf Ht p w1. subst p w1.
  destruct w as [[st fm ext pi a1 a2 a3 a4 a5 a6] h c t ce o l].
  cbn in Hf. subst fm. unfold timers_exist in Ht. cbn in Ht.
  unfold connectSerial. js. split; [reflexivity|]. split; [reflexivity|].
  split; [|split].
  - intros reason. unfold step, handle, in_flight. js. rewrite in_flight_last.
    unfold landed, reject_connect, releaseBoard. js.
    rewrite list_lookup_middle by reflexivity. js. repeat split.
    apply list_lookup_insert_eq. rewrite length_app. cbn. lia.
  - intros info ds.
    set (w2 := step (PortOpened (length ce) info) _).
    assert (E2 : timers w2 = t /\ cells w2 !! length ce = Some (ConnectCell Pending) /\
                 state (board w2) = S_portRequesting /\
                 firmata (board w2) = Some (length h) /\ log w2 = l).
    { subst w2. unfold step, handle, in_flight. js. rewrite in_flight_last.
      unfold port_opened, landed, setupFirmata. js. repeat split.
      now apply list_lookup_middle. }
    destruct E2 as (Et & Ec & Es & Ef & El).
    destruct (run_elapsed_quiet ds w2 (length ce)) as [Qb Ql Qc _ _].
    { rewrite Et. eapply List.Forall_impl; [|exact Ht]. intros x. cbn. lia. }
    rewrite Qc, Qb, Ql. repeat split; assumption.
  - intros acts Hacts. apply standing_through; [|exact Hacts].
    left. cbn -[lookup]. now apply list_lookup_middle.
Qed.

Lemma connect_fails_only_with_the_open_witness :
  (firmata (board (new_World 0)) = None /\ timers_exist (new_World 0)) /\
  fst (connectSerial (new_World 0)) = Ok (Later 0%nat) /\
  cells (run (map Elapsed [600; 600])
           (step (PortOpened 0 a_port) (exec connectSerial (new_World 0)))) !! 0%nat
    = Some (ConnectCell Pending).
Proof.
  assert (H1 : firmata (board (new_World 0)) = None) by reflexivity.
  assert (H2 : timers_exist (new_World 0)) by constructor.
  split; [split; assumption|].
  destruct (connect_fails_only_with_the_open (new_World 0) H1 H2)
    as (Hp & _ & _ & Hopen & _).
  split; [exact Hp|].
  exact (proj1 (Hopen a_port [600; 600])).
Defined.

(** C1 as the specification states it fails: the port is open, "ready"
    has not come, five times the connecting waiting time has gone by,
    and the call has neither failed nor been released. *)
Lemma connect_has_no_deadline :
  connectingWaitingTime (board waited_world) = 1000 /\
  clock waited_world = 1700000000000 + 5000 /\
  ~ failed_and_released 0 waited_world.
Proof.
  split; [reflexivity|]. split; [reflexivity|].
  intros (_ & H & _). vm_compute in H. discriminate.
Qed.

End Connect.

(** ** The registry *)

Section Registry.

Import Connector.

Lemma indexOf_lookup (b : nat) (bs : list nat) (i : nat) :
  indexOf b bs = Some i -> bs !! i = Some b.
Proof.
  revert i; induction bs as [|x bs IH]; intros i; cbn; [discriminate|].
  destruct (Nat.eqb_spec x b) as [->|_].
  - now intros [= <-].
  - destruct (indexOf b bs) as [j|]; cbn; [|discriminate].
    intros [= <-]. now apply IH.
Qed.

Lemma indexOf_None (b : nat) (bs : list nat) :
  indexOf b bs = None <-> ~ In b bs.
Proof.
  induction bs as [|x bs IH]; cbn; [tauto|].
  destruct (Nat.eqb_spec x b) as [->|Hne].
  - split; [discriminate|tauto].
  - destruct (indexOf b bs) as [j|]; cbn.
    + split; [discriminate|]. intros H. exfalso. apply H. right.
      destruct IH as [_ IH]. destruct (in_dec Nat.eq_dec b bs); [assumption|].
      now specialize (IH n).
    + split; [|reflexivity]. intros _ [H|H]; [congruence|]. now apply IH.
Qed.

(** [addBoard] inserts at the end and emits BOARD_ADDED. *)
Lemma addBoard_adds (b : nat) (c : State) :
  boards (addBoard b c) = boards c ++ [b] /\
  emitted (addBoard b c) = emitted c ++ [Emit BOARD_ADDED b].
Proof. split; reflexivity. Qed.

(** [removeBoard] of a board that is not there does nothing. *)
Lemma removeBoard_absent (b : nat) (c : State) :
  ~ In b (boards c) -> removeBoard b c = c.
Proof. intros H. unfold removeBoard. now apply indexOf_None in H as ->. Qed.

(** [removeBoard] of a board that is there takes its first occurrence
    out, and emits BOARD_ADDED. *)
Lemma removeBoard_present (b : nat) (c : State) :
  In b (boards c) ->
  exists i, boards c !! i = Some b /\
    boards (removeBoard b c) = delete i (boards c) /\
    emitted (removeBoard b c) = emitted c ++ [Emit BOARD_ADDED b].
Proof.
  intros H. unfold removeBoard.
  destruct (indexOf b (boards c)) as [i|] eqn:E.
  - exists i. split; [now apply indexOf_lookup|]. split; reflexivity.
  - apply indexOf_None in E. contradiction.
Qed.

(** C6, what the code does: a board is added to an empty registry and
    removed again. The removal takes it out of the collection, and what
    it emits is a second BOARD_ADDED: there is no BOARD_REMOVED. *)
Theorem removeBoard_emits_BOARD_ADDED (b : nat) (serial : bool) (t : Z) :
  let c := removeBoard b (addBoard b (new_State serial t)) in
  boards c = [] /\
  emitted c = [Emit BOARD_ADDED b; Emit BOARD_ADDED b] /\
  ~ In (Emit BOARD_REMOVED b) (emitted c).
Proof.
  unfold removeBoard, addBoard, new_State. cbn -[Nat.eqb].
  rewrite Nat.eqb_refl. cbn. repeat split.
  intros [H|[H|[]]]; discriminate H.
Qed.

(** C7: when [findBoard ()] finds a board, [connectedBoard] resolves at
    once with that very board and the connector and all its boards are
    as before: no board is constructed, no port is requested. So after a
    first [connectedBoard] has brought board 0 to ready, a second one,
    for whatever extension, resolves with board 0. *)
Theorem connectedBoard_shares_the_board (extensionId : string) :
  (forall (c : State) (b : nat),
     findBoard None c = Ok (Some b) ->
     connectedBoard extensionId c = (Now (Resolved b), c)) /\
  (forall (t : Z) (info : Board.PortInfo),
     let c1 := snd (connectedBoard "ext-A" (new_State true t)) in
     let c2 := run [At 0 (Board.PortOpened 0 info);
                    At 0 (Board.Emitted 0 Board.E_open 0);
                    At 0 (Board.Emitted 0 Board.E_ready 0)] c1 in
     fst (connectedBoard "ext-A" (new_State true t)) = Later 0%nat /\
     length (store c1) = 1%nat /\
     boards c2 = [0%nat] /\
     (Board.isReady <$> store c2 !! 0%nat) = Some true /\
     connectedBoard extensionId c2 = (Now (Resolved 0%nat), c2)).
Proof.
  split.
  - intros c b H. unfold connectedBoard. now rewrite H.
  - intros t info. vm_compute. repeat split.
Qed.

Lemma connectedBoard_shares_witness :
  findBoard None (addBoard 7 (new_State true 0)) = Ok (Some 7%nat) /\
  connectedBoard "ext-B" (addBoard 7 (new_State true 0))
    = (Now (Resolved 7%nat), addBoard 7 (new_State true 0)).
Proof.
  assert (H : findBoard None (addBoard 7 (new_State true 0)) = Ok (Some 7%nat))
    by reflexivity.
  split; [exact H|].
  exact (proj1 (connectedBoard_shares_the_board "ext-B") _ _ H).
Defined.

End Registry.

(** ** The blocks *)

Section BlockProofs.

Import Blocks BlockSpec.

Variable Cast_toNumber : JsValue -> Q.
Variable Cast_toBoolean : JsValue -> bool.
Variable parseInt : JsValue -> JsIndex.

Local Abbreviation call := (Blocks.call Cast_toNumber Cast_toBoolean parseInt).
Local Abbreviation servoTurn := (Blocks.servoTurn Cast_toNumber parseInt).

(** C8: a block called while the board is not ready answers "not
    connected" (false from the digital read, 0 from the analog reads)
    and a block called with the empty string for [PIN] answers "pin not
    assigned" (false from the digital read), unless the board is not
    ready, where it answers as above. Either way nothing is raised and
    the board is not touched. *)
Theorem guarded_blocks_answer_neutrally (op : Opcode) (args : Args) (b : Blocks) :
  (isConnected b = false -> call op args b = (not_connected op, b)) /\
  (takes_PIN op = true -> PIN args = VStr EmptyString ->
   call op args b =
     (if isConnected b then not_assigned op else not_connected op, b)).
Proof.
  split.
  - intros H. destruct op; cbn;
      unfold a, getAnalogLevel, getDigitalLevel, setInputBias, setDigitalLevel,
        setAnalogLevel, setPinValuePwm, Blocks.servoTurn; now rewrite H.
  - intros Hp Hpin. destruct op; try discriminate Hp; cbn;
      unfold getDigitalLevel, setInputBias, setDigitalLevel,
        setAnalogLevel, setPinValuePwm, Blocks.servoTurn;
      rewrite Hpin; now destruct (isConnected b).
Qed.

Lemma Math_round_range (x : Q) (lo hi : Z) :
  (inject_Z lo <= x)%Q -> (x <= inject_Z hi)%Q -> lo <= Math_round x <= hi.
Proof.
  intros Hlo Hhi. unfold Math_round. split.
  - rewrite <- (Qfloor_Z lo). apply Qfloor_resp_le.
    rewrite <- (Qplus_0_r (inject_Z lo)). apply Qplus_le_compat; [assumption|]. easy.
  - assert (H : (x + (1 # 2) <= inject_Z hi + (1 # 2))%Q)
      by (apply Qplus_le_compat; [assumption|apply Qle_refl]).
    apply Qfloor_resp_le in H. etransitivity; [exact H|].
    assert (E : (Qfloor (inject_Z hi + (1 # 2)) < hi + 1)).
    { rewrite Zlt_Qlt. eapply Qle_lt_trans; [apply Qfloor_le|].
      rewrite inject_Z_plus. apply Qplus_lt_r. reflexivity. }
    lia.
Qed.

Lemma analogLevel_range (raw : Z) :
  0 <= raw <= 1023 -> (0 <= analogLevel raw /\ analogLevel raw <= 100)%Q.
Proof.
  intros [H0 H1]. unfold analogLevel.
  assert (R : 0 <= Math_round (inject_Z raw / 1023 * 1000) <= 1000).
  { apply Math_round_range.
    - unfold Qle, Qdiv, Qmult, Qinv, inject_Z; cbn;
      rewrite ?Pos.mul_1_l, ?Pos.mul_1_r; lia.
    - unfold Qle, Qdiv, Qmult, Qinv, inject_Z; cbn;
      rewrite ?Pos.mul_1_l, ?Pos.mul_1_r; lia. }
  revert R. generalize (Math_round (inject_Z raw / 1023 * 1000)) as k.
  intros k [R0 R1].
  unfold Qle, Qdiv, Qmult, Qinv, inject_Z; cbn;
      rewrite ?Pos.mul_1_l, ?Pos.mul_1_r; lia.
Qed.

(** C9: on a ready board, what [getAnalogLevel] returns settles as the
    board's [updateAnalogInput] does, through its callbacks: a sample
    [raw] gives [Math.round((raw / 1023) * 1000) / 10], a number of
    tenths that lies between 0 and 100 when [raw] lies between 0 and
    1023, and a rejection gives 0. *)
Theorem analog_level_is_a_percentage
    (analogPin : JsIndex) (b : Blocks) (w : Board.World) :
  board b = Some w ->
  isConnected b = true ->
  (forall raw : Z,
     callbacks then_analogLevel (Resolved raw) =
       Resolved (VNum (inject_Z (Qfloor (inject_Z raw / 1023 * 1000 + (1 # 2))) / 10)) /\
     (0 <= raw <= 1023 -> (0 <= analogLevel raw /\ analogLevel raw <= 100)%Q)) /\
  (forall reason : Reason,
     callbacks then_analogLevel (Rejected reason) = Resolved (VNum 0)) /\
  (forall (r : Promise Z) (w1 : Board.World),
     Board.updateAnalogInput analogPin w = (Ok r, w1) ->
     exists o, getAnalogLevel analogPin b = (o, mkBlocks (Some w1)) /\
       forall w2 : Board.World,
         settled o (mkBlocks (Some w2)) = callbacks then_analogLevel (read_state r w2)).
Proof.
  intros Hb Hc. split; [|split].
  - intros raw. split; [reflexivity|apply analogLevel_range].
  - reflexivity.
  - intros r w1 Hr. unfold getAnalogLevel, on_board. rewrite Hc, Hb, Hr. cbn.
    eexists; split; [reflexivity|]. intros w2.
    destruct r as [s|p]; cbn; [reflexivity|].
    destruct (Board.cells w2 !! p) as [[s|pin s|s]|]; reflexivity.
Qed.

Lemma is_empty_false (x : JsValue) : x <> VStr EmptyString -> is_empty x = false.
Proof. destruct x as [|?|?|[|? ?]]; cbn; congruence. Qed.

(** C10: the value [servoTurn] writes is
    [Math.min(180, Math.max(0, 90 - angle))], which lies between 0 and
    180 whatever the angle. Every servo write the block sends carries
    that value, and on a ready board with a pin assigned and a working
    instance it sends the mode SERVO and then that write. *)
Theorem servo_value_is_clamped (args : Args) (b : Blocks) :
  let x := Qmin 180 (Qmax 0 (90 - Cast_toNumber (ANGLE args))) in
  (0 <= x /\ x <= 180)%Q /\
  forall (w : Board.World) (o : Outcome) (b1 : Blocks),
    board b = Some w ->
    servoTurn args b = (o, b1) ->
    exists (w1 : Board.World) (l : list Board.Effect),
      board b1 = Some w1 /\ Board.log w1 = Board.log w ++ l /\
      (forall f pin y, In (Board.Sent f (Board.c_servoWrite pin y)) l -> y = x) /\
      (isConnected b = true -> PIN args <> VStr EmptyString ->
       forall f fo,
         Board.firmata (Board.board w) = Some f ->
         Board.heap w !! f = Some fo ->
         Board.throws fo = false ->
         l = [Board.Sent f (Board.c_pinMode (parseInt (PIN args)) Board.MODES.SERVO);
              Board.Sent f (Board.c_servoWrite (parseInt (PIN args)) x)]).
Proof.
  intros x. split.
  - subst x. split.
    + apply Q.min_glb; [easy|apply Q.le_max_l].
    + apply Q.le_min_l.
  - intros w o b1 Hb. unfold Blocks.servoTurn, on_board. fold x. rewrite Hb.
    assert (Hnone : exists (w1 : Board.World) (l : list Board.Effect),
      Some w = Some w1 /\ Board.log w1 = Board.log w ++ l /\
      (forall f pin y, In (Board.Sent f (Board.c_servoWrite pin y)) l -> y = x) /\
      l = []).
    { exists w, []. rewrite app_nil_r. repeat split. intros f pin y []. }
    destruct (isConnected b) eqn:Hc; cbn [negb].
    2:{ intros [= <- <-]. rewrite Hb. destruct Hnone as (w1 & l & ? & ? & ? & ?).
        exists w1, l. repeat split; try assumption. discriminate. }
    destruct (is_empty (PIN args)) eqn:He.
    { intros [= <- <-]. rewrite Hb. destruct Hnone as (w1 & l & ? & ? & ? & ?).
      exists w1, l. repeat split; try assumption. intros _ Hp.
      apply is_empty_false in Hp. congruence. }
    destruct w as [[st fm ext pi a1 a2 a3 a4 a5 a6] h c t ce oo lg].
    js.
    destruct fm as [f|]; cbn -[lookup insert Qmin Qmax Qminus].
    2:{ intros [= <- <-]. cbn. do 2 eexists. split; [reflexivity|]. cbn.
        split; [symmetry; apply app_nil_r|]. split; [intros ? ? ? []|]. discriminate. }
    destruct (h !! f) as [fo|] eqn:Hh; cbn -[lookup insert Qmin Qmax Qminus].
    2:{ intros [= <- <-]. cbn. do 2 eexists. split; [reflexivity|]. cbn.
        split; [symmetry; apply app_nil_r|]. split; [intros ? ? ? []|].
        intros _ _ f' fo' [= <-]. congruence. }
    destruct (Board.throws fo) eqn:Hth; cbn -[lookup insert Qmin Qmax Qminus].
    { intros [= <- <-]. cbn. do 2 eexists. split; [reflexivity|]. cbn.
      split; [symmetry; apply app_nil_r|]. split; [intros ? ? ? []|].
      intros _ _ f' fo' [= <-]. congruence. }
    rewrite Hh. cbn -[lookup insert Qmin Qmax Qminus]. rewrite Hth.
    cbn -[lookup insert Qmin Qmax Qminus].
    intros [= <- <-]. cbn -[lookup insert Qmin Qmax Qminus].
    do 2 eexists. split; [reflexivity|]. cbn -[lookup insert Qmin Qmax Qminus].
    split; [rewrite <- app_assoc; reflexivity|]. split.
    + intros f' pin y [H|[H|[]]]; [discriminate H|]. now injection H.
    + intros _ _ f' fo' [= <-] _ _. reflexivity.
Qed.

End BlockProofs.

Section BlockWitnesses.

Import Blocks BlockSpec.

Lemma guarded_blocks_witness :
  isConnected (mkBlocks None) = false /\
  call toNumber toBoolean toIndex op_getDigitalLevel some_args (mkBlocks None)
    = (Promised (Resolved (VBool false)), mkBlocks None).
Proof.
  assert (H : isConnected (mkBlocks None) = false) by reflexivity.
  split; [exact H|].
  exact (proj1 (guarded_blocks_answer_neutrally toNumber toBoolean toIndex
                  op_getDigitalLevel some_args (mkBlocks None)) H).
Defined.

Lemma analog_level_witness :
  (board (mkBlocks (Some Spec.ready_world)) = Some Spec.ready_world /\
   isConnected (mkBlocks (Some Spec.ready_world)) = true) /\
  callbacks then_analogLevel (Resolved 512)
    = Resolved (VNum (inject_Z (Qfloor (inject_Z 512 / 1023 * 1000 + (1 # 2))) / 10)) /\
  callbacks then_analogLevel (Rejected (TimeoutError 100)) = Resolved (VNum 0).
Proof.
  assert (H1 : board (mkBlocks (Some Spec.ready_world)) = Some Spec.ready_world)
    by reflexivity.
  assert (H2 : isConnected (mkBlocks (Some Spec.ready_world)) = true)
    by (vm_compute; reflexivity).
  split; [split; assumption|].
  destruct (analog_level_is_a_percentage (Some 0) _ _ H1 H2) as (Hraw & Hrej & _).
  split; [exact (proj1 (Hraw 512))|exact (Hrej (TimeoutError 100))].
Defined.

Lemma servo_value_witness :
  (0 <= Qmin 180 (Qmax 0 (90 - toNumber (ANGLE some_args))) /\
   Qmin 180 (Qmax 0 (90 - toNumber (ANGLE some_args))) <= 180)%Q.
Proof.
  exact (proj1 (servo_value_is_clamped toNumber toIndex some_args (mkBlocks None))).
Defined.

End BlockWitnesses.

(** ** Timers in the worlds a board gets into *)

Section Reach.

Import Board Spec.

Section Keeps.

Context {A B : Type}.

Lemma allocated_mono (ps : list nat) (w w' : World) :
  (length (cells w) <= length (cells w'))%nat -> allocated ps w -> allocated ps w'.
Proof.
  intros Hle H. eapply List.Forall_impl; [|exact H]. intros p. cbn. lia.
Qed.

Lemma keeps_pure (ps : list nat) (c : M A) :
  (forall w, snd (c w) = w) -> keeps ps c.
Proof. intros H w Ht _. rewrite H. split; [exact Ht|lia]. Qed.

Lemma keeps_bind (ps : list nat) (c : M A) (k : A -> M B) :
  keeps ps c -> (forall a, keeps ps (k a)) -> keeps ps (bind c k).
Proof.
  intros Hc Hk w Ht Ha. unfold bind.
  destruct (Hc w Ht Ha) as [Ht1 Hl1].
  destruct (c w) as [[a|r] w1]; cbn in *; [|tauto].
  destruct (Hk a w1 Ht1 (allocated_mono _ _ _ Hl1 Ha)) as [Ht2 Hl2].
  split; [exact Ht2|lia].
Qed.

Lemma keeps_attempt (ps : list nat) (c : M A) :
  keeps ps c -> keeps ps (attempt c).
Proof.
  intros Hc w Ht Ha. unfold attempt.
  destruct (Hc w Ht Ha) as [Ht1 Hl1]. now destruct (c w).
Qed.

Lemma keeps_new_cell (ps : list nat) (c : Cell) (k : nat -> M B) :
  (forall p, keeps (p :: ps) (k p)) -> keeps ps (bind (new_cell c) k).
Proof.
  intros Hk w Ht Ha. unfold bind, new_cell.
  set (w1 := with_cells (cells w ++ [c]) w).
  assert (Hl : length (cells w1) = S (length (cells w)))
    by (cbn; rewrite length_app; cbn; lia).
  destruct (Hk (length (cells w)) w1) as [Ht2 Hl2].
  - unfold timers_exist in *. cbn. eapply List.Forall_impl; [|exact Ht].
    intros t. cbn. rewrite length_app. lia.
  - constructor; [lia|]. eapply allocated_mono; [|exact Ha]. lia.
  - split; [exact Ht2|lia].
Qed.

End Keeps.

Lemma keeps_modify (ps : list nat) (f : World -> World) :
  (forall w, timers (f w) = timers w /\ length (cells (f w)) = length (cells w)) ->
  keeps ps (modify f).
Proof.
  intros H w Ht _. cbn. destruct (H w) as [H1 H2]. unfold timers_exist.
  rewrite H1, H2. split; [exact Ht|lia].
Qed.

Lemma keeps_set_cell (ps : list nat) (p : nat) (c : Cell) : keeps ps (set_cell p c).
Proof.
  apply keeps_modify. intros w. cbn. split; [reflexivity|apply length_insert].
Qed.

Lemma Forall_insert_timer (P : Timer -> Prop) (T : Timer) (ts : list Timer) :
  P T -> Forall P ts -> Forall P (insert_timer T ts).
Proof.
  intros HT H. induction H as [|u us Hu Hus IH]; cbn; [now repeat constructor|].
  destruct (due T <? due u); repeat constructor; assumption.
Qed.

Lemma keeps_setTimeout (ps : list nat) (a : TimerAction) (d : Z) :
  In (target a) ps -> keeps ps (setTimeout a d).
Proof.
  intros Hin w Ht Ha. cbn. split; [|lia].
  apply Forall_insert_timer; [|exact Ht]. cbn.
  unfold allocated in Ha. rewrite List.Forall_forall in Ha. now apply Ha.
Qed.

Create HintDb keeps discriminated.

Ltac keeps_step :=
  match goal with
  | |- keeps _ (bind (new_cell _) _) => apply keeps_new_cell; intros ?
  | |- keeps _ (bind _ _) => apply keeps_bind; [|intros ?]
  | |- keeps _ (ret _) => apply keeps_pure; reflexivity
  | |- keeps _ (throw _) => apply keeps_pure; reflexivity
  | |- keeps _ (gets _) => apply keeps_pure; reflexivity
  | |- keeps _ this_firmata =>
      apply keeps_pure; intros w; unfold this_firmata;
      now destruct (firmata (board w))
  | |- keeps _ (lookup_firmata _) =>
      apply keeps_pure; intros w; unfold lookup_firmata;
      now destruct (heap w !! _)
  | |- keeps _ (this_pin _) =>
      apply keeps_pure; intros w; unfold this_pin;
      now destruct (the_pin w _)
  | |- keeps _ (holds _) => apply keeps_pure; reflexivity
  | |- keeps _ (modify _) => apply keeps_modify; intros w; split; reflexivity
  | |- keeps _ (alter_firmata _ _) => apply keeps_modify; intros w; split; reflexivity
  | |- keeps _ (emit _) => apply keeps_modify; intros w; split; reflexivity
  | |- keeps _ (once _ _) => apply keeps_modify; intros w; split; reflexivity
  | |- keeps _ (landed _) => apply keeps_modify; intros w; split; reflexivity
  | |- keeps _ (set_cell _ _) => apply keeps_set_cell
  | |- keeps _ (attempt _) => apply keeps_attempt
  | |- keeps _ (setTimeout _ _) => apply keeps_setTimeout; cbn; tauto
  | |- keeps _ (if ?b then _ else _) => destruct b
  | |- keeps _ (match ?x with _ => _ end) => destruct x
  | |- keeps _ _ => solve [auto with keeps]
  end.

Ltac keeps_all := repeat keeps_step.

Lemma keeps_send (ps : list nat) (c : Command) : keeps ps (send c).
Proof. unfold send. keeps_all. Qed.
#[local] Hint Resolve keeps_send : keeps.

Lemma keeps_set_this_pin ps pin g : keeps ps (set_this_pin pin g).
Proof. unfold set_this_pin. keeps_all. Qed.
#[local] Hint Resolve keeps_set_this_pin : keeps.

Lemma keeps_settle_read ps p o : keeps ps (settle_read p o).
Proof. unfold settle_read. keeps_all. Qed.
#[local] Hint Resolve keeps_settle_read : keeps.

Lemma keeps_releaseBoard ps : keeps ps releaseBoard.
Proof. unfold releaseBoard. keeps_all. Qed.
#[local] Hint Resolve keeps_releaseBoard : keeps.

Lemma keeps_disconnect ps : keeps ps disconnect.
Proof. unfold disconnect. keeps_all. Qed.
#[local] Hint Resolve keeps_disconnect : keeps.

Lemma keeps_handleDisconnectError ps : keeps ps handleDisconnectError.
Proof. unfold handleDisconnectError. keeps_all. Qed.
#[local] Hint Resolve keeps_handleDisconnectError : keeps.

Lemma keeps_connectSerial ps : keeps ps connectSerial.
Proof. unfold connectSerial. keeps_all. Qed.

Lemma keeps_updateDigitalInput ps pin : keeps ps (updateDigitalInput pin).
Proof. unfold updateDigitalInput. keeps_all. Qed.

Lemma keeps_updateAnalogInput ps analogPin : keeps ps (updateAnalogInput analogPin).
Proof. unfold updateAnalogInput. keeps_all. Qed.

Lemma keeps_paced ps (c : M unit) : (forall ps', keeps ps' c) -> keeps ps (paced c).
Proof. intros H. unfold paced, settle_sent. keeps_all. Qed.

Lemma keeps_setInputBias ps pin pullUp : keeps ps (setInputBias pin pullUp).
Proof.
  unfold setInputBias. keeps_step; [keeps_all|].
  apply keeps_paced. intros ps'. unfold pinMode. keeps_all.
Qed.

Lemma keeps_fire ps a : keeps ps (fire a).
Proof. unfold fire, settle_sent. keeps_all. Qed.
#[local] Hint Resolve keeps_fire : keeps.

Lemma keeps_fire_all ps ts : keeps ps (fire_all ts).
Proof. induction ts; cbn [fire_all]; keeps_all. Qed.

Lemma keeps_run_handler ps f h v : keeps ps (run_handler f h v).
Proof.
  unfold run_handler, onBoarReady, resolve_connect. keeps_all.
Qed.
#[local] Hint Resolve keeps_run_handler : keeps.

Lemma keeps_run_handlers ps f hs v : keeps ps (run_handlers f hs v).
Proof. induction hs; cbn [run_handlers]; keeps_all. Qed.
#[local] Hint Resolve keeps_run_handlers : keeps.

Lemma keeps_elapse ps ms : keeps ps (elapse ms).
Proof.
  intros w Ht Ha. unfold elapse. js.
  set (w1 := with_timers _ _).
  destruct (keeps_fire_all ps (List.filter (fun t => due t <=? clock w + Z.max 0 ms) (timers w)) w1)
    as [H1 H2].
  - unfold timers_exist. cbn. now apply Forall_filter_bool.
  - exact Ha.
  - split; assumption.
Qed.

Lemma keeps_handle ps e : keeps ps (handle e).
Proof.
  destruct e; cbn [handle].
  - unfold port_opened, setupFirmata. keeps_all.
  - unfold reject_connect. keeps_all.
  - unfold deliver. keeps_all.
  - apply keeps_elapse.
  - keeps_all.
Qed.

Lemma keeps_invoke ps c : keeps ps (invoke c).
Proof.
  destruct c; cbn [invoke]; try (keeps_all; fail).
  - keeps_step; [apply keeps_connectSerial|keeps_all].
  - destruct i; cbn [update]; keeps_step;
      [apply keeps_updateDigitalInput|keeps_all
      |apply keeps_updateAnalogInput|keeps_all].
  - keeps_step; [apply keeps_setInputBias|keeps_all].
  - unfold pinMode. keeps_all.
  - keeps_step; [apply keeps_paced; intros; keeps_all|keeps_all].
  - keeps_step; [apply keeps_paced; intros; keeps_all|keeps_all].
  - keeps_step; [apply keeps_paced; intros; keeps_all|keeps_all].
Qed.

Lemma perform_timers_exist (a : Action) (w : World) :
  timers_exist w -> timers_exist (perform a w).
Proof.
  intros H. destruct a as [e|c]; cbn [perform].
  - destruct (keeps_handle [] e w H) as [H1 _]; [constructor|exact H1].
  - destruct (keeps_invoke [] c w H) as [H1 _]; [constructor|exact H1].
Qed.

(** In every world a board gets into, each timer belongs to a promise
    that exists. *)
Theorem reachable_timers_exist (w : World) : reachable w -> timers_exist w.
Proof.
  intros (t & acts & ->).
  assert (H : timers_exist (new_World t)) by constructor.
  revert H. generalize (new_World t) as w.
  induction acts as [|a acts IH]; intros w H; [exact H|].
  cbn [fold_left]. apply IH. now apply perform_timers_exist.
Qed.

End Reach.

(** * More of the board *)

(** ** The connect sequence *)

(** Run to the end: every method called on the way is opened. *)
Ltac go :=
  repeat progress
    (cbv [Board.resolve_connect Board.reject_connect Board.onBoarReady
          Board.settle_sent Board.deliver Board.landed];
     js; norm; rewrite ?Nat.eqb_refl;
     repeat match goal with
            | H : Board.State_eqb _ _ = _ |- _ => rewrite H
            end).

Section ConnectSequence.

Import Board Spec.

(** [connectSerial] on a board without an instance, the port opening,
    and the signals of the new instance: once the port is open the board
    holds the new instance and the port's info, and still is
    'portRequesting'; "open" makes it 'connect', which is connected but
    not ready; "ready", after "open" or without it, configures I2C, makes
    the board 'ready' and resolves the promise [connectSerial] returned. *)
Theorem connect_resolves_on_ready (w : World) (info : PortInfo) (v v' : Z) :
  firmata (board w) = None ->
  let p := length (cells w) in
  let f := length (heap w) in
  let w2 := step (PortOpened p info) (exec connectSerial w) in
  let w3 := step (Emitted f E_open v) w2 in
  let w4 := step (Emitted f E_ready v') w3 in
  let w4' := step (Emitted f E_ready v') w2 in
  (firmata (board w2) = Some f /\ portInfo (board w2) = Some info /\
   state (board w2) = S_portRequesting /\
   cells w2 !! p = Some (ConnectCell Pending) /\ log w2 = log w) /\
  (state (board w3) = S_connect /\ isConnected w3 = true /\ isReady w3 = false /\
   cells w3 !! p = Some (ConnectCell Pending) /\ log w3 = log w) /\
  (state (board w4) = S_ready /\ firmata (board w4) = Some f /\
   cells w4 !! p = Some (ConnectCell (Resolved tt)) /\
   log w4 = log w ++ [Sent f c_i2cConfig]) /\
  (state (board w4') = S_ready /\ firmata (board w4') = Some f /\
   cells w4' !! p = Some (ConnectCell (Resolved tt)) /\
   log w4' = log w ++ [Sent f c_i2cConfig]).
Proof.
  intros Hf.
  destruct w as [[st fm ext pi a1 a2 a3 a4 a5 a6] h c t ce o l].
  cbn in Hf. subst fm. cbn [cells heap].
  unfold step, handle, deliver, in_flight, connectSerial. js.
  rewrite in_flight_last.
  unfold port_opened, setupFirmata. go.
  repeat split; try reflexivity;
    apply list_lookup_insert_eq; rewrite length_app; cbn; lia.
Qed.

Lemma connect_resolves_on_ready_witness :
  firmata (board (new_World 0)) = None /\
  state (board (step (Emitted 0 E_ready 0)
                  (step (Emitted 0 E_open 0)
                     (step (PortOpened 0 a_port)
                        (exec connectSerial (new_World 0)))))) = S_ready.
Proof.
  assert (H : firmata (board (new_World 0)) = None) by reflexivity.
  split; [exact H|].
  exact (proj1 (proj1 (proj2 (proj2
           (connect_resolves_on_ready (new_World 0) a_port 0 0 H))))).
Defined.

End ConnectSequence.

(** ** Disconnecting *)

Section Disconnect.

Import Board Spec.

Lemma releaseBoard_returns (w : World) : fst (releaseBoard w) = Ok tt.
Proof.
  destruct w as [[st fm ext pi a1 a2 a3 a4 a5 a6] h c t ce o l].
  unfold releaseBoard; js.
  destruct fm as [f|]; js; [|reflexivity].
  destruct (h !! f) as [fo|] eqn:Hh; js; [|reflexivity].
  destruct (transport fo && isOpen fo); js; [|reflexivity].
  rewrite Hh; js. destruct (throws fo); reflexivity.
Qed.

(** The three ways [disconnect] goes. *)
Lemma disconnect_cases (w : World) :
  (exists r, disconnect w = (Throw r, w)) \/
  (state (board w) = S_disconnect /\ disconnect w = (Ok tt, w)) \/
  (state (board w) <> S_disconnect /\
   exists l, disconnect w = (Ok tt, exec releaseBoard (with_log (log w ++ l) w)) /\
             released l = 0%nat).
Proof.
  destruct w as [[st fm ext pi a1 a2 a3 a4 a5 a6] h c t ce o l].
  assert (R : forall w0, releaseBoard w0 = (Ok tt, exec releaseBoard w0)).
  { intros w0. pose proof (releaseBoard_returns w0) as E. unfold exec.
    destruct (releaseBoard w0) as [r w1]. cbn in E. now subst r. }
  destruct (State_eqb st S_disconnect) eqn:Hst.
  { right; left. destruct st; try discriminate. split; reflexivity. }
  assert (Hne : st <> S_disconnect) by (intros ->; discriminate).
  unfold disconnect. revert R. generalize releaseBoard as rb. intros rb R.
  js. rewrite Hst.
  destruct fm as [f|]; js.
  - destruct (h !! f) as [fo|] eqn:Hh; js; [|left; eauto].
    destruct (throws fo); js; [left; eauto|].
    right; right. split; [exact Hne|]. exists [Sent f c_reset].
    split; [apply R|reflexivity].
  - right; right. split; [exact Hne|]. exists [].
    split; [|reflexivity]. rewrite app_nil_r. apply R.
Qed.

(** [disconnect] right after [disconnect] does nothing: there is no
    second RELEASED. A [disconnect] that returns leaves the board
    'disconnect' without an instance, and has emitted RELEASED once if
    the board was not 'disconnect' and not at all if it was. *)
Theorem disconnect_is_idempotent (w : World) :
  exec disconnect (exec disconnect w) = exec disconnect w /\
  (state (board w) = S_disconnect -> disconnect w = (Ok tt, w)) /\
  (fst (disconnect w) = Ok tt ->
   state (board (exec disconnect w)) = S_disconnect /\
   (state (board w) <> S_disconnect -> firmata (board (exec disconnect w)) = None) /\
   released (log (exec disconnect w)) =
     (released (log w) + if State_eqb (state (board w)) S_disconnect then 0 else 1)%nat).
Proof.
  assert (Hdis : forall w0, state (board w0) = S_disconnect -> disconnect w0 = (Ok tt, w0)).
  { intros w0 H. destruct (disconnect_cases w0) as [[r E]|[[_ E]|[Hne _]]];
      [|exact E|contradiction].
    revert E. unfold disconnect, bind, gets. rewrite H. cbn. discriminate. }
  split; [|split].
  - destruct (disconnect_cases w) as [[r E]|[[_ E]|[Hne (l & E & _)]]];
      unfold exec at 2 3; rewrite E; cbn [snd].
    + unfold exec. now rewrite E.
    + unfold exec. now rewrite E.
    + unfold exec at 1. rewrite Hdis; [reflexivity|].
      now rewrite releaseBoard_board.
  - apply Hdis.
  - destruct (disconnect_cases w) as [[r E]|[[Hst E]|[Hne (l & E & Hl)]]];
      unfold exec; rewrite E; cbn [fst snd]; [discriminate| |]; intros _.
    + rewrite Hst. cbn. split; [reflexivity|]. split; [contradiction|lia].
    + fold (exec releaseBoard (with_log (log w ++ l) w)).
      rewrite releaseBoard_board. split; [reflexivity|]. split; [reflexivity|].
      destruct (releaseBoard_log (with_log (log w ++ l) w)) as (l' & -> & Hl').
      cbn [log with_log]. rewrite !released_app, Hl, Hl'.
      destruct (state (board w)); try contradiction; cbn; lia.
Qed.

(** [disconnect] on a board that holds an instance and is not
    'disconnect': the instance is told to reset, then the board is
    released: the port is closed if it is open, the listeners are taken
    off the instance, the board is 'disconnect' and holds nothing, and
    RELEASED is emitted last. When the instance cannot be told, the
    exception is the caller's and the board is as it was. *)
Theorem disconnect_resets_then_releases (w : World) (f : nat) (fo : Firmata) :
  state (board w) <> S_disconnect ->
  firmata (board w) = Some f ->
  heap w !! f = Some fo ->
  (throws fo = false ->
   fst (disconnect w) = Ok tt /\
   log (exec disconnect w) =
     log w ++ [Sent f c_reset] ++
     (if transport fo && isOpen fo then [Sent f c_transport_close] else []) ++
     [Emit_RELEASED] /\
   board (exec disconnect w) =
     with_extensionId None (with_firmata None (with_state S_disconnect (board w))) /\
   (listeners <$> heap (exec disconnect w) !! f) = Some [] /\
   map pins (heap (exec disconnect w)) = map pins (heap w)) /\
  (throws fo = true -> disconnect w = (Throw (Failure "protocol client"), w)).
Proof.
  destruct w as [[st fm ext pi a1 a2 a3 a4 a5 a6] h c t ce o l].
  cbn -[lookup]. intros Hst -> Hh.
  assert (E : State_eqb st S_disconnect = false) by (now destruct st).
  unfold disconnect, releaseBoard. js. rewrite E. split; intros Hth; go.
  - destruct (transport fo && isOpen fo); go; rewrite <- ?app_assoc;
      repeat split; try reflexivity; apply pins_alter_listeners.
  - reflexivity.
Qed.

Lemma disconnect_resets_witness :
  (state (board ready_world) <> S_disconnect /\
   firmata (board ready_world) = Some 0%nat) /\
  log (exec disconnect ready_world) =
    log ready_world ++ [Sent 0 c_reset; Emit_RELEASED].
Proof.
  assert (H1 : state (board ready_world) <> S_disconnect) by (vm_compute; discriminate).
  assert (H2 : firmata (board ready_world) = Some 0%nat) by reflexivity.
  assert (H3 : heap ready_world !! 0%nat
               = Some (mkFirmata true false false (map reported three_pins) [2]
                         [on_close; on_disconnect; on_error] 1 0 255))
    by (vm_compute; reflexivity).
  split; [split; assumption|].
  destruct (disconnect_resets_then_releases ready_world 0 _ H1 H2 H3) as [Hok _].
  destruct (Hok eq_refl) as (_ & Hlog & _). exact Hlog.
Defined.

End Disconnect.

(** ** The signals of the instance the board holds *)

Section LostConnection.

Import Board Spec.

(** The listeners of "close", "disconnect" and "error" are the handlers
    [setupFirmata] registered for them. *)
Lemma listens_the_handler (h h' : Handler) :
  h = on_close \/ h = on_disconnect \/ h = on_error ->
  listens (signal_of h) h' = true -> h' = h.
Proof.
  unfold listens. intros Hh E. apply Signal_eqb_eq in E.
  destruct Hh as [-> | [-> | ->]]; destruct h'; cbn in E; congruence.
Qed.

Lemma filter_the_handler (h : Handler) (ls : list Handler) :
  h = on_close \/ h = on_disconnect \/ h = on_error ->
  In h ls ->
  exists hs, List.filter (listens (signal_of h)) ls = h :: hs /\
             Forall (fun h' => lifecycle (signal_of h') = true) hs.
Proof.
  intros Hh Hin.
  assert (Hall : Forall (fun h' => h' = h) (List.filter (listens (signal_of h)) ls)).
  { apply List.Forall_forall. intros h' H. apply List.filter_In in H as [_ H].
    now apply listens_the_handler. }
  assert (Hin' : In h (List.filter (listens (signal_of h)) ls)).
  { apply List.filter_In. split; [exact Hin|]. unfold listens. apply Signal_eqb_refl. }
  destruct (List.filter (listens (signal_of h)) ls) as [|h0 hs]; [destruct Hin'|].
  inversion Hall as [|? ? E Hall']; subst. exists hs. split; [reflexivity|].
  eapply List.Forall_impl; [|exact Hall']. intros h' ->.
  destruct Hh as [-> | [-> | ->]]; reflexivity.
Qed.

(** One of these handlers runs on a board that holds its instance. *)
Lemma handler_releases (w : World) (f : nat) (fo : Firmata) (h : Handler) (v : Z) :
  firmata (board w) = Some f ->
  heap w !! f = Some fo ->
  throws fo = false ->
  state (board w) <> S_disconnect ->
  h = on_close \/ h = on_disconnect \/ h = on_error ->
  exists w', run_handler f h v w = (Ok tt, w') /\
    board w' =
      with_extensionId None (with_firmata None (with_state S_disconnect (board w))) /\
    log w' =
      log w ++
      (match h with
       | on_close => []
       | _ => [Runtime_CONNECTION_LOST_ERROR (extensionId (board w)); Sent f c_reset]
       end) ++
      (if transport fo && isOpen fo then [Sent f c_transport_close] else []) ++
      [Emit_RELEASED] /\
    heap w' = alter (with_listeners []) f (heap w) /\
    cells w' = cells w /\ timers w' = timers w /\ opens w' = opens w.
Proof.
  destruct w as [[st fm ext pi a1 a2 a3 a4 a5 a6] hp c t ce o l].
  cbn -[lookup]. intros -> Hh Hth Hst Hc.
  assert (E : State_eqb st S_disconnect = false) by (now destruct st).
  destruct Hc as [-> | [-> | ->]];
    unfold run_handler, handleDisconnectError, disconnect, releaseBoard;
    go;
    (destruct (transport fo && isOpen fo); go;
     eexists; (split; [reflexivity|]); cbn; rewrite <- ?app_assoc;
     repeat split; reflexivity).
Qed.

(** The instance the board holds emits "close", "disconnect" or "error"
    while the board is not 'disconnect': the board is released, that is,
    it becomes 'disconnect' and holds nothing, the port is closed if it
    is open, the instance loses its listeners and RELEASED is emitted.
    On "disconnect" and "error" the runtime is first told of the lost
    connection, with the extension id the board had, and the instance is
    told to reset; on "close" neither happens. *)
Theorem lost_connection_is_released
    (w : World) (f : nat) (fo : Firmata) (h : Handler) (v : Z) :
  firmata (board w) = Some f ->
  heap w !! f = Some fo ->
  throws fo = false ->
  state (board w) <> S_disconnect ->
  h = on_close \/ h = on_disconnect \/ h = on_error ->
  In h (listeners fo) ->
  let w' := step (Emitted f (signal_of h) v) w in
  board w' =
    with_extensionId None (with_firmata None (with_state S_disconnect (board w))) /\
  log w' =
    log w ++
    (match h with
     | on_close => []
     | _ => [Runtime_CONNECTION_LOST_ERROR (extensionId (board w)); Sent f c_reset]
     end) ++
    (if transport fo && isOpen fo then [Sent f c_transport_close] else []) ++
    [Emit_RELEASED] /\
  (listeners <$> heap w' !! f) = Some [] /\
  map pins (heap w') = map pins (heap w) /\
  cells w' = cells w /\ timers w' = timers w.
Proof.
  intros Hf Hh Hth Hst Hc Hin w'. subst w'.
  destruct (filter_the_handler h (listeners fo) Hc Hin) as (hs & Hfl & Hhs).
  set (ls := List.filter (fun h0 => negb (listens (signal_of h) h0)) (listeners fo)).
  set (w0 := with_heap (alter (with_listeners ls) f (heap w)) w).
  destruct (handler_releases w0 f (with_listeners ls fo) h v)
    as (w1 & E & Hb & Hl & Hhp & Hce & Ht & _); try assumption.
  { subst w0. cbn -[lookup alter]. now rewrite list_lookup_alter_eq, Hh. }
  assert (Estep : step (Emitted f (signal_of h) v) w = w1).
  { unfold step, exec, handle, deliver, bind, lookup_firmata, alter_firmata, modify.
    rewrite Hh, Hfl. cbn [run_handlers]. unfold bind. fold ls. fold w0.
    rewrite E. cbv beta iota.
    rewrite stale_handlers; [reflexivity|exact Hhs|rewrite Hb; cbn; discriminate]. }
  rewrite Estep, Hb, Hl, Hhp, Hce, Ht. subst w0. cbn -[lookup alter].
  repeat split.
  - now rewrite !list_lookup_alter_eq, Hh.
  - now rewrite !pins_alter_listeners.
Qed.

Lemma lost_connection_witness :
  (firmata (board ready_world) = Some 0%nat /\
   state (board ready_world) <> S_disconnect) /\
  log (step (Emitted 0 E_error 0) ready_world) =
    log ready_world ++
    [Runtime_CONNECTION_LOST_ERROR None; Sent 0 c_reset; Emit_RELEASED].
Proof.
  assert (H1 : firmata (board ready_world) = Some 0%nat) by reflexivity.
  assert (H2 : state (board ready_world) <> S_disconnect) by (vm_compute; discriminate).
  assert (H3 : heap ready_world !! 0%nat
               = Some (mkFirmata true false false (map reported three_pins) [2]
                         [on_close; on_disconnect; on_error] 1 0 255))
    by (vm_compute; reflexivity).
  split; [split; assumption|].
  destruct (lost_connection_is_released ready_world 0 _ on_error 0 H1 H3 eq_refl H2)
    as (_ & Hlog & _).
  - right; right; reflexivity.
  - cbn. tauto.
  - exact Hlog.
Defined.

End LostConnection.

(** ** Pin output *)

Section Writes.

Import Board Spec.

Lemma fire_sent (w : World) (p : nat) :
  cells w !! p = Some (SentCell Pending) ->
  fire (ResolveAfter p) w
  = (Ok tt, with_cells (<[p := SentCell (Resolved tt)]> (cells w)) w).
Proof. intros H. unfold fire, settle_sent, bind, gets. now rewrite H. Qed.

(** A write to a working instance: the command, the promise, the timer. *)
Lemma write_issued (x : Write) (w : World) (f : nat) (fo : Firmata) :
  firmata (board w) = Some f ->
  heap w !! f = Some fo ->
  throws fo = false ->
  write x w =
  (Ok (Later (length (cells w))),
   with_timers
     (insert_timer
        (mkTimer (clock w + Z.max 0 (sendingInterval (board w)))
                 (ResolveAfter (length (cells w))))
        (timers w))
     (with_log (log w ++ [Sent f (command_of x)])
        (with_cells (cells w ++ [SentCell Pending]) w))).
Proof.
  destruct w as [[st fm ext pi a1 a2 a3 a4 a5 a6] h c t ce o l].
  cbn -[lookup]. intros -> Hh Hth.
  destruct x; unfold write, digitalWrite, pwmWrite; go; reflexivity.
Qed.

(** [digitalWrite], [pwmWrite] and [servoWrite] on a board whose
    instance takes the command: the command is sent, once, and the
    promise handed back is pending; it is resolved by the first passage
    of time that covers [sendingInterval], and by nothing shorter.
    Neither the board's fields nor the log change on the way. *)
Theorem write_resolves_after_sendingInterval
    (x : Write) (w : World) (f : nat) (fo : Firmata) :
  timers_exist w ->
  firmata (board w) = Some f ->
  heap w !! f = Some fo ->
  throws fo = false ->
  let p := length (cells w) in
  let w1 := exec (write x) w in
  fst (write x w) = Ok (Later p) /\
  log w1 = log w ++ [Sent f (command_of x)] /\
  board w1 = board w /\
  cells w1 !! p = Some (SentCell Pending) /\
  forall ms : Z,
    cells (step (Elapsed ms) w1) !! p =
      Some (SentCell (if Z.max 0 (sendingInterval (board w)) <=? Z.max 0 ms
                      then Resolved tt else Pending)) /\
    log (step (Elapsed ms) w1) = log w1 /\
    board (step (Elapsed ms) w1) = board w.
Proof.
  intros Hex Hf Hh Hth p w1. subst w1. unfold exec.
  rewrite (write_issued x w f fo Hf Hh Hth). cbn [fst snd]. fold p.
  set (T := mkTimer _ _).
  set (w1 := with_timers _ _).
  assert (Hcell : cells w1 !! p = Some (SentCell Pending))
    by (subst w1; cbn -[lookup]; now apply list_lookup_middle).
  repeat (split; [reflexivity|]). split; [exact Hcell|].
  intros ms.
  destruct (insert_timer_split T (timers w)) as (ts1 & ts2 & Hts & Hins).
  unfold timers_exist in Hex. rewrite Hts in Hex. apply Forall_app in Hex as [Hex1 Hex2].
  assert (Hne : forall ts, Forall (fun t => (target (action t) < length (cells w))%nat) ts ->
                Forall (fun t => target (action t) <> p) ts).
  { intros ts H. eapply List.Forall_impl; [|exact H]. intros t. cbn. fold p. lia. }
  unfold step, exec. rewrite elapse_fires.
  change (timers w1) with (insert_timer T (timers w)). rewrite Hins.
  change (clock w1) with (clock w).
  set (now := clock w + Z.max 0 ms).
  set (due_now := fun t : Timer => due t <=? now).
  rewrite (List.filter_app due_now). cbn [List.filter].
  set (Wa := with_timers _ _).
  assert (Ha : quiet p w1 Wa).
  { split; try reflexivity. intros pin q Hq. exists q. split; [exact Hq|constructor]. }
  destruct (fire_all_frame (List.filter due_now ts1) Wa p) as (Wb & Eb & Qb & _).
  { apply Forall_filter_bool, Hne, Hex1. }
  assert (Hdue : due_now T = (Z.max 0 (sendingInterval (board w)) <=? Z.max 0 ms)).
  { unfold due_now, now, T. cbn.
    destruct (Z.leb_spec (Z.max 0 (sendingInterval (board w))) (Z.max 0 ms));
      [apply Z.leb_le|apply Z.leb_gt]; lia. }
  rewrite Hdue. destruct (Z.max 0 (sendingInterval (board w)) <=? Z.max 0 ms).
  - rewrite (fire_all_app _ _ _ _ Eb). cbn [fire_all action T]. unfold bind.
    rewrite fire_sent
      by (rewrite (quiet_cell _ _ _ Qb), (quiet_cell _ _ _ Ha); exact Hcell).
    set (Wc := with_cells _ Wb).
    destruct (fire_all_frame (List.filter due_now ts2) Wc p) as (Wd & Ed & Qd & _).
    { apply Forall_filter_bool, Hne, Hex2. }
    rewrite Ed. cbn [snd]. repeat split.
    + rewrite (quiet_cell _ _ _ Qd). subst Wc. cbn -[lookup insert].
      apply list_lookup_insert_eq. apply lookup_lt_is_Some.
      rewrite (quiet_cell _ _ _ Qb), (quiet_cell _ _ _ Ha). eauto.
    + rewrite (quiet_log _ _ _ Qd). subst Wc. cbn.
      now rewrite (quiet_log _ _ _ Qb).
    + rewrite (quiet_board _ _ _ Qd). subst Wc. cbn.
      now rewrite (quiet_board _ _ _ Qb).
  - destruct (fire_all_frame (List.filter due_now ts2) Wb p) as (Wd & Ed & Qd & _).
    { apply Forall_filter_bool, Hne, Hex2. }
    rewrite (fire_all_app _ _ _ _ Eb), Ed. cbn [snd].
    pose proof (quiet_trans _ _ _ _ Ha (quiet_trans _ _ _ _ Qb Qd)) as Q.
    repeat split.
    + rewrite (quiet_cell _ _ _ Q). exact Hcell.
    + apply (quiet_log _ _ _ Q).
    + apply (quiet_board _ _ _ Q).
Qed.

Lemma write_resolves_witness :
  (timers_exist ready_world /\ firmata (board ready_world) = Some 0%nat) /\
  cells (step (Elapsed 10) (exec (write (W_pwm (Some 1) 128)) ready_world)) !! 1%nat
    = Some (SentCell (Resolved tt)) /\
  cells (step (Elapsed 9) (exec (write (W_pwm (Some 1) 128)) ready_world)) !! 1%nat
    = Some (SentCell Pending).
Proof.
  assert (H1 : timers_exist ready_world) by (unfold timers_exist; vm_compute; constructor).
  assert (H2 : firmata (board ready_world) = Some 0%nat) by reflexivity.
  assert (H3 : heap ready_world !! 0%nat
               = Some (mkFirmata true false false (map reported three_pins) [2]
                         [on_close; on_disconnect; on_error] 1 0 255))
    by (vm_compute; reflexivity).
  split; [split; assumption|].
  destruct (write_resolves_after_sendingInterval (W_pwm (Some 1) 128) ready_world 0 _
              H1 H2 H3 eq_refl) as (_ & _ & _ & _ & Hms).
  split; [exact (proj1 (Hms 10))|exact (proj1 (Hms 9))].
Defined.

(** A write whose command cannot be sent, because the board holds no
    instance or because the instance raises, does not raise itself: the
    promise it hands back is rejected with the exception. Nothing is
    sent, no timer is set, and the board is as it was. *)
Theorem write_failure_is_a_rejection (x : Write) (w : World) :
  (firmata (board w) = None ->
   write x w =
   (Ok (Later (length (cells w))),
    with_cells (cells w ++ [SentCell (Rejected TypeError)]) w)) /\
  (forall (f : nat) (fo : Firmata),
     firmata (board w) = Some f ->
     heap w !! f = Some fo ->
     throws fo = true ->
     write x w =
     (Ok (Later (length (cells w))),
      with_cells (cells w ++ [SentCell (Rejected (Failure "protocol client"))]) w)).
Proof.
  destruct w as [[st fm ext pi a1 a2 a3 a4 a5 a6] h c t ce o l].
  cbn -[lookup]. split.
  - intros ->. destruct x; unfold write, digitalWrite, pwmWrite; go;
      rewrite insert_last; reflexivity.
  - intros f fo -> Hh Hth. destruct x; unfold write, digitalWrite, pwmWrite; go;
      rewrite insert_last; reflexivity.
Qed.

Lemma write_failure_witness :
  firmata (board (new_World 0)) = None /\
  write (W_digital (Some 13) 1 false) (new_World 0) =
  (Ok (Later 0%nat), with_cells [SentCell (Rejected TypeError)] (new_World 0)).
Proof.
  assert (H : firmata (board (new_World 0)) = None) by reflexivity.
  split; [exact H|].
  exact (proj1 (write_failure_is_a_rejection (W_digital (Some 13) 1 false)
                  (new_World 0)) H).
Defined.

End Writes.

(** ** Pin input: what is not a read *)

Section Inputs.

Import Board Spec.

(** An input update of a pin that is not there raises a TypeError before
    anything is done: no instance, no such pin, no such analog channel.
    A digital update of a pin whose mode is known and is neither INPUT
    nor PULLUP hands back the value the pin has, and does nothing. *)
Theorem input_update_without_a_read (w : World) :
  (forall pin : JsIndex,
     the_pin w pin = None -> updateDigitalInput pin w = (Throw TypeError, w)) /\
  (forall analogPin : JsIndex,
     firmata (board w) = None -> updateAnalogInput analogPin w = (Throw TypeError, w)) /\
  (forall (f : nat) (fo : Firmata) (analogPin : JsIndex),
     firmata (board w) = Some f ->
     heap w !! f = Some fo ->
     index (pins fo) (index (analogPins fo) analogPin) = None ->
     updateAnalogInput analogPin w = (Throw TypeError, w)) /\
  (forall (pin : JsIndex) (q : Pin) (m : Z),
     the_pin w pin = Some q ->
     mode q = Some m -> m <> MODES.INPUT -> m <> MODES.PULLUP ->
     updateDigitalInput pin w = (Ok (Now (Resolved (value q))), w)).
Proof.
  repeat split.
  - intros pin H. unfold updateDigitalInput, bind, this_pin. now rewrite H.
  - intros analogPin H. unfold updateAnalogInput, bind, this_firmata. now rewrite H.
  - intros f fo analogPin Hf Hh Hq.
    unfold updateAnalogInput, bind, this_firmata, lookup_firmata.
    rewrite Hf, Hh. cbv zeta. unfold this_pin, the_pin. now rewrite Hf, Hh, Hq.
  - intros pin q m Hq Hm H0 H1. unfold updateDigitalInput, bind, this_pin, ret.
    rewrite Hq, Hm.
    destruct (Z.eqb_spec m MODES.INPUT); [contradiction|].
    destruct (Z.eqb_spec m MODES.PULLUP); [contradiction|]. reflexivity.
Qed.

Lemma input_update_without_a_read_witness :
  the_pin ready_world (Some 7) = None /\
  updateDigitalInput (Some 7) ready_world = (Throw TypeError, ready_world).
Proof.
  assert (H : the_pin ready_world (Some 7) = None) by (vm_compute; reflexivity).
  split; [exact H|].
  exact (proj1 (input_update_without_a_read ready_world) (Some 7) H).
Defined.

(** The sample of a read arrives when the read is settled already, by
    its timeout or otherwise: the sample is stored as the pin's value
    with the time of its arrival, the reports are stopped, and the
    promise stays as it was settled. So a digital read that follows
    within [digitalReadInterval] is answered with the late sample, and
    sends nothing. *)
Theorem late_sample_refreshes_the_cache
    (i : Input) (w : World) (f p : nat) (fo : Firmata) (q : Pin)
    (pin : JsIndex) (s : Settled Z) (v : Z) :
  firmata (board w) = Some f ->
  heap w !! f = Some fo ->
  throws fo = false ->
  index (pins fo) pin = Some q ->
  cells w !! p = Some (ReadCell pin s) ->
  s <> Pending ->
  let w' := exec (run_handler f (listener i pin p) v) w in
  fst (run_handler f (listener i pin p) v w) = Ok tt /\
  the_pin w' pin = Some (with_updateTime (clock w) (with_value v q)) /\
  cells w' = cells w /\ board w' = board w /\ timers w' = timers w /\
  clock w' = clock w /\
  log w' = log w ++ [Sent f (report_off i pin)] /\
  (updating q = false -> clock w <> 0 -> 0 < digitalReadInterval (board w) ->
   updateDigitalInput pin w' = (Ok (Now (Resolved v)), w')).
Proof.
  intros Hf Hh Hth Hq Hc Hs w'.
  assert (E : exists w1, run_handler f (listener i pin p) v w = (Ok tt, w1) /\
    the_pin w1 pin = Some (with_updateTime (clock w) (with_value v q)) /\
    cells w1 = cells w /\ board w1 = board w /\ timers w1 = timers w /\
    clock w1 = clock w /\ log w1 = log w ++ [Sent f (report_off i pin)]).
  { destruct w as [[st fm ext pi a1 a2 a3 a4 a5 a6] hp c t ce o l].
    cbn -[lookup] in Hf, Hh, Hc. subst fm.
    destruct i as [pin0|analogPin]; cbn [listener report_off];
      unfold run_handler, settle_read; go;
      (destruct s as [|x|r]; [contradiction| |]);
      eexists; (split; [reflexivity|]); unfold the_pin; go; repeat split. }
  destruct E as (w1 & E & Hp & Hce & Hb & Ht & Hck & Hl).
  subst w'. unfold exec. rewrite E. cbn [fst snd].
  repeat (split; [assumption || reflexivity|]).
  intros Hu Hnz Hint.
  apply (cached_read w1 pin _ Hp). right. exists (clock w).
  cbn. rewrite Hck, Hb. split; [reflexivity|]. split; [exact Hnz|lia].
Qed.

Lemma late_sample_witness :
  let w := step (Elapsed 100) reading_world in
  (firmata (board w) = Some 0%nat /\
   cells w !! 1%nat = Some (ReadCell (Some 1) (Rejected (TimeoutError 100)))) /\
  updateDigitalInput (Some 1)
    (exec (run_handler 0 (on_digital_read (Some 1) 1) 1) w)
  = (Ok (Now (Resolved 1)),
     exec (run_handler 0 (on_digital_read (Some 1) 1) 1) w).
Proof.
  intros w.
  assert (H1 : firmata (board w) = Some 0%nat) by reflexivity.
  assert (H2 : cells w !! 1%nat = Some (ReadCell (Some 1) (Rejected (TimeoutError 100))))
    by (vm_compute; reflexivity).
  assert (H3 : heap w !! 0%nat
               = Some (mkFirmata true false false
                         [mkPin [0; 1] None 0 None false None;
                          mkPin [0; 1] None 0 None false (Some 0);
                          mkPin [0; 1] None 0 None false None] [2]
                         [on_close; on_disconnect; on_error; on_digital_read (Some 1) 1]
                         1 0 255))
    by (vm_compute; reflexivity).
  split; [split; assumption|].
  destruct (late_sample_refreshes_the_cache (Digital (Some 1)) w 0 1 _
              (mkPin [0; 1] None 0 None false (Some 0)) (Some 1) _ 1
              H1 H3 eq_refl eq_refl H2) as (_ & _ & _ & _ & _ & _ & _ & Hread).
  - discriminate.
  - apply Hread; [reflexivity|vm_compute; discriminate|reflexivity].
Defined.

(** A digital read that goes out to a working instance: the mode it
    asks for and what it leaves on the pin. *)
Lemma digital_read_bias (w w1 : World) (f p : nat) (fo : Firmata)
    (pin : JsIndex) (q : Pin) :
  firmata (board w) = Some f ->
  heap w !! f = Some fo ->
  throws fo = false ->
  index (pins fo) pin = Some q ->
  updateDigitalInput pin w = (Ok (Later p), w1) ->
  let bias := if is_mode MODES.PULLUP (inputBias q) then MODES.PULLUP else MODES.INPUT in
  log w1 = log w ++ [Sent f (c_pinMode pin bias); Sent f (c_reportDigitalPin pin 1)] /\
  the_pin w1 pin = Some (with_inputBias bias (with_updating true q)).
Proof.
  destruct w as [[st fm ext pi a1 a2 a3 a4 a5 a6] h c t ce o l].
  cbn -[lookup]. intros -> Hh Hth Hq.
  unfold updateDigitalInput, settle_read. go.
  destruct (match mode q with Some _ => _ | None => _ end); [go; bad|]. go.
  destruct (recent c a1 q); [go; bad|]. go.
  destruct q as [sm md vl ut up [ib|]]; cbn [inputBias is_mode];
    [destruct (Z.eqb_spec ib MODES.PULLUP) as [->|Hib]|]; go;
    intros [= <- <-]; unfold the_pin; go; rewrite <- ?app_assoc;
    (split; reflexivity).
Qed.

(** [setInputBias] records PULLUP or INPUT as the [inputBias] of the pin
    and asks the instance for that mode. A digital read of the pin that
    goes out afterwards asks for the mode recorded: PULLUP where PULLUP
    was recorded, and INPUT otherwise, which it records where nothing
    was. Of the pin only [inputBias] and [updating], which the board
    itself writes, are spoken of: what the instance makes of the mode
    it is asked for is its own affair. *)
Theorem input_bias_is_used_by_reads
    (w : World) (f : nat) (fo : Firmata) (pin : JsIndex) (q : Pin) :
  firmata (board w) = Some f ->
  heap w !! f = Some fo ->
  throws fo = false ->
  index (pins fo) pin = Some q ->
  (forall pullUp : bool,
     let bias := if pullUp then MODES.PULLUP else MODES.INPUT in
     let w1 := exec (setInputBias pin pullUp) w in
     fst (setInputBias pin pullUp w) = Ok (Later (length (cells w))) /\
     (exists q1, the_pin w1 pin = Some q1 /\ inputBias q1 = Some bias) /\
     log w1 = log w ++ [Sent f (c_pinMode pin bias)] /\
     board w1 = board w /\
     forall (p : nat) (w2 : World),
       updateDigitalInput pin w1 = (Ok (Later p), w2) ->
       log w2 = log w1 ++ [Sent f (c_pinMode pin bias);
                           Sent f (c_reportDigitalPin pin 1)]) /\
  (forall (p : nat) (w1 : World),
     updateDigitalInput pin w = (Ok (Later p), w1) ->
     let bias := if is_mode MODES.PULLUP (inputBias q)
                 then MODES.PULLUP else MODES.INPUT in
     log w1 = log w ++ [Sent f (c_pinMode pin bias);
                        Sent f (c_reportDigitalPin pin 1)] /\
     exists q1, the_pin w1 pin = Some q1 /\
       inputBias q1 = Some bias /\ updating q1 = true).
Proof.
  intros Hf Hh Hth Hq. split.
  - intros pullUp bias w1.
    assert (E : exists fo1, setInputBias pin pullUp w
                = (Ok (Later (length (cells w))), w1) /\
              firmata (board w1) = Some f /\ heap w1 !! f = Some fo1 /\
              throws fo1 = false /\
              index (pins fo1) pin = Some (with_inputBias bias q) /\
              log w1 = log w ++ [Sent f (c_pinMode pin bias)] /\
              board w1 = board w).
    { subst w1 bias. unfold exec.
      destruct w as [[st fm ext pi a1 a2 a3 a4 a5 a6] h c t ce o l].
      cbn -[lookup] in Hf, Hh. subst fm.
      unfold setInputBias. go.
      exists (with_pins
                (alter_index
                   (with_inputBias (if pullUp then MODES.PULLUP else MODES.INPUT))
                   pin (pins fo)) fo).
      go. destruct pullUp; repeat split; reflexivity. }
    destruct E as (fo1 & E & Hf1 & Hh1 & Hth1 & Hq1 & Hl1 & Hb1).
    rewrite E. cbn [fst]. split; [reflexivity|].
    split; [exists (with_inputBias bias q); unfold the_pin; now rewrite Hf1, Hh1|].
    split; [exact Hl1|]. split; [exact Hb1|].
    intros p w2 Hup.
    destruct (digital_read_bias w1 w2 f p fo1 pin _ Hf1 Hh1 Hth1 Hq1 Hup) as [Hl2 _].
    rewrite Hl2. subst bias. now destruct pullUp.
  - intros p w1 Hup bias.
    destruct (digital_read_bias w w1 f p fo pin q Hf Hh Hth Hq Hup) as [Hl Hp].
    split; [exact Hl|]. eexists. split; [exact Hp|]. split; reflexivity.
Qed.

Lemma input_bias_witness :
  (firmata (board ready_world) = Some 0%nat /\
   index (map reported three_pins) (Some 1) = Some (reported (mkCapability [0; 1] None 0))) /\
  log (exec (setInputBias (Some 1) true) ready_world)
    = log ready_world ++ [Sent 0 (c_pinMode (Some 1) MODES.PULLUP)].
Proof.
  assert (H1 : firmata (board ready_world) = Some 0%nat) by reflexivity.
  assert (H2 : index (map reported three_pins) (Some 1)
               = Some (reported (mkCapability [0; 1] None 0))) by reflexivity.
  assert (H3 : heap ready_world !! 0%nat
               = Some (mkFirmata true false false (map reported three_pins) [2]
                         [on_close; on_disconnect; on_error] 1 0 255))
    by (vm_compute; reflexivity).
  split; [split; assumption|].
  destruct (input_bias_is_used_by_reads ready_world 0 _ (Some 1) _ H1 H3 eq_refl H2)
    as [Hset _].
  destruct (Hset true) as (_ & _ & Hl & _). exact Hl.
Defined.

End Inputs.

(** ** Printing and parsing pin numbers *)

Section Numbers.

Lemma digit_value_digit (k : nat) :
  (k < 10)%nat -> Js.digit_value (Js.digit k) = Some (Z.of_nat k).
Proof. intros H. do 10 (destruct k as [|k]; [reflexivity|]). lia. Qed.

Lemma digit_is_plain (k : nat) :
  (k < 10)%nat ->
  Js.is_space (Js.digit k) = false /\
  Ascii.eqb (Js.digit k) "-" = false /\ Ascii.eqb (Js.digit k) "+" = false.
Proof. intros H. do 10 (destruct k as [|k]; [repeat split|]). lia. Qed.

Lemma append_assoc (s1 s2 s3 : string) :
  String.append (String.append s1 s2) s3 = String.append s1 (String.append s2 s3).
Proof. induction s1 as [|c s1 IH]; cbn; [reflexivity|now rewrite IH]. Qed.

Lemma append_empty (s : string) : String.append s EmptyString = s.
Proof. induction s as [|c s IH]; cbn; [reflexivity|now rewrite IH]. Qed.

Lemma toString_digits_head (fuel n : nat) :
  (n < fuel)%nat ->
  exists k s, (k < 10)%nat /\ Js.toString_digits fuel n = String (Js.digit k) s.
Proof.
  revert n; induction fuel as [|fuel IH]; intros n H; [lia|].
  cbn [Js.toString_digits]. destruct (Nat.ltb_spec n 10) as [Hn|Hn].
  - now exists n, EmptyString.
  - destruct (IH (n / 10)%nat) as (k & s & Hk & E).
    { assert (n / 10 < n)%nat by (apply Nat.div_lt; lia). lia. }
    rewrite E. cbn. eauto.
Qed.

(** Reading back the digits of [n]: they shift what was read before and
    add [n]. *)
Lemma leading_digits_toString (fuel n : nat) (rest : string) :
  (n < fuel)%nat ->
  exists m : Z, forall acc : option Z,
    Js.leading_digits (String.append (Js.toString_digits fuel n) rest) acc
    = Js.leading_digits rest (Some (default 0 acc * m + Z.of_nat n)).
Proof.
  revert n rest; induction fuel as [|fuel IH]; intros n rest H; [lia|].
  cbn [Js.toString_digits]. destruct (Nat.ltb_spec n 10) as [Hn|Hn].
  - exists 10. intros acc. cbn. now rewrite digit_value_digit.
  - destruct (IH (n / 10)%nat
                (String (Js.digit (n mod 10)) rest)) as (m & Hm).
    { assert (n / 10 < n)%nat by (apply Nat.div_lt; lia). lia. }
    exists (m * 10). intros acc. rewrite append_assoc. cbn [String.append].
    rewrite Hm. cbn [Js.leading_digits].
    rewrite digit_value_digit by (apply Nat.mod_upper_bound; lia).
    f_equal. f_equal. cbn [default].
    assert (E : Z.of_nat n = 10 * Z.of_nat (n / 10) + Z.of_nat (n mod 10)).
    { rewrite (Nat.div_mod_eq n 10) at 1.
      now rewrite Nat2Z.inj_add, Nat2Z.inj_mul. }
    rewrite E. generalize (Z.of_nat (n / 10)) (Z.of_nat (n mod 10)) (default 0 acc).
    intros x y z. unfold id. ring.
Qed.

(** [parseInt(n.toString(10), 10)] is [n]. *)
Lemma parseInt_toString (n : nat) : Js.parseInt (Js.toString n) = Some (Z.of_nat n).
Proof.
  unfold Js.toString, Js.parseInt.
  destruct (toString_digits_head (S n) n) as (k & s & Hk & E); [lia|].
  destruct (digit_is_plain k Hk) as (H1 & H2 & H3).
  destruct (leading_digits_toString (S n) n EmptyString) as (m & Hm); [lia|].
  specialize (Hm None). rewrite append_empty in Hm.
  rewrite E in *. cbn [Js.trimStart]. rewrite H1, H2, H3. rewrite Hm.
  cbn. reflexivity.
Qed.

End Numbers.

(** ** Lists of pins *)

Section PinLists.

Import Board Spec.

Context {A : Type}.

(** The loop that pushes the indices that pass a test. *)
Lemma forEach_push (test : A -> bool) (l : list A) (n : nat) (acc : list nat) :
  forEach (fun x i acc => if test x then acc ++ [i] else acc) l n acc
  = acc ++ positions test l n.
Proof.
  revert n acc; induction l as [|x l IH]; intros n acc; cbn.
  - now rewrite app_nil_r.
  - rewrite IH. destruct (test x); [|reflexivity].
    now rewrite <- app_assoc.
Qed.

Lemma positions_In (test : A -> bool) (l : list A) (n k : nat) :
  In k (positions test l n) <->
  (n <= k)%nat /\ exists x, l !! (k - n)%nat = Some x /\ test x = true.
Proof.
  revert n; induction l as [|x l IH]; intros n; cbn.
  - split; [tauto|]. intros (_ & y & H & _). discriminate H.
  - assert (Hstep : In k (positions test l (S n)) <->
                    (n < k)%nat /\ exists y, (x :: l) !! (k - n)%nat = Some y /\ test y = true).
    { rewrite IH. split.
      - intros (H & y & Hy & Ht). split; [lia|]. exists y. split; [|exact Ht].
        replace (k - n)%nat with (S (k - S n)) by lia. exact Hy.
      - intros (H & y & Hy & Ht). split; [lia|]. exists y. split; [|exact Ht].
        replace (k - n)%nat with (S (k - S n)) in Hy by lia. exact Hy. }
    destruct (test x) eqn:Hx; cbn; rewrite Hstep.
    + split.
      * intros [<-|(H & y & Hy & Ht)].
        -- split; [lia|]. exists x. rewrite Nat.sub_diag. now split.
        -- split; [lia|]. eauto.
      * intros (H & y & Hy & Ht). destruct (Nat.eq_dec n k) as [->|Hne]; [now left|].
        right. split; [lia|]. eauto.
    + split.
      * intros (H & y & Hy & Ht). split; [lia|]. eauto.
      * intros (H & y & Hy & Ht). split; [|eauto].
        destruct (Nat.eq_dec n k) as [->|Hne]; [|lia].
        rewrite Nat.sub_diag in Hy. cbn in Hy. congruence.
Qed.

Lemma positions_sorted (test : A -> bool) (l : list A) (n : nat) :
  StronglySorted lt (positions test l n).
Proof.
  revert n; induction l as [|x l IH]; intros n; cbn; [constructor|].
  destruct (test x); [|apply IH]. constructor; [apply IH|].
  apply List.Forall_forall. intros k Hk. apply positions_In in Hk. lia.
Qed.

End PinLists.

Section PinListTheorems.

Import Board Spec.

Lemma includes_In (x : Z) (l : list Z) : includes x l = true <-> In x l.
Proof.
  unfold includes. rewrite existsb_exists. split.
  - intros (y & Hy & E). apply Z.eqb_eq in E. now subst.
  - intros H. exists x. split; [exact H|apply Z.eqb_refl].
Qed.

Lemma not_includes (x : Z) (l : list Z) : negb (includes x l) = true <-> ~ In x l.
Proof.
  rewrite negb_true_iff, <- includes_In. now destruct (includes x l).
Qed.

(** The test each list is made with. *)
Lemma pinIndex_positions (k : PinKind) (w : World) (f : nat) (fo : Firmata) :
  firmata (board w) = Some f ->
  heap w !! f = Some fo ->
  exists test : Pin -> bool,
    pinIndex k w = (Ok (positions test (pins fo) 0), w) /\
    forall pin, test pin = true <-> serves k pin.
Proof.
  intros Hf Hh.
  destruct k; cbn [pinIndex];
    unfold getDigitalPinIndex, getPWMPinIndex, getServoPinIndex,
      bind, gets, lookup_firmata, ret; rewrite Hf, Hh.
  - exists (fun pin => (0 <? length (supportedModes pin))%nat &&
                       negb (includes MODES.ANALOG (supportedModes pin))).
    split; [now rewrite forEach_push|].
    intros pin. unfold serves. rewrite andb_true_iff, not_includes, Nat.ltb_lt.
    destruct (supportedModes pin); cbn [length]; split; intros [H1 H2];
      (split; [|exact H2]); try lia; congruence.
  - exists (fun pin => includes MODES.PWM (supportedModes pin) &&
                       negb (includes MODES.ANALOG (supportedModes pin))).
    split; [now rewrite forEach_push|].
    intros pin. unfold serves. now rewrite andb_true_iff, not_includes, includes_In.
  - exists (fun pin => includes MODES.SERVO (supportedModes pin) &&
                       negb (includes MODES.ANALOG (supportedModes pin))).
    split; [now rewrite forEach_push|].
    intros pin. unfold serves. now rewrite andb_true_iff, not_includes, includes_In.
Qed.

Lemma serves_digital (k : PinKind) (pin : Pin) :
  serves k pin -> serves DigitalPins pin.
Proof.
  unfold serves. destruct k; intros [H1 H2]; (split; [|exact H2]);
    try exact H1; intros E; rewrite E in H1; destruct H1.
Qed.

(** [getDigitalPinIndex], [getPWMPinIndex] and [getServoPinIndex] on a
    board without an instance give the empty list. On a board with an
    instance they give, in increasing order and each once, the indices
    of the pins that support some mode, PWM, or SERVO, and that do not
    support ANALOG. So the PWM pins and the servo pins are among the
    digital pins. The board is not changed. *)
Theorem pin_lists_are_the_capable_pins (k : PinKind) (w : World) :
  (firmata (board w) = None -> pinIndex k w = (Ok [], w)) /\
  (forall (f : nat) (fo : Firmata),
     firmata (board w) = Some f ->
     heap w !! f = Some fo ->
     exists l : list nat,
       pinIndex k w = (Ok l, w) /\
       StronglySorted lt l /\
       (forall i : nat,
          In i l <-> exists pin, pins fo !! i = Some pin /\ serves k pin) /\
       (forall l0 : list nat, getDigitalPinIndex w = (Ok l0, w) -> incl l l0)).
Proof.
  split.
  - intros Hf. destruct k; cbn [pinIndex];
      unfold getDigitalPinIndex, getPWMPinIndex, getServoPinIndex, bind, gets, ret;
      now rewrite Hf.
  - intros f fo Hf Hh.
    destruct (pinIndex_positions k w f fo Hf Hh) as (test & E & Ht).
    assert (Hin : forall i, In i (positions test (pins fo) 0) <->
                    exists pin, pins fo !! i = Some pin /\ serves k pin).
    { intros i. rewrite positions_In, Nat.sub_0_r. split.
      - intros (_ & pin & Hp & H). exists pin. split; [exact Hp|now apply Ht].
      - intros (pin & Hp & H). split; [lia|]. exists pin. split; [exact Hp|now apply Ht]. }
    exists (positions test (pins fo) 0).
    split; [exact E|]. split; [apply positions_sorted|]. split; [exact Hin|].
    intros l0 E0.
    destruct (pinIndex_positions DigitalPins w f fo Hf Hh) as (test0 & E1 & Ht0).
    cbn [pinIndex] in E1. rewrite E1 in E0. injection E0 as <-.
    intros i Hi. apply Hin in Hi as (pin & Hp & H).
    apply positions_In. rewrite Nat.sub_0_r. split; [lia|]. exists pin.
    split; [exact Hp|]. apply Ht0. now apply (serves_digital k).
Qed.

Lemma pin_lists_witness :
  firmata (board ready_world) = Some 0%nat /\
  pinIndex DigitalPins ready_world = (Ok [0; 1; 2]%nat, ready_world).
Proof.
  assert (H1 : firmata (board ready_world) = Some 0%nat) by reflexivity.
  assert (H3 : heap ready_world !! 0%nat
               = Some (mkFirmata true false false (map reported three_pins) [2]
                         [on_close; on_disconnect; on_error] 1 0 255))
    by (vm_compute; reflexivity).
  split; [exact H1|].
  destruct (proj2 (pin_lists_are_the_capable_pins DigitalPins ready_world) 0%nat _ H1 H3)
    as (l & E & _).
  rewrite E. f_equal. f_equal.
  assert (E' : pinIndex DigitalPins ready_world = (Ok [0; 1; 2]%nat, ready_world))
    by (vm_compute; reflexivity).
  rewrite E' in E. now injection E.
Defined.

(** [getAllPinIndex] on a board without an instance gives the empty
    list; on a board with an instance it gives the numbers from 0 to the
    number of pins less one: the keys of the pin array, printed and
    parsed back. They are the indices at which the array has a pin. *)
Theorem all_pins_are_numbered (w : World) :
  (firmata (board w) = None -> getAllPinIndex w = (Ok [], w)) /\
  (forall (f : nat) (fo : Firmata),
     firmata (board w) = Some f ->
     heap w !! f = Some fo ->
     getAllPinIndex w
     = (Ok (map (fun i => Some (Z.of_nat i)) (seq 0 (length (pins fo)))), w) /\
     forall z : Z,
       In (Some z) (map (fun i => Some (Z.of_nat i)) (seq 0 (length (pins fo))))
       <-> is_Some (index (pins fo) (Some z))).
Proof.
  split.
  - intros Hf. unfold getAllPinIndex, bind, gets, ret. now rewrite Hf.
  - intros f fo Hf Hh. split.
    + unfold getAllPinIndex, bind, gets, lookup_firmata, ret, Object_keys.
      rewrite Hf, Hh. do 2 f_equal. rewrite map_map.
      apply map_ext. intros i. apply parseInt_toString.
    + intros z. rewrite in_map_iff. unfold index.
      destruct (Z.ltb_spec z 0) as [Hz|Hz].
      * split; [|intros [x H]; discriminate H].
        intros (i & E & _). injection E as E. lia.
      * rewrite lookup_lt_is_Some. split.
        -- intros (i & E & Hi). injection E as <-. apply in_seq in Hi.
           rewrite Nat2Z.id. lia.
        -- intros H. exists (Z.to_nat z). split; [f_equal; lia|].
           apply in_seq. lia.
Qed.

Lemma all_pins_witness :
  firmata (board ready_world) = Some 0%nat /\
  getAllPinIndex ready_world = (Ok [Some 0; Some 1; Some 2], ready_world).
Proof.
  assert (H1 : firmata (board ready_world) = Some 0%nat) by reflexivity.
  assert (H3 : heap ready_world !! 0%nat
               = Some (mkFirmata true false false (map reported three_pins) [2]
                         [on_close; on_disconnect; on_error] 1 0 255))
    by (vm_compute; reflexivity).
  split; [exact H1|].
  exact (proj1 (proj2 (all_pins_are_numbered ready_world) 0%nat _ H1 H3)).
Defined.

End PinListTheorems.

(** ** The pin menus *)

Section Menus.

Import Blocks BlockSpec.

Lemma menu_unfold (k : Spec.PinKind) (b : Blocks) :
  menu k b =
  if negb (isConnected b) then Ok [Placeholder] else
  match board b with
  | None => Throw TypeError
  | Some w =>
      match Spec.pinIndex k w with
      | (Ok pinIndex, _) =>
          Ok (match pinIndex with
              | [] => [Placeholder]
              | _ :: _ => map (fun i => Item (Js.toString i) (Js.toString i)) pinIndex
              end)
      | (Throw r, _) => Throw r
      end
  end.
Proof.
  destruct k; cbn [menu Spec.pinIndex];
    unfold getDigitalPinIndexMenu, getPWMPinIndexMenu, getServoPinIndexMenu;
    destruct (negb (isConnected b)); try reflexivity;
    destruct (board b) as [w|]; try reflexivity;
    match goal with |- context [?c w] => destruct (c w) as [[[|i l]|r] w'] end;
    reflexivity.
Qed.

(** The three pin menus. While the board is not ready a menu is the
    placeholder [''] alone. A menu is never empty. On a ready board it
    has one entry for each pin of the board's list, in the list's order,
    whose value and text are the pin's number in decimal, and
    [parseInt] makes that pin of it again; where the list is empty the
    menu is the placeholder alone, of which [parseInt] makes NaN. *)
Theorem pin_menus_list_the_pins (k : Spec.PinKind) (b : Blocks) :
  (isConnected b = false -> menu k b = Ok [Placeholder]) /\
  (forall m : list MenuItem, menu k b = Ok m -> m <> []) /\
  (forall (w w' : Board.World) (l : list nat),
     isConnected b = true ->
     board b = Some w ->
     Spec.pinIndex k w = (Ok l, w') ->
     exists m : list MenuItem,
       menu k b = Ok m /\
       (l = [] -> m = [Placeholder]) /\
       (l <> [] ->
        m = map (fun i => Item (Js.toString i) (Js.toString i)) l /\
        map item_pin m = map (fun i => Some (Z.of_nat i)) l)) /\
  item_pin Placeholder = None.
Proof.
  rewrite menu_unfold. repeat split.
  - now intros ->.
  - intros m. destruct (negb (isConnected b)); [now intros [= <-]|].
    destruct (board b) as [w|]; [|discriminate].
    destruct (Spec.pinIndex k w) as [[[|i l]|r] w']; [| |discriminate];
      now intros [= <-].
  - intros w w' l -> -> ->. cbn [negb]. eexists. split; [reflexivity|].
    destruct l as [|i l]; (split; [intros E; try discriminate E; reflexivity|]);
      intros Hne; [contradiction|].
    split; [reflexivity|]. rewrite map_map. apply map_ext.
    intros j. apply parseInt_toString.
Qed.

Lemma pin_menus_witness :
  (isConnected (mkBlocks (Some Spec.ready_world)) = true /\
   Spec.pinIndex Spec.PWMPins Spec.ready_world = (Ok [], Spec.ready_world)) /\
  menu Spec.PWMPins (mkBlocks (Some Spec.ready_world)) = Ok [Placeholder] /\
  menu Spec.DigitalPins (mkBlocks None) = Ok [Placeholder].
Proof.
  assert (H1 : isConnected (mkBlocks (Some Spec.ready_world)) = true)
    by (vm_compute; reflexivity).
  assert (H2 : Spec.pinIndex Spec.PWMPins Spec.ready_world = (Ok [], Spec.ready_world))
    by (vm_compute; reflexivity).
  split; [split; assumption|]. split.
  - destruct (pin_menus_list_the_pins Spec.PWMPins (mkBlocks (Some Spec.ready_world)))
      as (_ & _ & H & _).
    destruct (H _ _ _ H1 eq_refl H2) as (m & E & Hm & _).
    rewrite E. f_equal. now apply Hm.
  - now apply (pin_menus_list_the_pins Spec.DigitalPins (mkBlocks None)).
Defined.

End Menus.

(** ** More of the blocks *)

Section MoreBlocks.

Import Blocks BlockSpec.

Variable Cast_toNumber : JsValue -> Q.
Variable Cast_toBoolean : JsValue -> bool.
Variable parseInt : JsValue -> JsIndex.

Local Abbreviation setAnalogLevel := (Blocks.setAnalogLevel Cast_toNumber parseInt).
Local Abbreviation setDigitalLevel :=
  (Blocks.setDigitalLevel Cast_toNumber Cast_toBoolean parseInt).
Local Abbreviation getDigitalLevel := (Blocks.getDigitalLevel Cast_toNumber parseInt).

Lemma fraction_range (p : Q) :
  (0 <= p)%Q -> (p <= 100)%Q -> (0 <= p / 100 /\ p / 100 <= 1)%Q.
Proof.
  destruct p as [n d]. unfold Qle, Qdiv, Qmult, Qinv. cbn.
  rewrite ?Pos.mul_1_l, ?Pos.mul_1_r. lia.
Qed.

Lemma scaled_range (r : Z) (t : Q) :
  0 <= r -> (0 <= t)%Q -> (t <= 1)%Q ->
  0 <= Math_round (inject_Z r * t) <= r.
Proof.
  intros Hr H0 H1.
  assert (Hq : (0 <= inject_Z r)%Q) by (unfold Qle; cbn; lia).
  apply Math_round_range.
  - now apply Qmult_le_0_compat.
  - rewrite <- (Qmult_1_r (inject_Z r)) at 2.
    apply Qmult_le_compat_nonneg; split; try assumption. apply Qle_refl.
Qed.

Lemma Math_round_whole (r : Z) (x : Q) : (x == inject_Z r)%Q -> Math_round x = r.
Proof.
  intros E. unfold Math_round. rewrite E. unfold Qplus, inject_Z, Qfloor. cbn.
  symmetry. apply (Z.div_unique _ 2 r 1); lia.
Qed.

(** [setAnalogLevel] makes of [LEVEL] a percentage between 0 and 100. On
    a ready board with a pin assigned and a working instance it asks for
    the mode PWM and then writes one value, which lies between 0 and
    the resolution of the board, is 0 for 0 percent and the resolution
    for 100 percent, and it hands back the board's pacing promise. How
    the value between the two ends is rounded is not said. *)
Theorem pwm_value_is_within_the_resolution (args : Args) (b : Blocks) :
  let percent := Qmin (Qmax (Cast_toNumber (LEVEL args)) 0) 100 in
  (0 <= percent /\ percent <= 100)%Q /\
  forall (w : Board.World) (f : nat) (fo : Board.Firmata),
    board b = Some w ->
    isConnected b = true ->
    PIN args <> VStr EmptyString ->
    Board.firmata (Board.board w) = Some f ->
    Board.heap w !! f = Some fo ->
    Board.throws fo = false ->
    0 <= Board.RESOLUTION_PWM fo ->
    exists (w1 : Board.World) (value : Z),
      setAnalogLevel args b = (Sending (length (Board.cells w)), mkBlocks (Some w1)) /\
      Board.cells w1 = Board.cells w ++ [Board.SentCell Pending] /\
      Board.log w1 =
        Board.log w ++
        [Board.Sent f (Board.c_pinMode (parseInt (PIN args)) Board.MODES.PWM);
         Board.Sent f (Board.c_pwmWrite (parseInt (PIN args)) value)] /\
      0 <= value <= Board.RESOLUTION_PWM fo /\
      ((percent == 0)%Q -> value = 0) /\
      ((percent == 100)%Q -> value = Board.RESOLUTION_PWM fo).
Proof.
  intros percent.
  assert (Hp : (0 <= percent /\ percent <= 100)%Q).
  { subst percent. split.
    - apply Q.min_glb; [apply Q.le_max_r|easy].
    - apply Q.le_min_r. }
  split; [exact Hp|].
  intros w f fo Hb Hc Hpin Hf Hh Hth Hr.
  set (value := Math_round (inject_Z (Board.RESOLUTION_PWM fo) * (percent / 100))).
  assert (Hv : 0 <= value <= Board.RESOLUTION_PWM fo).
  { destruct Hp as [H0 H1]. destruct (fraction_range percent H0 H1).
    now apply scaled_range. }
  assert (Hv0 : (percent == 0)%Q -> value = 0).
  { intros E. apply (Math_round_whole 0). rewrite E. unfold Qeq. cbn. lia. }
  assert (Hv1 : (percent == 100)%Q -> value = Board.RESOLUTION_PWM fo).
  { intros E. apply Math_round_whole. rewrite E. unfold Qeq. cbn. lia. }
  unfold Blocks.setAnalogLevel, on_board. rewrite Hc, (is_empty_false _ Hpin), Hb.
  fold percent.
  destruct w as [[st fm ext pi a1 a2 a3 a4 a5 a6] h c t ce oo lg].
  cbn -[lookup] in Hf, Hh. subst fm.
  revert Hv Hv0 Hv1. subst value. clearbody percent.
  generalize Math_round as round. intros round Hv Hv0 Hv1.
  unfold Board.get_RESOLUTION_PWM, Board.pwmWrite.
  cbn [negb]. go.
  eexists. eexists. split; [reflexivity|]. cbn. split; [reflexivity|].
  split; [now rewrite <- app_assoc|]. split; [exact Hv|]. split; assumption.
Qed.

(** [setDigitalLevel] writes the board's HIGH when [Cast.toBoolean] of
    [LEVEL] is true or [Cast.toNumber] of it is above 0, and the board's
    LOW otherwise: on a ready board with a pin assigned and a working
    instance it asks for the mode OUTPUT and then writes that level. *)
Theorem digital_level_is_high_or_low
    (args : Args) (b : Blocks) (w : Board.World) (f : nat) (fo : Board.Firmata) :
  board b = Some w ->
  isConnected b = true ->
  PIN args <> VStr EmptyString ->
  Board.firmata (Board.board w) = Some f ->
  Board.heap w !! f = Some fo ->
  Board.throws fo = false ->
  exists (w1 : Board.World) (level : Z),
    setDigitalLevel args b = (Sending (length (Board.cells w)), mkBlocks (Some w1)) /\
    Board.log w1 =
      Board.log w ++
      [Board.Sent f (Board.c_pinMode (parseInt (VNum (Cast_toNumber (PIN args))))
                       Board.MODES.OUTPUT);
       Board.Sent f (Board.c_digitalWrite (parseInt (VNum (Cast_toNumber (PIN args))))
                       level false)] /\
    (Cast_toBoolean (LEVEL args) = true \/ (0 < Cast_toNumber (LEVEL args))%Q ->
     level = Board.HIGH fo) /\
    (Cast_toBoolean (LEVEL args) = false -> (Cast_toNumber (LEVEL args) <= 0)%Q ->
     level = Board.LOW fo).
Proof.
  intros Hb Hc Hpin Hf Hh Hth.
  unfold Blocks.setDigitalLevel, on_board. rewrite Hc, (is_empty_false _ Hpin), Hb.
  destruct w as [[st fm ext pi a1 a2 a3 a4 a5 a6] h c t ce oo lg].
  cbn -[lookup] in Hf, Hh. subst fm.
  set (high := Cast_toBoolean (LEVEL args) || _ || false || false).
  assert (Hhigh : high = true <->
            Cast_toBoolean (LEVEL args) = true \/ (0 < Cast_toNumber (LEVEL args))%Q).
  { subst high. rewrite !orb_false_r, orb_true_iff.
    destruct (Qlt_le_dec 0 (Cast_toNumber (LEVEL args))) as [H|H].
    - tauto.
    - split; [intros [E|E]; [now left|discriminate]|].
      intros [E|E]; [now left|]. exfalso. now apply (Qlt_not_le _ _ E). }
  unfold Board.get_HIGH, Board.get_LOW, Board.digitalWrite.
  cbn [negb]. destruct high; go; do 2 eexists;
    (split; [reflexivity|]); cbn; rewrite <- app_assoc;
    (split; [reflexivity|]); split; try reflexivity.
  - intros E1 E2. destruct Hhigh as [Hhigh _]. destruct (Hhigh eq_refl) as [E|E].
    + congruence.
    + exfalso. now apply (Qlt_not_le _ _ E).
  - intros H. apply Hhigh in H. discriminate H.
Qed.

(** [getDigitalLevel] on a ready board with a pin assigned: what it
    returns settles as the board's [updateDigitalInput] does, through
    its callbacks, which make false of the sample 0, true of any other
    sample and false of a rejection, so that the block's promise is
    never rejected. A pin the board does not have makes the block raise
    a TypeError, and the board is as it was. *)
Theorem digital_level_block_reads_the_pin
    (args : Args) (b : Blocks) (w : Board.World) :
  board b = Some w ->
  isConnected b = true ->
  PIN args <> VStr EmptyString ->
  let pin := parseInt (VNum (Cast_toNumber (PIN args))) in
  (forall v : Z,
     callbacks then_digitalLevel (Resolved v) = Resolved (VBool (negb (v =? 0)))) /\
  (forall (k : Then) (s : Settled Z) (reason : Reason),
     callbacks k s <> Rejected reason) /\
  (forall (r : Promise Z) (w1 : Board.World),
     Board.updateDigitalInput pin w = (Ok r, w1) ->
     exists o, getDigitalLevel args b = (o, mkBlocks (Some w1)) /\
       forall w2 : Board.World,
         settled o (mkBlocks (Some w2)) = callbacks then_digitalLevel (read_state r w2)) /\
  (Board.the_pin w pin = None ->
   getDigitalLevel args b = (Raises TypeError, mkBlocks (Some w))).
Proof.
  intros Hb Hc Hpin pin. split; [reflexivity|]. split; [|split].
  - intros k s reason. destruct s, k; discriminate.
  - intros r w1 Hr. unfold Blocks.getDigitalLevel, on_board.
    rewrite Hc, (is_empty_false _ Hpin), Hb. fold pin. rewrite Hr. cbn.
    eexists; split; [reflexivity|]. intros w2.
    destruct r as [s|p]; cbn; [reflexivity|].
    destruct (Board.cells w2 !! p) as [[s|pin' s|s]|]; reflexivity.
  - intros Hnone. unfold Blocks.getDigitalLevel, on_board.
    rewrite Hc, (is_empty_false _ Hpin), Hb. fold pin.
    unfold Board.updateDigitalInput, Board.bind, Board.this_pin. now rewrite Hnone.
Qed.

End MoreBlocks.

Section MoreBlockWitnesses.

Import Blocks BlockSpec.

Lemma pwm_value_witness :
  (board (mkBlocks (Some Spec.ready_world)) = Some Spec.ready_world /\
   isConnected (mkBlocks (Some Spec.ready_world)) = true /\
   PIN some_args <> VStr EmptyString) /\
  exists w1 value,
    Blocks.setAnalogLevel toNumber toIndex some_args (mkBlocks (Some Spec.ready_world))
    = (Sending 1, mkBlocks (Some w1)) /\ 0 <= value <= 255.
Proof.
  assert (H1 : board (mkBlocks (Some Spec.ready_world)) = Some Spec.ready_world)
    by reflexivity.
  assert (H2 : isConnected (mkBlocks (Some Spec.ready_world)) = true)
    by (vm_compute; reflexivity).
  assert (H3 : PIN some_args <> VStr EmptyString) by discriminate.
  assert (H4 : Board.heap Spec.ready_world !! 0%nat
               = Some (Board.mkFirmata true false false
                         (map Board.reported Spec.three_pins) [2]
                         [Board.on_close; Board.on_disconnect; Board.on_error] 1 0 255))
    by (vm_compute; reflexivity).
  assert (H5 : 0 <= 255) by lia.
  split; [repeat split; assumption|].
  destruct (proj2 (pwm_value_is_within_the_resolution toNumber toIndex some_args
                     (mkBlocks (Some Spec.ready_world)))
              _ 0%nat _ H1 H2 H3 eq_refl H4 eq_refl H5)
    as (w1 & value & E & _ & _ & Hv & _).
  exists w1, value. split; [exact E|exact Hv].
Defined.

Lemma digital_level_witness :
  (board (mkBlocks (Some Spec.ready_world)) = Some Spec.ready_world /\
   isConnected (mkBlocks (Some Spec.ready_world)) = true /\
   PIN some_args <> VStr EmptyString) /\
  exists w1 level,
    Blocks.setDigitalLevel toNumber toBoolean toIndex some_args
      (mkBlocks (Some Spec.ready_world))
    = (Sending 1, mkBlocks (Some w1)) /\ level = 1.
Proof.
  assert (H1 : board (mkBlocks (Some Spec.ready_world)) = Some Spec.ready_world)
    by reflexivity.
  assert (H2 : isConnected (mkBlocks (Some Spec.ready_world)) = true)
    by (vm_compute; reflexivity).
  assert (H3 : PIN some_args <> VStr EmptyString) by discriminate.
  assert (H4 : Board.heap Spec.ready_world !! 0%nat
               = Some (Board.mkFirmata true false false
                         (map Board.reported Spec.three_pins) [2]
                         [Board.on_close; Board.on_disconnect; Board.on_error] 1 0 255))
    by (vm_compute; reflexivity).
  split; [repeat split; assumption|].
  destruct (digital_level_is_high_or_low toNumber toBoolean toIndex some_args
              _ _ 0%nat _ H1 H2 H3 eq_refl H4 eq_refl)
    as (w1 & level & E & _ & Hhigh & _).
  exists w1, level. split; [exact E|].
  apply Hhigh. left. reflexivity.
Defined.

Lemma digital_level_block_witness :
  (board (mkBlocks (Some Spec.ready_world)) = Some Spec.ready_world /\
   isConnected (mkBlocks (Some Spec.ready_world)) = true /\
   PIN some_args <> VStr EmptyString) /\
  callbacks then_digitalLevel (Resolved 0) = Resolved (VBool false).
Proof.
  assert (H1 : board (mkBlocks (Some Spec.ready_world)) = Some Spec.ready_world)
    by reflexivity.
  assert (H2 : isConnected (mkBlocks (Some Spec.ready_world)) = true)
    by (vm_compute; reflexivity).
  assert (H3 : PIN some_args <> VStr EmptyString) by discriminate.
  split; [repeat split; assumption|].
  exact (proj1 (digital_level_block_reads_the_pin toNumber toIndex some_args
                  _ _ H1 H2 H3) 0).
Defined.

End MoreBlockWitnesses.

(** ** Finding a board *)

Section FindBoard.

Import Connector.

Lemma option_Z_eqb_eq (a b : option Z) : option_Z_eqb a b = true <-> a = b.
Proof.
  destruct a as [x|], b as [y|]; cbn; try (split; [discriminate|discriminate]).
  - rewrite Z.eqb_eq. split; congruence.
  - tauto.
Qed.

(** What [this.boards.find(...)] has found, and what it has passed. *)
Lemma find_Some (filters : list Filter) (st : list Board.World) (bs : list nat) (b : nat) :
  find filters st bs = Ok (Some b) ->
  exists (i : nat) (w : Board.World),
    bs !! i = Some b /\ st !! b = Some w /\ confirmed filters w = Ok true /\
    forall (j b' : nat), (j < i)%nat -> bs !! j = Some b' ->
      exists w', st !! b' = Some w' /\ confirmed filters w' = Ok false.
Proof.
  induction bs as [|x bs IH]; cbn; [discriminate|].
  destruct (st !! x) as [w|] eqn:Hx; [|discriminate].
  destruct (confirmed filters w) as [[|]|r] eqn:Hc; [| |discriminate].
  - intros [= <-]. exists 0%nat, w. repeat split; try assumption. intros j b' Hj. lia.
  - intros H. destruct (IH H) as (i & w' & Hi & Hb & Hw & Hbefore).
    exists (S i), w'. repeat split; try assumption.
    intros [|j] b' Hj; cbn.
    + intros [= <-]. eauto.
    + apply Hbefore. lia.
Qed.

Lemma find_None (filters : list Filter) (st : list Board.World) (bs : list nat) :
  find filters st bs = Ok None ->
  forall b, In b bs -> exists w, st !! b = Some w /\ confirmed filters w = Ok false.
Proof.
  induction bs as [|x bs IH]; cbn; [intros _ b []|].
  destruct (st !! x) as [w|] eqn:Hx; [|discriminate].
  destruct (confirmed filters w) as [[|]|r] eqn:Hc; [discriminate| |discriminate].
  intros H b [<-|Hb]; [eauto|now apply IH].
Qed.

Lemma confirmed_true (filters : list Filter) (w : Board.World) :
  confirmed filters w = Ok true ->
  Board.isConnected w = true /\
  exists info flt,
    Board.portInfo (Board.board w) = Some info /\ In flt filters /\
    filter_usbVendorId flt = Board.usbVendorId info /\
    filter_usbProductId flt = Board.usbProductId info.
Proof.
  unfold confirmed. destruct (Board.isConnected w); cbn [negb]; [|discriminate].
  destruct filters as [|flt0 filters]; [discriminate|].
  set (l := flt0 :: filters).
  destruct (Board.portInfo (Board.board w)) as [info|]; [|discriminate].
  intros H. assert (H' := f_equal (fun r => match r with Ok x => x | Throw _ => false end) H).
  cbv beta iota in H'. clear H. rename H' into H. split; [reflexivity|].
  apply existsb_exists in H as (flt & Hin & H).
  apply andb_true_iff in H as [H1 H2]. apply option_Z_eqb_eq in H1, H2.
  exists info, flt. auto.
Qed.

(** [findBoard]: nothing in an empty registry, whatever the options;
    the first board, connected or not, when there are no options or no
    filters in them; and with filters the first board in the registry
    that is connected and whose port has the vendor and product id of
    one of the filters, or nothing where no board is so. With an empty
    list of filters no board is found. *)
Theorem findBoard_finds_the_first_match (options : Options) (c : State) :
  (boards c = [] -> findBoard options c = Ok None) /\
  (forall first rest,
     boards c = first :: rest ->
     options = None \/ options = Some None ->
     findBoard options c = Ok (Some first)) /\
  (forall filters b,
     options = Some (Some filters) ->
     findBoard options c = Ok (Some b) ->
     exists (i : nat) (w : Board.World) (info : Board.PortInfo) (flt : Filter),
       boards c !! i = Some b /\ store c !! b = Some w /\
       Board.isConnected w = true /\
       Board.portInfo (Board.board w) = Some info /\ In flt filters /\
       filter_usbVendorId flt = Board.usbVendorId info /\
       filter_usbProductId flt = Board.usbProductId info /\
       forall (j b' : nat), (j < i)%nat -> boards c !! j = Some b' ->
         exists w', store c !! b' = Some w' /\ confirmed filters w' = Ok false) /\
  (forall filters,
     options = Some (Some filters) ->
     findBoard options c = Ok None ->
     forall b, In b (boards c) ->
       exists w, store c !! b = Some w /\ confirmed filters w = Ok false) /\
  (forall b, options = Some (Some []) -> findBoard options c <> Ok (Some b)).
Proof.
  repeat split.
  - intros H. unfold findBoard. now rewrite H.
  - intros first rest H [-> | ->]; unfold findBoard; now rewrite H.
  - intros filters b -> H. unfold findBoard in H.
    destruct (boards c) as [|first rest] eqn:Hbs; [discriminate|].
    destruct (find_Some _ _ _ _ H) as (i & w & Hi & Hb & Hw & Hbefore).
    destruct (confirmed_true _ _ Hw) as (Hc & info & flt & Hinfo & Hin & Hv & Hp).
    exists i, w, info, flt. repeat split; assumption.
  - intros filters -> H b Hb. unfold findBoard in H.
    destruct (boards c) as [|first rest] eqn:Hbs; [destruct Hb|].
    now apply (find_None _ _ _ H).
  - intros b -> H. unfold findBoard in H.
    destruct (boards c) as [|first rest] eqn:Hbs; [discriminate|].
    destruct (find_Some _ _ _ _ H) as (i & w & _ & _ & Hw & _).
    destruct (confirmed_true _ _ Hw) as (_ & info & flt & _ & [] & _).
Qed.

Lemma findBoard_witness :
  boards (addBoard 3 (addBoard 7 (new_State true 0))) = [7; 3]%nat /\
  findBoard (Some None) (addBoard 3 (addBoard 7 (new_State true 0))) = Ok (Some 7%nat).
Proof.
  assert (H : boards (addBoard 3 (addBoard 7 (new_State true 0))) = [7; 3]%nat)
    by reflexivity.
  split; [exact H|].
  destruct (findBoard_finds_the_first_match (Some None)
              (addBoard 3 (addBoard 7 (new_State true 0)))) as (_ & Hfirst & _).
  apply (Hfirst 7%nat [3%nat] H). now right.
Defined.

(** Where the browser has no Web Serial, [connectSerial] is rejected at
    once, and so is [connectedBoard] on an empty registry: no board is
    constructed and nothing is emitted. *)
Theorem without_web_serial_nothing_connects (extensionId : string) (c : State) :
  serial c = false ->
  connectSerial extensionId c
  = (Now (Rejected (Failure "This browser does not support Web Serial API.")), c) /\
  (boards c = [] ->
   connectedBoard extensionId c
   = (Now (Rejected (Failure "This browser does not support Web Serial API.")), c)).
Proof.
  intros H. split.
  - unfold connectSerial. now rewrite H.
  - intros Hb. unfold connectedBoard, findBoard, connectSerial. now rewrite Hb, H.
Qed.

Lemma without_web_serial_witness :
  serial (new_State false 0) = false /\
  connectedBoard "xcxArduino" (new_State false 0)
  = (Now (Rejected (Failure "This browser does not support Web Serial API.")),
     new_State false 0).
Proof.
  assert (H : serial (new_State false 0) = false) by reflexivity.
  split; [exact H|].
  now apply (without_web_serial_nothing_connects "xcxArduino" (new_State false 0) H).
Defined.

End FindBoard.

(** * What holds along every run of a board *)

(** ** Going through the methods *)

Section Walk.

Import Board Spec.

Context {A B : Type}.

Variable R : World -> World -> Prop.
Hypothesis R_refl : forall w, R w w.
Hypothesis R_trans : forall w1 w2 w3, R w1 w2 -> R w2 w3 -> R w1 w3.

Lemma respects_pure (c : M A) : (forall w, snd (c w) = w) -> respects R c.
Proof. intros H w. rewrite H. apply R_refl. Qed.

Lemma respects_bind (c : M A) (k : A -> M B) :
  respects R c -> (forall a, respects R (k a)) -> respects R (bind c k).
Proof.
  intros Hc Hk w. unfold bind. specialize (Hc w).
  destruct (c w) as [[a|r] w1]; cbn in *; [|exact Hc].
  eapply R_trans; [exact Hc|apply Hk].
Qed.

Lemma respects_attempt (c : M A) : respects R c -> respects R (attempt c).
Proof. intros Hc w. unfold attempt. specialize (Hc w). now destruct (c w). Qed.

Lemma respects_fold (step : A -> World -> World) (l : list A) (w : World) :
  (forall a w, R w (step a w)) -> R w (fold_left (fun w a => step a w) l w).
Proof.
  intros H. revert w; induction l as [|a l IH]; intros w; cbn; [apply R_refl|].
  eapply R_trans; [apply H|apply IH].
Qed.

End Walk.

(** One step through a method: [refl] and [trans] are the proofs that
    the relation is a preorder, [prim] deals with the assignments. *)
Ltac walk_step refl trans prim :=
  match goal with
  | |- Spec.respects _ (Board.bind _ _) =>
      apply (respects_bind _ trans); [|intros ?]
  | |- Spec.respects _ (Board.ret _) => apply (respects_pure _ refl); reflexivity
  | |- Spec.respects _ (Board.throw _) => apply (respects_pure _ refl); reflexivity
  | |- Spec.respects _ (Board.gets _) => apply (respects_pure _ refl); reflexivity
  | |- Spec.respects _ (Board.holds _) => apply (respects_pure _ refl); reflexivity
  | |- Spec.respects _ Board.this_firmata =>
      apply (respects_pure _ refl); intros ?w; unfold Board.this_firmata;
      now destruct (Board.firmata (Board.board _))
  | |- Spec.respects _ (Board.lookup_firmata _) =>
      apply (respects_pure _ refl); intros ?w; unfold Board.lookup_firmata;
      now destruct (Board.heap _ !! _)
  | |- Spec.respects _ (Board.this_pin _) =>
      apply (respects_pure _ refl); intros ?w; unfold Board.this_pin;
      now destruct (Board.the_pin _ _)
  | |- Spec.respects _ (Board.attempt _) => apply respects_attempt
  | |- Spec.respects _ (if ?b then _ else _) => destruct b
  | |- Spec.respects _ (match ?x with _ => _ end) => destruct x
  | |- Spec.respects _ _ => solve [auto with walk]
  | |- Spec.respects _ _ => solve [prim]
  end.

Create HintDb walk discriminated.

(** ** Losing the connection *)

Section Announced.

Import Board Spec.

Lemma announced_refl (w : World) : announced w w.
Proof. split; [lia|tauto]. Qed.

Lemma announced_trans (w1 w2 w3 : World) :
  announced w1 w2 -> announced w2 w3 -> announced w1 w3.
Proof.
  intros [H1 H2] [H3 H4]. split; [lia|].
  intros E Ha. apply H4; [lia|]. apply H2; [lia|exact Ha].
Qed.

(** Neither the log nor what makes the board attached is touched. *)
Lemma announced_fields (w w' : World) :
  log w' = log w ->
  state (board w') = state (board w) ->
  (firmata (board w) <> None -> firmata (board w') <> None) ->
  announced w w'.
Proof.
  intros Hl Hs Hf. split; [rewrite Hl; lia|].
  intros _ [Hc Hn]. split; [|now apply Hf].
  unfold isConnected in *. now rewrite Hs.
Qed.

Lemma announced_emit (w : World) (e : Effect) :
  announced w (with_log (log w ++ [e]) w).
Proof.
  split; cbn [log with_log]; rewrite released_app; [lia|].
  destruct e; cbn; intros E; try lia; intros H; exact H.
Qed.

Lemma announced_attached (w w' : World) :
  (released (log w) <= released (log w'))%nat -> attached w' -> announced w w'.
Proof. intros H Ha. split; [exact H|]. intros _ _. exact Ha. Qed.

Lemma announced_more (w w' : World) :
  (released (log w) < released (log w'))%nat -> announced w w'.
Proof. intros H. split; [lia|]. intros E. lia. Qed.

Ltac announced_prim :=
  intros ?w; cbn -[lookup alter insert];
  first [ apply announced_emit
        | apply announced_fields; [reflexivity|reflexivity|cbn; congruence] ].

Ltac walk := repeat walk_step announced_refl announced_trans announced_prim.

Lemma announced_send (c : Command) : respects announced (send c).
Proof. unfold send. walk. Qed.
#[local] Hint Resolve announced_send : walk.

Lemma announced_set_this_pin pin g : respects announced (set_this_pin pin g).
Proof. unfold set_this_pin. walk. Qed.
#[local] Hint Resolve announced_set_this_pin : walk.

Lemma announced_settle_read p o : respects announced (settle_read p o).
Proof. unfold settle_read. walk. Qed.
#[local] Hint Resolve announced_settle_read : walk.

Lemma announced_settle_sent p o : respects announced (settle_sent p o).
Proof. unfold settle_sent. walk. Qed.
#[local] Hint Resolve announced_settle_sent : walk.

Lemma announced_releaseBoard : respects announced releaseBoard.
Proof.
  intros w. apply announced_more.
  destruct (releaseBoard_log w) as (l & E & Hl). fold (exec releaseBoard w).
  rewrite E, !released_app, Hl. cbn. lia.
Qed.
#[local] Hint Resolve announced_releaseBoard : walk.

Lemma announced_disconnect : respects announced disconnect.
Proof. unfold disconnect. walk. Qed.
#[local] Hint Resolve announced_disconnect : walk.

Lemma announced_handleDisconnectError : respects announced handleDisconnectError.
Proof. unfold handleDisconnectError. walk. Qed.
#[local] Hint Resolve announced_handleDisconnectError : walk.

(** [connectSerial] changes the state only of a board without an
    instance. *)
Lemma announced_connectSerial : respects announced connectSerial.
Proof.
  intros [[st fm ext pi a1 a2 a3 a4 a5 a6] h c t ce o l].
  unfold connectSerial. js. destruct fm as [f|]; js; [apply announced_refl|].
  split; [cbn; lia|]. intros _ [_ H]. now contradiction H.
Qed.
#[local] Hint Resolve announced_connectSerial : walk.

(** "ready" is for an instance the board holds. *)
Lemma announced_onBoarReady : respects announced onBoarReady.
Proof.
  intros [[st fm ext pi a1 a2 a3 a4 a5 a6] h c t ce o l].
  unfold onBoarReady. js. destruct fm as [f|]; js; [|apply announced_refl].
  destruct (h !! f) as [fo|]; js; [|apply announced_refl].
  destruct (throws fo); js; [apply announced_refl|].
  apply announced_attached.
  - cbn -[released]. rewrite released_app. lia.
  - split; [reflexivity|discriminate].
Qed.
#[local] Hint Resolve announced_onBoarReady : walk.

Lemma announced_resolve_connect p : respects announced (resolve_connect p).
Proof. unfold resolve_connect. walk. Qed.
#[local] Hint Resolve announced_resolve_connect : walk.

Lemma announced_run_handler f h v : respects announced (run_handler f h v).
Proof.
  destruct h; cbn [run_handler]; try (walk; fail).
  (* "open" *)
  intros [[st fm ext pi a1 a2 a3 a4 a5 a6] hp c t ce o l]. js.
  destruct fm as [g|]; js; [|apply announced_refl].
  destruct (Nat.eqb g f); js; [|apply announced_refl].
  apply announced_attached; [cbn -[released]; lia|]. split; [reflexivity|discriminate].
Qed.
#[local] Hint Resolve announced_run_handler : walk.

Lemma announced_run_handlers f hs v : respects announced (run_handlers f hs v).
Proof. induction hs; cbn [run_handlers]; walk. Qed.
#[local] Hint Resolve announced_run_handlers : walk.

Lemma announced_fire_all ts : respects announced (fire_all ts).
Proof. induction ts; cbn [fire_all]; unfold fire; walk. Qed.
#[local] Hint Resolve announced_fire_all : walk.

Lemma announced_paced (c : M unit) :
  respects announced c -> respects announced (paced c).
Proof. intros H. unfold paced. walk. Qed.

Lemma announced_handle (e : Event) : respects announced (handle e).
Proof.
  destruct e; cbn [handle].
  - unfold port_opened, setupFirmata, landed, once. walk.
  - unfold reject_connect, landed. walk.
  - unfold deliver. walk.
  - unfold elapse. walk.
  - walk.
Qed.

Lemma announced_invoke (c : Call) : respects announced (invoke c).
Proof.
  destruct c; cbn [invoke]; try (walk; fail).
  - destruct i; cbn [update]; unfold updateDigitalInput, updateAnalogInput; walk.
  - unfold setInputBias, pinMode.
    walk_step announced_refl announced_trans announced_prim; [|walk].
    walk_step announced_refl announced_trans announced_prim; [walk|].
    apply announced_paced. walk.
  - unfold pinMode. walk.
  - walk_step announced_refl announced_trans announced_prim; [|walk].
    apply announced_paced. walk.
  - walk_step announced_refl announced_trans announced_prim; [|walk].
    apply announced_paced. walk.
  - walk_step announced_refl announced_trans announced_prim; [|walk].
    apply announced_paced. walk.
Qed.

Lemma announced_perform (a : Action) (w : World) : announced w (perform a w).
Proof.
  destruct a as [e|c]; cbn [perform].
  - apply announced_handle.
  - apply announced_invoke.
Qed.

(** Whatever is called on a board and whatever happens to it, in any
    number of steps: a board that was connected and held an instance,
    and that is not connected any more, or holds no instance any more,
    has emitted RELEASED in between; and the count of RELEASED never
    goes down. *)
Theorem lost_connection_is_announced (acts : list Action) (w : World) :
  let w' := fold_left (fun w a => perform a w) acts w in
  (released (log w) <= released (log w'))%nat /\
  (isConnected w = true -> firmata (board w) <> None ->
   isConnected w' = false \/ firmata (board w') = None ->
   (released (log w) < released (log w'))%nat).
Proof.
  intros w'.
  assert (H : announced w w').
  { subst w'. apply (respects_fold announced announced_refl announced_trans).
    intros a w0. apply announced_perform. }
  destruct H as [H1 H2]. split; [exact H1|].
  intros Hc Hf Hlost.
  destruct (Nat.eq_dec (released (log w')) (released (log w))) as [E|E]; [|lia].
  destruct (H2 E (conj Hc Hf)) as [Hc' Hf'].
  destruct Hlost as [Hl|Hl]; congruence.
Qed.

Lemma lost_connection_is_announced_witness :
  let w' := fold_left (fun w a => perform a w) [Inside do_disconnect] ready_world in
  (isConnected ready_world = true /\ firmata (board ready_world) <> None /\
   isConnected w' = false) /\
  (released (log ready_world) < released (log w'))%nat.
Proof.
  intros w'.
  assert (H1 : isConnected ready_world = true) by (vm_compute; reflexivity).
  assert (H2 : firmata (board ready_world) <> None) by (vm_compute; discriminate).
  assert (H3 : isConnected w' = false) by (vm_compute; reflexivity).
  split; [repeat split; assumption|].
  exact (proj2 (lost_connection_is_announced [Inside do_disconnect] ready_world)
           H1 H2 (or_introl H3)).
Defined.

End Announced.

(** ** The instance of a connected board *)

Section Grounded.

Import Board Spec.

Lemma stays_refl (I : World -> Prop) (w : World) : stays I w w.
Proof. intros H. exact H. Qed.

Lemma stays_trans (I : World -> Prop) (w1 w2 w3 : World) :
  stays I w1 w2 -> stays I w2 w3 -> stays I w1 w3.
Proof. unfold stays. tauto. Qed.

(** Neither the state nor the instance held is touched, and no instance
    is dropped from the store. *)
Lemma grounded_fields (w w' : World) :
  state (board w') = state (board w) ->
  firmata (board w') = firmata (board w) ->
  (length (heap w) <= length (heap w'))%nat ->
  stays grounded w w'.
Proof.
  intros Hs Hf Hh [H1 H2]. split.
  - unfold isConnected in *. rewrite Hs, Hf. exact H1.
  - intros f E. rewrite Hf in E. specialize (H2 f E). lia.
Qed.

(** A board that holds nothing and is not connected. *)
Lemma grounded_loose (w w' : World) :
  isConnected w' = false -> firmata (board w') = None -> stays grounded w w'.
Proof.
  intros Hc Hf _. split.
  - rewrite Hc. discriminate.
  - rewrite Hf. discriminate.
Qed.

Ltac grounded_prim :=
  intros ?w; cbn -[lookup alter insert];
  apply grounded_fields;
  [reflexivity|reflexivity|cbn; rewrite ?length_alter, ?length_app; lia].

Ltac walk :=
  repeat walk_step (stays_refl grounded) (stays_trans grounded) grounded_prim.

Lemma grounded_send (c : Command) : respects (stays grounded) (send c).
Proof. unfold send. walk. Qed.
#[local] Hint Resolve grounded_send : walk.

Lemma grounded_set_this_pin pin g : respects (stays grounded) (set_this_pin pin g).
Proof. unfold set_this_pin. walk. Qed.
#[local] Hint Resolve grounded_set_this_pin : walk.

Lemma grounded_settle_read p o : respects (stays grounded) (settle_read p o).
Proof. unfold settle_read. walk. Qed.
#[local] Hint Resolve grounded_settle_read : walk.

Lemma grounded_settle_sent p o : respects (stays grounded) (settle_sent p o).
Proof. unfold settle_sent. walk. Qed.
#[local] Hint Resolve grounded_settle_sent : walk.

Lemma grounded_releaseBoard : respects (stays grounded) releaseBoard.
Proof.
  intros w. fold (exec releaseBoard w).
  apply grounded_loose; now rewrite ?releaseBoard_board; unfold isConnected;
    rewrite ?releaseBoard_board.
Qed.
#[local] Hint Resolve grounded_releaseBoard : walk.

Lemma grounded_disconnect : respects (stays grounded) disconnect.
Proof. unfold disconnect. walk. Qed.
#[local] Hint Resolve grounded_disconnect : walk.

Lemma grounded_handleDisconnectError : respects (stays grounded) handleDisconnectError.
Proof. unfold handleDisconnectError. walk. Qed.
#[local] Hint Resolve grounded_handleDisconnectError : walk.

Lemma grounded_connectSerial : respects (stays grounded) connectSerial.
Proof.
  intros [[st fm ext pi a1 a2 a3 a4 a5 a6] h c t ce o l].
  unfold connectSerial. js. destruct fm as [f|]; js; [apply stays_refl|].
  now apply grounded_loose.
Qed.
#[local] Hint Resolve grounded_connectSerial : walk.

Lemma grounded_onBoarReady : respects (stays grounded) onBoarReady.
Proof.
  intros [[st fm ext pi a1 a2 a3 a4 a5 a6] h c t ce o l].
  unfold onBoarReady. js. destruct fm as [f|]; js; [|apply stays_refl].
  destruct (h !! f) as [fo|]; js; [|apply stays_refl].
  destruct (throws fo); js; [apply stays_refl|].
  intros [_ H]. split; [discriminate|exact H].
Qed.
#[local] Hint Resolve grounded_onBoarReady : walk.

Lemma grounded_resolve_connect p : respects (stays grounded) (resolve_connect p).
Proof. unfold resolve_connect. walk. Qed.
#[local] Hint Resolve grounded_resolve_connect : walk.

Lemma grounded_run_handler f h v : respects (stays grounded) (run_handler f h v).
Proof.
  destruct h; cbn [run_handler]; try (walk; fail).
  intros [[st fm ext pi a1 a2 a3 a4 a5 a6] hp c t ce o l]. js.
  destruct fm as [g|]; js; [|apply stays_refl].
  destruct (Nat.eqb g f); js; [|apply stays_refl].
  intros [_ H]. split; [discriminate|exact H].
Qed.
#[local] Hint Resolve grounded_run_handler : walk.

Lemma grounded_run_handlers f hs v : respects (stays grounded) (run_handlers f hs v).
Proof. induction hs; cbn [run_handlers]; walk. Qed.
#[local] Hint Resolve grounded_run_handlers : walk.

Lemma grounded_fire_all ts : respects (stays grounded) (fire_all ts).
Proof. induction ts; cbn [fire_all]; unfold fire; walk. Qed.
#[local] Hint Resolve grounded_fire_all : walk.

Lemma grounded_paced (c : M unit) :
  respects (stays grounded) c -> respects (stays grounded) (paced c).
Proof. intros H. unfold paced. walk. Qed.

(** The port opens: the instance the board takes is the one just
    constructed. *)
Lemma grounded_port_opened p info : respects (stays grounded) (port_opened p info).
Proof.
  intros [[st fm ext pi a1 a2 a3 a4 a5 a6] h c t ce o l].
  unfold port_opened, setupFirmata, landed, once. js.
  intros [H _]. split; [discriminate|].
  intros f [= <-]. cbn. rewrite !length_alter, length_app. cbn. lia.
Qed.
#[local] Hint Resolve grounded_port_opened : walk.

Lemma grounded_handle (e : Event) : respects (stays grounded) (handle e).
Proof.
  destruct e; cbn [handle].
  - walk.
  - unfold reject_connect, landed. walk.
  - unfold deliver. walk.
  - unfold elapse. walk.
  - walk.
Qed.

Lemma grounded_invoke (c : Call) : respects (stays grounded) (invoke c).
Proof.
  destruct c; cbn [invoke]; try (walk; fail).
  - destruct i; cbn [update]; unfold updateDigitalInput, updateAnalogInput; walk.
  - unfold setInputBias, pinMode.
    walk_step (stays_refl grounded) (stays_trans grounded) grounded_prim; [|walk].
    walk_step (stays_refl grounded) (stays_trans grounded) grounded_prim; [walk|].
    apply grounded_paced. walk.
  - unfold pinMode. walk.
  - walk_step (stays_refl grounded) (stays_trans grounded) grounded_prim; [|walk].
    apply grounded_paced. walk.
  - walk_step (stays_refl grounded) (stays_trans grounded) grounded_prim; [|walk].
    apply grounded_paced. walk.
  - walk_step (stays_refl grounded) (stays_trans grounded) grounded_prim; [|walk].
    apply grounded_paced. walk.
Qed.

Lemma grounded_perform (a : Action) (w : World) : stays grounded w (perform a w).
Proof.
  destruct a as [e|c]; cbn [perform].
  - apply grounded_handle.
  - apply grounded_invoke.
Qed.

Lemma reachable_grounded (w : World) : reachable w -> grounded w.
Proof.
  intros (t & acts & ->).
  apply (respects_fold (stays grounded) (stays_refl grounded) (stays_trans grounded)
           (fun a w => perform a w) acts (new_World t)).
  - intros a w0. apply grounded_perform.
  - split; [discriminate|discriminate].
Qed.

(** In every world a board gets into, a board that is connected holds an
    instance, and the instance a board holds is in the store: [pins],
    [HIGH], [LOW], [RESOLUTION] and the commands find it. *)
Theorem connected_board_holds_an_instance (w : World) :
  reachable w ->
  (isConnected w = true ->
   exists (f : nat) (fo : Firmata), firmata (board w) = Some f /\ heap w !! f = Some fo) /\
  (forall f : nat, firmata (board w) = Some f -> is_Some (heap w !! f)).
Proof.
  intros H. destruct (reachable_grounded w H) as [H1 H2].
  assert (H3 : forall f, firmata (board w) = Some f -> is_Some (heap w !! f)).
  { intros f E. apply lookup_lt_is_Some. now apply H2. }
  split; [|exact H3].
  intros Hc. specialize (H1 Hc).
  destruct (firmata (board w)) as [f|] eqn:E; [|contradiction].
  destruct (H3 f eq_refl) as [fo Hfo]. eauto.
Qed.

Lemma connected_board_witness :
  reachable ready_world /\
  exists (f : nat) (fo : Firmata),
    firmata (board ready_world) = Some f /\ heap ready_world !! f = Some fo.
Proof.
  assert (H : reachable ready_world).
  { exists 1700000000000,
      [Inside do_connectSerial; Outside (PortOpened 0 a_port);
       Outside (Emitted 0 E_open 0); Outside (Library 0 (Topology three_pins [2]));
       Outside (Emitted 0 E_ready 0)].
    vm_compute. reflexivity. }
  split; [exact H|].
  apply (connected_board_holds_an_instance ready_world H). vm_compute. reflexivity.
Defined.

End Grounded.

(** * What holds along every run of a connector *)

Section RegistryLists.

Import Connector.

Lemma indexOf_delete (b : nat) (bs : list nat) (i : nat) :
  NoDup bs -> indexOf b bs = Some i ->
  delete i bs = List.filter (fun x => negb (Nat.eqb b x)) bs.
Proof.
  intros Hnd. revert i; induction Hnd as [|x bs Hx Hnd IH]; intros i; cbn; [discriminate|].
  rewrite list_elem_of_In in Hx.
  destruct (Nat.eqb_spec x b) as [->|Hne].
  - intros [= <-]. cbn. rewrite Nat.eqb_refl. cbn.
    symmetry. apply List.forallb_filter_id. apply List.forallb_forall.
    intros y Hy. apply negb_true_iff, Nat.eqb_neq. intros ->. contradiction.
  - destruct (indexOf b bs) as [j|]; cbn; [|discriminate]. intros [= <-]. cbn.
    destruct (Nat.eqb_spec b x) as [->|_]; [contradiction|]. cbn. f_equal. now apply IH.
Qed.

Lemma filter_absent (b : nat) (bs : list nat) :
  ~ In b bs -> List.filter (fun x => negb (Nat.eqb b x)) bs = bs.
Proof.
  intros H. apply List.forallb_filter_id. apply List.forallb_forall.
  intros y Hy. apply negb_true_iff, Nat.eqb_neq. intros ->. contradiction.
Qed.

Lemma filter_out_In (b x : nat) (bs : list nat) :
  In x (List.filter (fun y => negb (Nat.eqb b y)) bs) <-> In x bs /\ x <> b.
Proof.
  rewrite List.filter_In, negb_true_iff, Nat.eqb_neq. split; intros [H1 H2]; auto.
Qed.

Lemma existsb_In (b : nat) (bs : list nat) :
  existsb (Nat.eqb b) bs = true <-> In b bs.
Proof.
  rewrite existsb_exists. split.
  - intros (x & Hx & E). apply Nat.eqb_eq in E. now subst.
  - intros H. exists b. split; [exact H|apply Nat.eqb_refl].
Qed.

(** What [removeBoard] leaves in the registry when no board is in it
    twice. *)
Lemma removeBoard_boards (b : nat) (c : State) :
  NoDup (boards c) ->
  boards (removeBoard b c) = List.filter (fun x => negb (Nat.eqb b x)) (boards c).
Proof.
  intros Hnd. unfold removeBoard.
  destruct (indexOf b (boards c)) as [i|] eqn:E; cbn.
  - now apply indexOf_delete.
  - symmetry. apply filter_absent. now apply indexOf_None.
Qed.

Lemma removeBoard_rest (b : nat) (c : State) :
  store (removeBoard b c) = store c /\ calls (removeBoard b c) = calls c /\
  watching (removeBoard b c) = watching c.
Proof. unfold removeBoard. now destruct (indexOf b (boards c)). Qed.

Lemma map_insert_same {A B} (f : A -> B) (l : list A) (k : nat) (x y : A) :
  l !! k = Some x -> f y = f x -> map f (<[k := y]> l) = map f l.
Proof.
  revert k; induction l as [|z l IH]; intros [|k]; cbn; try discriminate.
  - intros [= ->] E. now rewrite E.
  - intros H E. f_equal. now apply IH.
Qed.

Lemma NoDup_map_lookup {A B} (f : A -> B) (l : list A) (i j : nat) (x y : A) :
  NoDup (map f l) -> l !! i = Some x -> l !! j = Some y -> f x = f y -> i = j.
Proof.
  revert i j; induction l as [|z l IH]; intros [|i] [|j]; cbn; try discriminate.
  - reflexivity.
  - intros Hnd [= ->] Hy E. apply NoDup_cons in Hnd as [Hn _].
    exfalso. apply Hn. rewrite E. apply list_elem_of_In, in_map.
    eapply list_elem_of_In, list_elem_of_lookup_2, Hy.
  - intros Hnd Hx [= ->] E. apply NoDup_cons in Hnd as [Hn _].
    exfalso. apply Hn. rewrite <- E. apply list_elem_of_In, in_map.
    eapply list_elem_of_In, list_elem_of_lookup_2, Hx.
  - intros Hnd Hx Hy E. apply NoDup_cons in Hnd as [_ Hnd]. f_equal. now apply (IH i j).
Qed.

End RegistryLists.

Section Orderly.

Import Connector RegistrySpec.

Lemma orderly_new (serial : bool) (t : Z) : orderly (new_State serial t).
Proof.
  split; cbn; try constructor. intros b [].
Qed.

(** [connectSerial] where there is Web Serial: a new board, whose
    [connectSerial] is pending, and a call that waits for it. *)
Lemma connectSerial_runs (extensionId : string) (c : State) :
  serial c = true ->
  exists w2 : Board.World,
    connectSerial extensionId c =
    (Later (length (calls c)),
     with_calls (calls c ++ [mkCall (length (store c)) 0 Pending])
       (with_store (store c ++ [w2]) c)) /\
    Board.cells w2 = [Board.ConnectCell Pending] /\
    Board.state (Board.board w2) = Board.S_portRequesting.
Proof.
  intros H. unfold connectSerial. rewrite H. cbn. eexists. repeat split.
Qed.

Lemma orderly_connectSerial (extensionId : string) (c : State) :
  orderly c -> orderly (snd (connectSerial extensionId c)).
Proof.
  intros [J1 J2 J3 J4 J5].
  destruct (serial c) eqn:Hs.
  2:{ unfold connectSerial. rewrite Hs. cbn. now split. }
  destruct (connectSerial_runs extensionId c Hs) as (w2 & -> & _). cbn [snd].
  split; cbn.
  - rewrite length_app. cbn. apply Forall_app. split.
    + eapply List.Forall_impl; [|exact J1]. intros call. cbn. lia.
    + repeat constructor. cbn. lia.
  - rewrite map_app. cbn. apply NoDup_app. split; [exact J2|]. split.
    + intros x Hx Hin. apply list_elem_of_In in Hx, Hin. destruct Hin as [<-|[]].
      apply in_map_iff in Hx as (call & E & Hcall).
      rewrite List.Forall_forall in J1. specialize (J1 call Hcall). lia.
    + apply NoDup_singleton.
  - exact J3.
  - exact J4.
  - intros b Hb. destruct (J5 b Hb) as (k & p & Hk). exists k, p.
    now apply lookup_app_l_Some.
Qed.

Lemma seen_connectSerial (extensionId : string) (c : State) :
  orderly c -> (forall k, seen k c) ->
  forall k, seen k (snd (connectSerial extensionId c)).
Proof.
  intros [J1 _ _ _ _] Hseen k.
  destruct (serial c) eqn:Hs.
  2:{ unfold connectSerial. rewrite Hs. cbn. apply Hseen. }
  destruct (connectSerial_runs extensionId c Hs) as (w2 & -> & Hcells & _). cbn [snd].
  intros b p w. cbn -[lookup]. intros Hk Hb.
  destruct (Nat.lt_ge_cases k (length (calls c))) as [Hlt|Hge].
  - rewrite lookup_app_l in Hk by exact Hlt.
    assert (Hbl : (b < length (store c))%nat).
    { rewrite List.Forall_forall in J1.
      apply (J1 (mkCall b p Pending)).
      eapply list_elem_of_In, list_elem_of_lookup_2, Hk. }
    rewrite lookup_app_l in Hb by exact Hbl. exact (Hseen k b p w Hk Hb).
  - rewrite lookup_app_r in Hk by exact Hge.
    destruct (k - length (calls c))%nat as [|n]; [|destruct n; discriminate Hk].
    injection Hk as <- <-.
    rewrite list_lookup_middle in Hb by reflexivity. injection Hb as <-.
    now rewrite Hcells.
Qed.

Lemma NoDup_bool_filter {A} (f : A -> bool) (l : list A) :
  NoDup l -> NoDup (List.filter f l).
Proof. rewrite !NoDup_ListNoDup. apply List.NoDup_filter. Qed.

(** The RELEASED listener of board [b] in an orderly state. *)
Lemma on_RELEASED_spec (b : nat) (c : State) :
  orderly c ->
  boards (on_RELEASED b c) = List.filter (fun x => negb (Nat.eqb b x)) (boards c) /\
  watching (on_RELEASED b c) = List.filter (fun x => negb (Nat.eqb b x)) (watching c) /\
  store (on_RELEASED b c) = store c /\ calls (on_RELEASED b c) = calls c.
Proof.
  intros [J1 J2 J3 J4 J5]. unfold on_RELEASED.
  destruct (existsb (Nat.eqb b) (watching c)) eqn:E.
  - set (c1 := with_watching _ c). cbn [boards watching store calls with_emitted].
    destruct (removeBoard_rest b c1) as (-> & -> & ->).
    rewrite removeBoard_boards by exact J4. repeat split.
  - assert (Hn : ~ In b (watching c)).
    { intros H. apply existsb_In in H. congruence. }
    assert (Hn' : ~ In b (boards c)) by (rewrite <- J3; exact Hn).
    rewrite !filter_absent by assumption. repeat split.
Qed.

Lemma orderly_on_RELEASED (b : nat) (c : State) :
  orderly c -> orderly (on_RELEASED b c).
Proof.
  intros H. destruct (on_RELEASED_spec b c H) as (Hb & Hw & Hs & Hc).
  destruct H as [J1 J2 J3 J4 J5]. split; rewrite ?Hb, ?Hw, ?Hs, ?Hc; try assumption.
  - now rewrite J3.
  - now apply NoDup_bool_filter.
  - intros x Hx. apply filter_out_In in Hx as [Hx _]. now apply J5.
Qed.

(** The three ways the callback of call [k] goes. *)
Lemma settle_call_cases (k : nat) (c : State) :
  (settle_call k c = c /\ seen k c) \/
  (exists b p w u,
     calls c !! k = Some (mkCall b p Pending) /\ store c !! b = Some w /\
     Board.cells w !! p = Some (Board.ConnectCell (Resolved u)) /\
     settle_call k c =
       with_calls (<[k := mkCall b p (Resolved b)]> (calls c))
         (with_watching (watching c ++ [b]) (addBoard b c))) \/
  (exists b p w r,
     calls c !! k = Some (mkCall b p Pending) /\ store c !! b = Some w /\
     Board.cells w !! p = Some (Board.ConnectCell (Rejected r)) /\
     settle_call k c = with_calls (<[k := mkCall b p (Rejected r)]> (calls c)) c).
Proof.
  unfold settle_call, seen.
  destruct (calls c !! k) as [[b p [|x|r]]|] eqn:Hk;
    try (left; split; [reflexivity|intros; discriminate]).
  destruct (store c !! b) as [w|] eqn:Hb; cbn;
    [|left; split; [reflexivity|intros ? ? ? [= <- <-]; congruence]].
  destruct (Board.cells w !! p) as [[[|u|r]|pin s|s]|] eqn:Hp;
    try (left; split; [reflexivity|];
         intros b' p' w' [= <- <-] Hb'; rewrite Hb in Hb'; injection Hb' as <-;
         now rewrite Hp).
  - right; left. exists b, p, w, u. repeat split; assumption.
  - right; right. exists b, p, w, r. repeat split; assumption.
Qed.

Lemma orderly_settle_call (k : nat) (c : State) :
  orderly c -> orderly (settle_call k c).
Proof.
  intros H.
  destruct (settle_call_cases k c)
    as [[-> _]|[(b & p & w & u & Hk & Hb & Hp & ->)|(b & p & w & r & Hk & Hb & Hp & ->)]];
    [exact H| |]; destruct H as [J1 J2 J3 J4 J5].
  - assert (Hnew : ~ In b (boards c)).
    { intros Hin. destruct (J5 b Hin) as (k' & p' & Hk').
      assert (k' = k) by (eapply (NoDup_map_lookup call_board); eauto).
      subst k'. congruence. }
    split; cbn -[lookup insert].
    + apply Forall_insert; [exact J1|]. cbn.
      rewrite List.Forall_forall in J1. apply (J1 (mkCall b p Pending)).
      eapply list_elem_of_In, list_elem_of_lookup_2, Hk.
    + now rewrite (map_insert_same call_board _ _ _ _ Hk).
    + now rewrite J3.
    + apply NoDup_app. split; [exact J4|]. split; [|apply NoDup_singleton].
      intros x Hx Hin. apply list_elem_of_In in Hx, Hin.
      destruct Hin as [<-|[]]. contradiction.
    + intros x Hx. apply in_app_iff in Hx as [Hx|[<-|[]]].
      * destruct (J5 x Hx) as (k' & p' & Hk'). exists k', p'.
        rewrite list_lookup_insert_ne; [exact Hk'|]. intros <-. congruence.
      * exists k, p. apply list_lookup_insert_eq. apply lookup_lt_is_Some. eauto.
  - split; cbn -[lookup insert].
    + apply Forall_insert; [exact J1|]. cbn.
      rewrite List.Forall_forall in J1. apply (J1 (mkCall b p Pending)).
      eapply list_elem_of_In, list_elem_of_lookup_2, Hk.
    + now rewrite (map_insert_same call_board _ _ _ _ Hk).
    + exact J3.
    + exact J4.
    + intros x Hx. destruct (J5 x Hx) as (k' & p' & Hk'). exists k', p'.
      rewrite list_lookup_insert_ne; [exact Hk'|]. intros <-. congruence.
Qed.

Lemma settle_call_frame (k : nat) (c : State) :
  store (settle_call k c) = store c /\
  length (calls (settle_call k c)) = length (calls c) /\
  forall j, j <> k -> calls (settle_call k c) !! j = calls c !! j.
Proof.
  destruct (settle_call_cases k c)
    as [[-> _]|[(b & p & w & u & Hk & Hb & Hp & ->)|(b & p & w & r & Hk & Hb & Hp & ->)]];
    cbn -[lookup insert]; rewrite ?length_insert; repeat split;
    intros j Hj; now rewrite list_lookup_insert_ne.
Qed.

Lemma settle_call_seen (k : nat) (c : State) : seen k (settle_call k c).
Proof.
  destruct (settle_call_cases k c)
    as [[-> H]|[(b & p & w & u & Hk & Hb & Hp & ->)|(b & p & w & r & Hk & Hb & Hp & ->)]];
    [exact H| |]; intros b' p' w'; cbn -[lookup insert];
    rewrite list_lookup_insert_eq by (apply lookup_lt_is_Some; eauto); discriminate.
Qed.

Lemma settle_call_keeps_seen (j k : nat) (c : State) :
  seen j c -> seen j (settle_call k c).
Proof.
  intros H. destruct (Nat.eq_dec j k) as [->|Hne]; [apply settle_call_seen|].
  destruct (settle_call_frame k c) as (Hs & _ & Hc).
  intros b p w. rewrite Hs, (Hc j Hne). apply H.
Qed.

Lemma settle_all (ks : list nat) (c : State) :
  let c' := fold_left (fun c k => settle_call k c) ks c in
  (orderly c -> orderly c') /\
  store c' = store c /\ length (calls c') = length (calls c) /\
  (forall j, In j ks -> seen j c') /\
  (forall j, seen j c -> seen j c').
Proof.
  revert c; induction ks as [|k ks IH]; intros c c'; subst c'; cbn [fold_left].
  - split; [tauto|]. split; [reflexivity|]. split; [reflexivity|].
    split; [intros j []|tauto].
  - destruct (IH (settle_call k c)) as (H1 & H2 & H3 & H4 & H5).
    destruct (settle_call_frame k c) as (Hs & Hl & _).
    split; [|split; [|split; [|split]]].
    + intros H. apply H1. now apply orderly_settle_call.
    + congruence.
    + congruence.
    + intros j [<-|Hj]; [apply H5, settle_call_seen|now apply H4].
    + intros j Hj. apply H5. now apply settle_call_keeps_seen.
Qed.

Lemma settle_calls_seen (c : State) (k : nat) : seen k (settle_calls c).
Proof.
  unfold settle_calls.
  destruct (settle_all (seq 0 (length (calls c))) c) as (_ & _ & Hl & Hin & _).
  destruct (Nat.lt_ge_cases k (length (calls c))) as [Hlt|Hge].
  - apply Hin. apply in_seq. lia.
  - intros b p w Hk. apply lookup_lt_Some in Hk. lia.
Qed.

Lemma orderly_store (b : nat) (w' : Board.World) (c : State) :
  orderly c -> orderly (with_store (<[b := w']> (store c)) c).
Proof.
  intros [J1 J2 J3 J4 J5]. split; cbn; try assumption.
  now rewrite length_insert.
Qed.

Lemma orderly_moved (b : nat) (w w' : Board.World) (c : State) :
  orderly c -> orderly (moved b w w' c) /\ forall k, seen k (moved b w w' c).
Proof.
  intros H. unfold moved. split; [|intros k; apply settle_calls_seen].
  unfold settle_calls. apply settle_all.
  destruct (Nat.ltb _ _); [apply orderly_on_RELEASED|]; now apply orderly_store.
Qed.

Lemma on_board_moved (b : nat) (e : Board.Event) (c : State) :
  on_board b e c =
  match store c !! b with
  | None => c
  | Some w => moved b w (Board.step e w) c
  end.
Proof. reflexivity. Qed.

Lemma orderly_on_board (b : nat) (e : Board.Event) (c : State) :
  orderly c /\ (forall k, seen k c) ->
  orderly (on_board b e c) /\ forall k, seen k (on_board b e c).
Proof.
  intros [H Hs]. rewrite on_board_moved.
  destruct (store c !! b) as [w|]; [now apply orderly_moved|now split].
Qed.

Lemma orderly_step (e : Event) (c : State) :
  orderly c /\ (forall k, seen k c) ->
  orderly (step e c) /\ forall k, seen k (step e c).
Proof.
  intros H. destruct e as [b e|ms]; cbn [step]; [now apply orderly_on_board|].
  assert (H0 : orderly (with_clock (Connector.clock c + Z.max 0 ms) c) /\
               forall k, seen k (with_clock (Connector.clock c + Z.max 0 ms) c)).
  { destruct H as [[J1 J2 J3 J4 J5] Hs]. split; [now split|exact Hs]. }
  change (length (store c))
    with (length (store (with_clock (Connector.clock c + Z.max 0 ms) c))).
  revert H0. generalize (with_clock (Connector.clock c + Z.max 0 ms) c) as c0.
  intros c0. generalize (seq 0 (length (store c0))) as bs. intros bs.
  revert c0; induction bs as [|b bs IH]; intros c0 H0; cbn; [exact H0|].
  apply IH. now apply orderly_on_board.
Qed.

Lemma orderly_perform (a : Action) (c : State) :
  orderly c /\ (forall k, seen k c) ->
  orderly (perform a c) /\ forall k, seen k (perform a c).
Proof.
  intros [H Hs]. destruct a as [e|x|x|b call]; cbn [perform].
  - now apply orderly_step.
  - unfold connectedBoard. destruct (findBoard None c) as [[b|]|r];
      try (split; [now apply orderly_connectSerial|now apply seen_connectSerial]).
    now split.
  - split; [now apply orderly_connectSerial|now apply seen_connectSerial].
  - unfold on_call. destruct (store c !! b) as [w|]; [now apply orderly_moved|now split].
Qed.

Lemma reachable_orderly (c : State) :
  reachable c -> orderly c /\ forall k, seen k c.
Proof.
  intros (serial & t & acts & ->).
  assert (H0 : orderly (new_State serial t) /\ forall k, seen k (new_State serial t)).
  { split; [apply orderly_new|]. intros k b p w H. discriminate H. }
  revert H0. generalize (new_State serial t) as c0.
  induction acts as [|a acts IH]; intros c0 H0; cbn; [exact H0|].
  apply IH. now apply orderly_perform.
Qed.

(** In every state a connector gets into, whatever was called on it and
    on its boards and whatever happened to them: no board is in the
    registry twice, every board in the registry is one the connector
    constructed and the board a [connectSerial] of the connector was
    resolved with, and the boards in the registry are those that carry
    the connector's RELEASED listener. *)
Theorem registry_is_orderly (c : State) :
  reachable c ->
  NoDup (boards c) /\
  watching c = boards c /\
  forall b, In b (boards c) ->
    is_Some (store c !! b) /\
    exists k p, calls c !! k = Some (mkCall b p (Resolved b)).
Proof.
  intros H. destruct (reachable_orderly c H) as [[J1 J2 J3 J4 J5] _].
  split; [exact J4|]. split; [exact J3|].
  intros b Hb. destruct (J5 b Hb) as (k & p & Hk). split; [|eauto].
  apply lookup_lt_is_Some. rewrite List.Forall_forall in J1.
  apply (J1 (mkCall b p (Resolved b))).
  eapply list_elem_of_In, list_elem_of_lookup_2, Hk.
Qed.

End Orderly.

(** ** What resolves a connect promise *)

Section Unresolving.

Import Board Spec.

Variable p : nat.

Lemma unresolving_refl (w : World) : unresolving p w w.
Proof. intros H. exact H. Qed.

Lemma unresolving_trans (w1 w2 w3 : World) :
  unresolving p w1 w2 -> unresolving p w2 w3 -> unresolving p w1 w3.
Proof. unfold unresolving. tauto. Qed.

Lemma unresolving_same (w w' : World) : cells w' = cells w -> unresolving p w w'.
Proof. intros E. unfold unresolving, resolved. now rewrite E. Qed.

Lemma unresolving_set_cell (q : nat) (c : Cell) :
  (forall u, c <> ConnectCell (Resolved u)) -> respects (unresolving p) (set_cell q c).
Proof.
  intros Hc w [u H]. cbn -[lookup insert] in H.
  destruct (Nat.eq_dec q p) as [->|Hne].
  - destruct (cells w !! p) as [c0|] eqn:E.
    + rewrite list_lookup_insert_eq in H by (apply lookup_lt_is_Some; eauto).
      injection H as ->. now contradiction (Hc u).
    + rewrite list_insert_ge in H by (now apply lookup_ge_None).
      exists u. congruence.
  - rewrite list_lookup_insert_ne in H by exact Hne. now exists u.
Qed.

Lemma unresolving_new_cell (c : Cell) :
  (forall u, c <> ConnectCell (Resolved u)) -> respects (unresolving p) (new_cell c).
Proof.
  intros Hc w [u H]. cbn -[lookup] in H.
  destruct (Nat.lt_ge_cases p (length (cells w))) as [Hlt|Hge].
  - rewrite lookup_app_l in H by exact Hlt. now exists u.
  - rewrite lookup_app_r in H by exact Hge.
    destruct (p - length (cells w))%nat as [|n]; [|destruct n; discriminate H].
    injection H as ->. now contradiction (Hc u).
Qed.

Ltac unresolving_prim :=
  first [ apply unresolving_set_cell; intros; discriminate
        | apply unresolving_new_cell; intros; discriminate
        | intros ?w; cbn -[lookup alter insert]; apply unresolving_same; reflexivity ].

Ltac walk := repeat walk_step unresolving_refl unresolving_trans unresolving_prim.

Lemma unresolving_send (c : Command) : respects (unresolving p) (send c).
Proof. unfold send. walk. Qed.
#[local] Hint Resolve unresolving_send : walk.

Lemma unresolving_set_this_pin pin g : respects (unresolving p) (set_this_pin pin g).
Proof. unfold set_this_pin. walk. Qed.
#[local] Hint Resolve unresolving_set_this_pin : walk.

Lemma unresolving_settle_read q o : respects (unresolving p) (settle_read q o).
Proof. unfold settle_read. walk. Qed.
#[local] Hint Resolve unresolving_settle_read : walk.

Lemma unresolving_settle_sent q o : respects (unresolving p) (settle_sent q o).
Proof. unfold settle_sent. walk. Qed.
#[local] Hint Resolve unresolving_settle_sent : walk.

Lemma unresolving_releaseBoard : respects (unresolving p) releaseBoard.
Proof. unfold releaseBoard. walk. Qed.
#[local] Hint Resolve unresolving_releaseBoard : walk.

Lemma unresolving_disconnect : respects (unresolving p) disconnect.
Proof. unfold disconnect. walk. Qed.
#[local] Hint Resolve unresolving_disconnect : walk.

Lemma unresolving_handleDisconnectError : respects (unresolving p) handleDisconnectError.
Proof. unfold handleDisconnectError. walk. Qed.
#[local] Hint Resolve unresolving_handleDisconnectError : walk.

(** Every handler but that of "ready". *)
Lemma unresolving_run_handler f h v :
  signal_of h <> E_ready -> respects (unresolving p) (run_handler f h v).
Proof.
  intros Hh. destruct h; cbn [run_handler]; try (walk; fail).
  now contradiction Hh.
Qed.

Lemma unresolving_run_handlers f hs v :
  Forall (fun h => signal_of h <> E_ready) hs ->
  respects (unresolving p) (run_handlers f hs v).
Proof.
  intros H; induction H as [|h hs Hh _ IH]; cbn [run_handlers]; [walk|].
  apply (respects_bind _ unresolving_trans); [now apply unresolving_run_handler|].
  intros _. exact IH.
Qed.

Lemma unresolving_fire_all ts : respects (unresolving p) (fire_all ts).
Proof. induction ts; cbn [fire_all]; unfold fire; walk. Qed.
#[local] Hint Resolve unresolving_fire_all : walk.

Lemma unresolving_paced (c : M unit) :
  respects (unresolving p) c -> respects (unresolving p) (paced c).
Proof. intros H. unfold paced. walk. Qed.

Lemma unresolving_deliver f s v :
  s <> E_ready -> respects (unresolving p) (deliver f s v).
Proof.
  intros Hs. unfold deliver.
  apply (respects_bind _ unresolving_trans); [walk|]. intros fo.
  apply (respects_bind _ unresolving_trans); [walk|]. intros _.
  apply unresolving_run_handlers. apply List.Forall_forall.
  intros h Hh. apply List.filter_In in Hh as [_ Hh].
  unfold listens in Hh. apply Signal_eqb_eq in Hh. congruence.
Qed.

Lemma unresolving_handle (e : Event) :
  (forall f v, e <> Emitted f E_ready v) -> respects (unresolving p) (handle e).
Proof.
  intros He. destruct e; cbn [handle].
  - unfold port_opened, setupFirmata. walk.
  - unfold reject_connect. walk.
  - apply unresolving_deliver. intros ->. now contradiction (He f v).
  - unfold elapse. walk.
  - walk.
Qed.

Lemma unresolving_invoke (c : Call) : respects (unresolving p) (invoke c).
Proof.
  destruct c; cbn [invoke]; try (walk; fail).
  - unfold connectSerial. walk.
  - destruct i; cbn [update]; unfold updateDigitalInput, updateAnalogInput; walk.
  - unfold setInputBias, pinMode.
    walk_step unresolving_refl unresolving_trans unresolving_prim; [|walk].
    walk_step unresolving_refl unresolving_trans unresolving_prim; [walk|].
    apply unresolving_paced. walk.
  - unfold pinMode. walk.
  - walk_step unresolving_refl unresolving_trans unresolving_prim; [|walk].
    apply unresolving_paced. walk.
  - walk_step unresolving_refl unresolving_trans unresolving_prim; [|walk].
    apply unresolving_paced. walk.
  - walk_step unresolving_refl unresolving_trans unresolving_prim; [|walk].
    apply unresolving_paced. walk.
Qed.

(** ** "ready" *)

Lemma readying_refl (w : World) : readying p w w.
Proof. split; tauto. Qed.

Lemma readying_trans (w1 w2 w3 : World) :
  readying p w1 w2 -> readying p w2 w3 -> readying p w1 w3.
Proof. unfold readying. tauto. Qed.

Lemma readying_attached (w w' : World) : attached w' -> readying p w w'.
Proof. intros H. split; auto. Qed.

Lemma readying_on_ready f q v : respects (readying p) (run_handler f (on_ready q) v).
Proof.
  intros [[st fm ext pi a1 a2 a3 a4 a5 a6] h c t ce o l].
  unfold run_handler, onBoarReady, resolve_connect. js.
  destruct fm as [g|]; js; [|apply readying_refl].
  destruct (Nat.eqb g f); js; [|apply readying_refl].
  destruct (h !! g) as [fo|]; js; [|apply readying_refl].
  destruct (throws fo); js; [apply readying_refl|].
  destruct (ce !! q) as [[[|u|r]|pin s|s]|]; js;
    apply readying_attached; split; (reflexivity || discriminate).
Qed.

Lemma readying_run_handlers f hs v :
  Forall (fun h => signal_of h = E_ready) hs ->
  respects (readying p) (run_handlers f hs v).
Proof.
  intros H; induction H as [|h hs Hh _ IH]; cbn [run_handlers].
  - intros w. apply readying_refl.
  - apply (respects_bind _ readying_trans); [|intros _; exact IH].
    destruct h; try discriminate Hh. apply readying_on_ready.
Qed.

Lemma readying_deliver f v : respects (readying p) (deliver f E_ready v).
Proof.
  unfold deliver.
  apply (respects_bind _ readying_trans).
  { apply (respects_pure _ readying_refl). intros w. unfold lookup_firmata.
    now destruct (heap w !! f). }
  intros fo. apply (respects_bind _ readying_trans).
  { intros w. cbn. split; [intros H; now left|intros H; exact H]. }
  intros _. apply readying_run_handlers. apply List.Forall_forall.
  intros h Hh. apply List.filter_In in Hh as [_ Hh].
  unfold listens in Hh. now apply Signal_eqb_eq in Hh.
Qed.

End Unresolving.

Section Resolving.

Import Board Spec.

(** A connect promise is resolved by nothing but the "ready" of the
    instance the board holds, and the board is then connected and holds
    that instance. *)
Lemma resolving_attaches (a : Action) (w : World) (p : nat) :
  ~ resolved p w -> resolved p (perform a w) -> attached (perform a w).
Proof.
  intros Hn Hr. destruct a as [e|c]; cbn [perform] in *.
  - assert (Hcase : (exists f v, e = Emitted f E_ready v) \/
                    (forall f v, e <> Emitted f E_ready v)).
    { destruct e as [| |f s v| |]; try (right; intros; discriminate).
      destruct s; try (right; intros; discriminate). left. eauto. }
    destruct Hcase as [(f & v & ->)|He].
    + destruct (readying_deliver p f v w) as [H _].
      destruct (H Hr) as [H'|H']; [contradiction|exact H'].
    + contradiction Hn. exact (unresolving_handle p e He w Hr).
  - contradiction Hn. exact (unresolving_invoke p c w Hr).
Qed.

End Resolving.

(** ** The boards in the registry *)

Section AllAttached.

Import Connector RegistrySpec.

Lemma attached_connectSerial (extensionId : string) (c : State) :
  all_attached c -> all_attached (snd (connectSerial extensionId c)).
Proof.
  intros Ha. destruct (serial c) eqn:Hs.
  2:{ unfold connectSerial. now rewrite Hs. }
  destruct (connectSerial_runs extensionId c Hs) as (w2 & -> & _). cbn [snd].
  intros b Hb. destruct (Ha b Hb) as (w & Hw & Haw). exists w.
  split; [|exact Haw]. cbn -[lookup]. now apply lookup_app_l_Some.
Qed.

Lemma attached_connectedBoard (extensionId : string) (c : State) :
  all_attached c -> all_attached (snd (connectedBoard extensionId c)).
Proof.
  intros Ha. unfold connectedBoard.
  destruct (findBoard None c) as [[b|]|r]; try now apply attached_connectSerial.
  exact Ha.
Qed.

Lemma reachable_acquired : reachable acquired.
Proof.
  exists true, 1700000000000,
    [Acquires "xcxArduino";
     Happens (At 0 (Board.PortOpened 0 Spec.a_port));
     Happens (At 0 (Board.Emitted 0 Board.E_open 0));
     Happens (At 0 (Board.Emitted 0 Board.E_ready 0))].
  reflexivity.
Qed.

Lemma registry_is_orderly_witness :
  reachable acquired /\ boards acquired = [0%nat] /\ NoDup (boards acquired).
Proof.
  split; [exact reachable_acquired|]. split; [vm_compute; reflexivity|].
  exact (proj1 (registry_is_orderly acquired reachable_acquired)).
Defined.

End AllAttached.

(** ** A board on its way into the registry and out of it *)

Section Flow.

Import Connector RegistrySpec.

Lemma settle_seen_id (k : nat) (c : State) : seen k c -> settle_call k c = c.
Proof.
  intros H.
  destruct (settle_call_cases k c)
    as [[E _]|[(b & p & w & u & Hk & Hb & Hp & _)|(b & p & w & r & Hk & Hb & Hp & _)]];
    [exact E| |]; specialize (H b p w Hk Hb); rewrite Hp in H; destruct H.
Qed.

(** Where every other call has been seen to, the callbacks come down to
    that of call [k]. *)
Lemma settle_fold_one (k : nat) (ks : list nat) (c : State) :
  NoDup ks ->
  (forall j, In j ks -> j <> k -> seen j c) ->
  fold_left (fun c j => settle_call j c) ks c
  = if existsb (Nat.eqb k) ks then settle_call k c else c.
Proof.
  intros Hnd. revert c; induction Hnd as [|j ks Hj Hnd IH]; intros c Hs; [reflexivity|].
  cbn [fold_left existsb]. rewrite list_elem_of_In in Hj.
  destruct (Nat.eqb_spec k j) as [<-|Hne]; cbn [orb].
  - rewrite IH.
    + assert (E : existsb (Nat.eqb k) ks = false).
      { destruct (existsb (Nat.eqb k) ks) eqn:E; [|reflexivity].
        apply existsb_In in E. contradiction. }
      now rewrite E.
    + intros j Hin Hjk. apply settle_call_keeps_seen. apply Hs; [now right|exact Hjk].
  - rewrite (settle_seen_id j c) by (apply Hs; [now left|congruence]).
    apply IH. intros i Hin Hik. apply Hs; [now right|exact Hik].
Qed.

Lemma settle_calls_one (k : nat) (c : State) :
  (forall j, j <> k -> seen j c) -> settle_calls c = settle_call k c.
Proof.
  intros Hs. unfold settle_calls.
  rewrite (settle_fold_one k) by (auto using NoDup_seq).
  destruct (existsb (Nat.eqb k) (seq 0 (length (calls c)))) eqn:E; [reflexivity|].
  symmetry. apply settle_seen_id. intros b p w Hk.
  exfalso. assert (Hin : In k (seq 0 (length (calls c)))).
  { apply in_seq. apply lookup_lt_Some in Hk. lia. }
  apply existsb_In in Hin. congruence.
Qed.

(** Board [b], the board of call [k], has gone from [w] to [w']. *)
Lemma moved_settles (b : nat) (w w' : Board.World) (c : State) (k p : nat)
    (s : Settled nat) :
  orderly c -> (forall j, seen j c) ->
  calls c !! k = Some (mkCall b p s) ->
  moved b w w' c =
  settle_call k
    (if Nat.ltb (Board.released (Board.log w)) (Board.released (Board.log w'))
     then on_RELEASED b (with_store (<[b := w']> (store c)) c)
     else with_store (<[b := w']> (store c)) c).
Proof.
  intros Ho Hs Hk. unfold moved. apply settle_calls_one.
  set (c1 := with_store (<[b := w']> (store c)) c).
  assert (Ho1 : orderly c1) by now apply orderly_store.
  assert (H1 : forall j, j <> k -> seen j c1).
  { intros j Hj bj pj wj Hcj Hbj. cbn -[lookup insert] in Hcj, Hbj.
    assert (Hne : bj <> b).
    { intros ->. apply Hj.
      apply (NoDup_map_lookup call_board (calls c) j k _ _ (orderly_one_call c Ho) Hcj Hk).
      reflexivity. }
    rewrite list_lookup_insert_ne in Hbj by congruence. exact (Hs j bj pj wj Hcj Hbj). }
  destruct (Nat.ltb _ _); [|exact H1].
  destruct (on_RELEASED_spec b c1 Ho1) as (_ & _ & Hst & Hc).
  intros j Hj bj pj wj. rewrite Hst, Hc. now apply H1.
Qed.

Lemma indexOf_last (b : nat) (bs : list nat) :
  ~ In b bs -> indexOf b (bs ++ [b]) = Some (length bs).
Proof.
  induction bs as [|x bs IH]; cbn; intros H; [now rewrite Nat.eqb_refl|].
  destruct (Nat.eqb_spec x b) as [->|_]; [tauto|]. rewrite IH by tauto. reflexivity.
Qed.

Lemma delete_last {A} (l : list A) (x : A) : delete (length l) (l ++ [x]) = l.
Proof. induction l as [|y l IH]; cbn; [reflexivity|f_equal; exact IH]. Qed.

Lemma connectSerial_fresh (extensionId : string) (c : State) :
  serial c = true ->
  connectSerial extensionId c =
  (Later (length (calls c)),
   with_calls (calls c ++ [mkCall (length (store c)) 0 Pending])
     (with_store (store c ++ [fresh_board extensionId (Connector.clock c)]) c)).
Proof. intros H. unfold connectSerial. rewrite H. reflexivity. Qed.

Lemma lookup_last {A} (l : list A) (x : A) : (l ++ [x]) !! length l = Some x.
Proof. now apply list_lookup_middle. Qed.

(** The states a board goes through from the call to the ready
    instance. *)
Lemma flow_states (c : State) (ext : string) (info : Board.PortInfo) (v : Z) :
  reachable c -> serial c = true ->
  let b := length (store c) in
  let k := length (calls c) in
  let wA := fresh_board ext (Connector.clock c) in
  let wB := Board.step (Board.PortOpened 0 info) wA in
  let wC := Board.step (Board.Emitted 0 Board.E_ready v) wB in
  let c1 := perform (Connects ext) c in
  let c2 := perform (Happens (At b (Board.PortOpened 0 info))) c1 in
  let c3 := perform (Happens (At b (Board.Emitted 0 Board.E_ready v))) c2 in
  c1 = with_calls (calls c ++ [mkCall b 0 Pending]) (with_store (store c ++ [wA]) c) /\
  c2 = with_calls (calls c ++ [mkCall b 0 Pending]) (with_store (store c ++ [wB]) c) /\
  c3 = mkState (boards c ++ [b]) (store c ++ [wC]) (serial c) (Connector.clock c)
         (calls c ++ [mkCall b 0 (Resolved b)]) (watching c ++ [b])
         (emitted c ++ [Emit BOARD_ADDED b]).
Proof.
  intros Hr Hser b k wA wB wC c1 c2 c3.
  destruct (reachable_orderly c Hr) as [Ho Hs].
  assert (E1 : c1 = with_calls (calls c ++ [mkCall b 0 Pending])
                      (with_store (store c ++ [wA]) c)).
  { unfold c1. cbn [perform]. now rewrite connectSerial_fresh. }
  assert (Ho1 : orderly c1 /\ forall j, seen j c1)
    by (apply (orderly_perform (Connects ext)); now split).
  assert (Ho2 : orderly c2 /\ forall j, seen j c2)
    by (apply (orderly_perform (Happens _)); exact Ho1).
  destruct Ho1 as [Ho1 Hs1]. destruct Ho2 as [Ho2 Hs2].
  assert (E2 : c2 = with_calls (calls c ++ [mkCall b 0 Pending])
                      (with_store (store c ++ [wB]) c)).
  { unfold c2. cbn [perform step]. rewrite on_board_moved.
    assert (Hb : store c1 !! b = Some wA) by (rewrite E1; apply lookup_last).
    assert (Hk : calls c1 !! k = Some (mkCall b 0 Pending))
      by (rewrite E1; apply lookup_last).
    rewrite Hb. cbv beta iota. fold wB.
    rewrite (moved_settles b wA wB c1 k 0 Pending Ho1 Hs1 Hk).
    change (Nat.ltb (Board.released (Board.log wA)) (Board.released (Board.log wB)))
      with false. cbv iota.
    rewrite settle_seen_id.
    - rewrite E1. cbn [store with_store with_calls boards serial Connector.clock calls
                       watching emitted]. unfold with_calls, with_store.
      cbn [store boards serial Connector.clock calls watching emitted].
      unfold b. now rewrite insert_last.
    - intros b' p' w' Hk' Hb'. cbn [calls with_store] in Hk'. rewrite Hk in Hk'.
      injection Hk' as <- <-. cbn [store with_store] in Hb'.
      rewrite E1 in Hb'. cbn [store with_store with_calls] in Hb'. unfold b in Hb'.
      rewrite insert_last, lookup_last in Hb'. injection Hb' as <-. exact I. }
  split; [exact E1|]. split; [exact E2|].
  unfold c3. cbn [perform step]. rewrite on_board_moved.
  assert (Hb : store c2 !! b = Some wB) by (rewrite E2; apply lookup_last).
  assert (Hk : calls c2 !! k = Some (mkCall b 0 Pending))
    by (rewrite E2; apply lookup_last).
  rewrite Hb. cbv beta iota. fold wC.
  rewrite (moved_settles b wB wC c2 k 0 Pending Ho2 Hs2 Hk).
  change (Nat.ltb (Board.released (Board.log wB)) (Board.released (Board.log wC)))
    with false. cbv iota.
  unfold settle_call. cbn [calls with_store store]. rewrite Hk.
  rewrite E2. cbn [store with_store with_calls]. unfold b at 1 2.
  rewrite insert_last, lookup_last.
  change (Board.cells <$> Some wC) with (Some (Board.cells wC)). cbv iota.
  change (Board.cells wC !! 0%nat) with (Some (Board.ConnectCell (Resolved tt))).
  cbv iota. unfold addBoard, with_calls, with_watching, with_emitted, with_boards, with_store.
  cbn [store boards serial Connector.clock calls watching emitted].
  unfold k. rewrite insert_last. unfold b at 2. now rewrite insert_last.
Qed.

Lemma perform_on (b : nat) (a : Spec.Action) (c : State) (w : Board.World) :
  store c !! b = Some w -> perform (on b a) c = moved b w (Spec.perform a w) c.
Proof.
  intros H. destruct a as [e|call]; cbn [on perform step Spec.perform].
  - rewrite on_board_moved, H. reflexivity.
  - unfold on_call. rewrite H. reflexivity.
Qed.

Lemma removeBoard_emitted (b : nat) (c : State) :
  In b (boards c) -> emitted (removeBoard b c) = emitted c ++ [Emit BOARD_ADDED b].
Proof.
  intros H. unfold removeBoard. destruct (indexOf b (boards c)) eqn:E; [reflexivity|].
  apply indexOf_None in E. contradiction.
Qed.

(** Board [b] of the registry has gone from [w] to [w']. *)
Lemma registered_moved (c : State) (b : nat) (w w' : Board.World) :
  orderly c -> (forall j, seen j c) ->
  In b (boards c) -> store c !! b = Some w ->
  let c' := moved b w w' c in
  store c' = <[b := w']> (store c) /\
  (Board.released (Board.log w') <= Board.released (Board.log w) ->
     boards c' = boards c /\ emitted c' = emitted c)%nat /\
  (Board.released (Board.log w) < Board.released (Board.log w') ->
     boards c' = List.filter (fun x => negb (Nat.eqb b x)) (boards c) /\
     ~ In b (boards c') /\
     emitted c' = emitted c ++
       [Emit BOARD_ADDED b;
        Runtime_PERIPHERAL_DISCONNECTED b (Board.portInfo (Board.board w'))])%nat.
Proof.
  intros Ho Hs Hin Hw c'.
  destruct (orderly_resolved c Ho b Hin) as (k & p & Hk).
  assert (E : c' = moved b w w' c) by reflexivity.
  rewrite (moved_settles b w w' c k p (Resolved b) Ho Hs Hk) in E.
  rewrite settle_seen_id in E.
  2:{ intros b' p' w'' Hk'.
      assert (Hc : forall X : State, calls X = calls c -> calls X !! k <> Some (mkCall b' p' Pending)).
      { intros X ->. rewrite Hk. discriminate. }
      exfalso. revert Hk'. apply Hc.
      destruct (Nat.ltb _ _); [|reflexivity].
      now destruct (on_RELEASED_spec b _ (orderly_store b w' c Ho)) as (_ & _ & _ & ->). }
  set (c1 := with_store (<[b := w']> (store c)) c) in E.
  assert (Ho1 : orderly c1) by now apply orderly_store.
  destruct (on_RELEASED_spec b c1 Ho1) as (Hb1 & _ & Hs1 & _).
  split; [|split].
  - rewrite E. destruct (Nat.ltb _ _); [exact Hs1|reflexivity].
  - intros Hle. rewrite E.
    destruct (Nat.ltb_spec (Board.released (Board.log w)) (Board.released (Board.log w')));
      [lia|]. now split.
  - intros Hlt. rewrite E.
    destruct (Nat.ltb_spec (Board.released (Board.log w)) (Board.released (Board.log w')));
      [|lia].
    split; [exact Hb1|]. split.
    + rewrite Hb1. intros Hx. apply filter_out_In in Hx. now destruct Hx.
    + unfold on_RELEASED.
      assert (Hex : existsb (Nat.eqb b) (watching c1) = true).
      { apply existsb_In. cbn [watching c1 with_store]. now rewrite (orderly_watching c Ho). }
      rewrite Hex. set (c0 := with_watching _ c1).
      cbn [emitted with_emitted].
      destruct (removeBoard_rest b c0) as (-> & _ & _).
      rewrite removeBoard_emitted by exact Hin.
      cbn [store c0 c1 with_watching with_store emitted].
      rewrite list_lookup_insert_eq by (now apply lookup_lt_Some in Hw).
      now rewrite <- app_assoc.
Qed.

(** A board in the registry takes a step: unless it emits RELEASED, the
    registry does not move and nothing is emitted; when it does, it is
    taken from the registry, BOARD_ADDED is emitted for it (the event
    [removeBoard] emits) and the runtime is then told
    PERIPHERAL_DISCONNECTED with the port information of the board; the
    other boards stay as they are. *)
Theorem released_board_is_unregistered (c : State) (b : nat) (a : Spec.Action)
    (w : Board.World) :
  reachable c -> In b (boards c) -> store c !! b = Some w ->
  let w' := Spec.perform a w in
  let c' := perform (on b a) c in
  store c' = <[b := w']> (store c) /\
  (Board.released (Board.log w') <= Board.released (Board.log w) ->
     boards c' = boards c /\ emitted c' = emitted c)%nat /\
  (Board.released (Board.log w) < Board.released (Board.log w') ->
     boards c' = List.filter (fun x => negb (Nat.eqb b x)) (boards c) /\
     ~ In b (boards c') /\
     emitted c' = emitted c ++
       [Emit BOARD_ADDED b;
        Runtime_PERIPHERAL_DISCONNECTED b (Board.portInfo (Board.board w'))])%nat.
Proof.
  intros Hr Hin Hw w' c'.
  destruct (reachable_orderly c Hr) as [Ho Hs].
  unfold c'. rewrite (perform_on b a c w Hw).
  now apply registered_moved.
Qed.

Lemma released_board_witness :
  let c := acquired in
  let w := nth 0 (store acquired) (Board.new_World 0) in
  let a := Spec.Inside Spec.do_disconnect in
  (reachable c /\ In 0%nat (boards c) /\ store c !! 0%nat = Some w /\
   (Board.released (Board.log w) < Board.released (Board.log (Spec.perform a w)))%nat) /\
  boards (perform (on 0 a) c)
  = List.filter (fun x => negb (Nat.eqb 0 x)) (boards c).
Proof.
  intros c w a.
  assert (Hin : In 0%nat (boards c)) by (vm_compute; now left).
  assert (Hw : store c !! 0%nat = Some w) by (vm_compute; reflexivity).
  assert (Hlt : (Board.released (Board.log w)
                 < Board.released (Board.log (Spec.perform a w)))%nat)
    by (vm_compute; lia).
  split; [split; [exact reachable_acquired|split; [exact Hin|split; [exact Hw|exact Hlt]]]|].
  exact (proj1 (proj2 (proj2
           (released_board_is_unregistered c 0 a w reachable_acquired Hin Hw)) Hlt)).
Defined.

(** A call of [connectSerial] on a connector in a browser with Web
    Serial constructs a board and returns a pending promise; nothing is
    registered or emitted when the port opens; when the instance on the
    port is ready the board is registered last in the registry,
    BOARD_ADDED is emitted once, the board is ready and the promise is
    resolved with it. If the port fails to open instead, the promise is
    rejected with the reason and nothing is registered or emitted. *)
Theorem board_is_registered_when_ready (c : State) (ext : string)
    (info : Board.PortInfo) (v : Z) (reason : Reason) :
  reachable c -> serial c = true ->
  let b := length (store c) in
  let k := length (calls c) in
  let c1 := perform (Connects ext) c in
  let c2 := perform (Happens (At b (Board.PortOpened 0 info))) c1 in
  let c3 := perform (Happens (At b (Board.Emitted 0 Board.E_ready v))) c2 in
  let c5 := perform (Happens (At b (Board.PortFailed 0 reason))) c1 in
  fst (connectSerial ext c) = Later k /\
  (boards c1 = boards c /\ emitted c1 = emitted c /\ status k c1 = Some Pending) /\
  (boards c2 = boards c /\ emitted c2 = emitted c /\ status k c2 = Some Pending) /\
  (boards c3 = boards c ++ [b] /\ emitted c3 = emitted c ++ [Emit BOARD_ADDED b] /\
   status k c3 = Some (Resolved b) /\
   Board.isReady <$> store c3 !! b = Some true) /\
  (boards c5 = boards c /\ emitted c5 = emitted c /\
   status k c5 = Some (Rejected reason)).
Proof.
  intros Hr Hser b k c1 c2 c3 c5.
  destruct (flow_states c ext info v Hr Hser) as (E1 & E2 & E3).
  fold b k c1 in E1, E2, E3. fold c2 in E2, E3. fold c3 in E3.
  split; [now rewrite connectSerial_fresh|].
  split; [rewrite E1; unfold status; cbn [calls boards emitted with_calls with_store];
          unfold k; now rewrite lookup_last|].
  split; [rewrite E2; unfold status; cbn [calls boards emitted with_calls with_store];
          unfold k; now rewrite lookup_last|].
  split.
  { rewrite E3. unfold status. cbn [calls boards emitted store].
    unfold k at 1. rewrite lookup_last. repeat split.
    unfold b. now rewrite lookup_last. }
  destruct (reachable_orderly c Hr) as [Ho Hs].
  assert (Ho1 : orderly c1 /\ forall j, seen j c1)
    by (apply (orderly_perform (Connects ext)); now split).
  destruct Ho1 as [Ho1 Hs1].
  set (wA := fresh_board ext (Connector.clock c)) in *.
  set (wF := Board.step (Board.PortFailed 0 reason) wA).
  assert (Hb : store c1 !! b = Some wA) by (rewrite E1; apply lookup_last).
  assert (Hk : calls c1 !! k = Some (mkCall b 0 Pending))
    by (rewrite E1; apply lookup_last).
  assert (E5 : c5 = with_calls (calls c ++ [mkCall b 0 (Rejected reason)])
                      (with_store (store c ++ [wF]) c)).
  { unfold c5. cbn [perform step]. rewrite on_board_moved, Hb. cbv beta iota. fold wF.
    rewrite (moved_settles b wA wF c1 k 0 Pending Ho1 Hs1 Hk).
    change (Nat.ltb (Board.released (Board.log wA)) (Board.released (Board.log wF)))
      with true. cbv iota.
    assert (Hn : ~ In b (boards c)).
    { intros Hin. destruct (orderly_resolved c Ho b Hin) as (j & p & Hj).
      pose proof (orderly_calls c Ho) as J1. rewrite List.Forall_forall in J1.
      specialize (J1 _ (proj1 (list_elem_of_In _ _) (list_elem_of_lookup_2 _ _ _ Hj))).
      cbn in J1. unfold b in J1. lia. }
    unfold on_RELEASED.
    assert (Hex : existsb (Nat.eqb b) (watching (with_store (<[b:=wF]> (store c1)) c1))
                  = false).
    { destruct (existsb _ _) eqn:Ex; [|reflexivity]. apply existsb_In in Ex.
      rewrite E1 in Ex. cbn [watching with_store with_calls] in Ex.
      rewrite (orderly_watching c Ho) in Ex. contradiction. }
    rewrite Hex. unfold settle_call. cbn [calls with_store store]. rewrite Hk.
    rewrite E1. cbn [store with_store with_calls calls]. unfold b at 1 2.
    rewrite insert_last, lookup_last.
    change (Board.cells <$> Some wF) with (Some (Board.cells wF)). cbv iota.
    change (Board.cells wF !! 0%nat) with (Some (Board.ConnectCell (Rejected reason))).
    cbv iota. unfold with_calls, with_store.
    cbn [store boards serial Connector.clock calls watching emitted].
    unfold k, b. now rewrite !insert_last. }
  rewrite E5. unfold status. cbn [calls boards emitted with_calls with_store].
  unfold k. now rewrite lookup_last.
Qed.

Lemma board_is_registered_witness :
  let c := new_State true 1700000000000 in
  (reachable c /\ serial c = true) /\
  boards (perform (Happens (At 0 (Board.Emitted 0 Board.E_ready 0)))
           (perform (Happens (At 0 (Board.PortOpened 0 Spec.a_port)))
              (perform (Connects "xcxArduino") c))) = [0%nat].
Proof.
  intros c.
  assert (Hr : reachable c) by (exists true, 1700000000000, []; reflexivity).
  split; [split; [exact Hr|reflexivity]|].
  exact (proj1 (proj1 (proj2 (proj2 (proj2
    (board_is_registered_when_ready c "xcxArduino" Spec.a_port 0
       (Failure "NotFoundError") Hr eq_refl)))))).
Defined.

End Flow.

(** ** The mark of a pin that is being read *)

Section Watched.

Import Board Spec.

Variable x : JsIndex.

Lemma watched_in_frame (L L' : list Timer) (w w' : World) :
  (forall pin q', the_pin w' pin = Some q' -> updating q' = true ->
     exists q, the_pin w pin = Some q /\ updating q = true) ->
  (forall T, In T L -> In T L') ->
  (forall p pin, cells w !! p = Some (ReadCell pin Pending) ->
     cells w' !! p = Some (ReadCell pin Pending)) ->
  watched_in L x w -> watched_in L' x w'.
Proof.
  intros Hp Ht Hc Hw pin q' Hq Hu.
  destruct (Hp pin q' Hq Hu) as (q & Hq0 & Hu0).
  destruct (Hw pin q Hq0 Hu0) as [E|(p & d & t & Hin & Hcell)]; [now left|right].
  exists p, d, t. split; [now apply Ht|now apply Hc].
Qed.

Variable ts : list Timer.

Lemma watched_frame (w w' : World) :
  (forall pin q', the_pin w' pin = Some q' -> updating q' = true ->
     exists q, the_pin w pin = Some q /\ updating q = true) ->
  (forall T, In T (timers w) -> In T (timers w')) ->
  (forall p pin, cells w !! p = Some (ReadCell pin Pending) ->
     cells w' !! p = Some (ReadCell pin Pending)) ->
  stays (watched ts x) w w'.
Proof.
  intros Hp Ht Hc. unfold stays, watched. apply watched_in_frame; [exact Hp| |exact Hc].
  intros T HT. apply in_app_iff in HT as [HT|HT]; apply in_app_iff; [now left|right; auto].
Qed.

(** A board without a pin has no pin to watch. *)
Lemma watched_none (w w' : World) :
  (forall pin, the_pin w' pin = None) -> stays (watched ts x) w w'.
Proof. intros H _ pin q Hq. rewrite H in Hq. discriminate. Qed.

Ltac watched_prim :=
  intros ?w; cbn -[lookup alter insert];
  apply watched_frame;
  [ intros ? ? H1 H2; eexists; split; [exact H1|exact H2]
  | intros ? H; exact H
  | intros ? ? H; exact H ].

Ltac walk :=
  repeat walk_step (stays_refl (watched ts x)) (stays_trans (watched ts x)) watched_prim.

Lemma watched_alter_firmata (f : nat) (g : Firmata -> Firmata) :
  (forall fo pin q', index (pins (g fo)) pin = Some q' -> updating q' = true ->
     exists q, index (pins fo) pin = Some q /\ updating q = true) ->
  respects (stays (watched ts x)) (alter_firmata f g).
Proof.
  intros Hg w. unfold alter_firmata, modify. cbn [snd].
  apply watched_frame; [|intros T H; exact H|intros p pin H; exact H].
  intros pin q' H Hu. unfold the_pin in *. cbn -[lookup alter] in H.
  destruct (firmata (board w)) as [f'|]; [|discriminate].
  destruct (Nat.eq_dec f' f) as [->|Hne].
  - rewrite list_lookup_alter_eq in H.
    destruct (heap w !! f) as [fo|]; cbn in H; [|discriminate].
    exact (Hg fo pin q' H Hu).
  - rewrite list_lookup_alter_ne in H by congruence.
    destruct (heap w !! f') as [fo|]; [|discriminate]. eauto.
Qed.

Lemma watched_listeners (f : nat) (ls : list Handler -> list Handler) :
  respects (stays (watched ts x))
    (alter_firmata f (fun fo => with_listeners (ls (listeners fo)) fo)).
Proof. apply watched_alter_firmata. intros fo pin q' H Hu. cbn in H. eauto. Qed.

Lemma watched_once (f : nat) (h : Handler) : respects (stays (watched ts x)) (once f h).
Proof. unfold once. apply (watched_listeners f (fun l => l ++ [h])). Qed.
#[local] Hint Resolve watched_once : walk.

Lemma watched_set_this_pin (pin : JsIndex) (g : Pin -> Pin) :
  (forall q, updating (g q) = true -> updating q = true) ->
  respects (stays (watched ts x)) (set_this_pin pin g).
Proof.
  intros Hg. unfold set_this_pin. walk.
  apply watched_alter_firmata. intros fo pin' q' H Hu. cbn [pins with_pins] in H.
  rewrite index_alter_any in H. destruct (JsIndex_eqb pin pin'); [|eauto].
  destruct (index (pins fo) pin') as [q|]; cbn in H; [|discriminate].
  injection H as <-. eauto.
Qed.

Lemma watched_set_value pin v : respects (stays (watched ts x)) (set_this_pin pin (with_value v)).
Proof. apply watched_set_this_pin. intros q H. exact H. Qed.
Lemma watched_set_updateTime pin t :
  respects (stays (watched ts x)) (set_this_pin pin (with_updateTime t)).
Proof. apply watched_set_this_pin. intros q H. exact H. Qed.
Lemma watched_set_inputBias pin m :
  respects (stays (watched ts x)) (set_this_pin pin (with_inputBias m)).
Proof. apply watched_set_this_pin. intros q H. exact H. Qed.
Lemma watched_clear_updating pin :
  respects (stays (watched ts x)) (set_this_pin pin (with_updating false)).
Proof. apply watched_set_this_pin. intros q H. discriminate H. Qed.
#[local] Hint Resolve watched_set_value watched_set_updateTime watched_set_inputBias
  watched_clear_updating : walk.

Lemma watched_send (c : Command) : respects (stays (watched ts x)) (send c).
Proof. unfold send, emit. walk. Qed.
#[local] Hint Resolve watched_send : walk.

Lemma watched_new_cell (c : Cell) : respects (stays (watched ts x)) (new_cell c).
Proof.
  intros w. cbn. apply watched_frame;
    [intros ? ? H1 H2; eauto|intros ? H; exact H|].
  intros p pin H. cbn. now apply lookup_app_l_Some.
Qed.
#[local] Hint Resolve watched_new_cell : walk.

Lemma In_insert_timer (T U : Timer) (l : list Timer) :
  In T (insert_timer U l) <-> T = U \/ In T l.
Proof.
  destruct (insert_timer_split U l) as (l1 & l2 & -> & ->).
  rewrite !in_app_iff. cbn. intuition congruence.
Qed.

Lemma watched_setTimeout (a : TimerAction) (d : Z) :
  respects (stays (watched ts x)) (setTimeout a d).
Proof.
  intros w. cbn. apply watched_frame;
    [intros ? ? H1 H2; eauto| |intros ? ? H; exact H].
  intros T H. cbn. apply In_insert_timer. now right.
Qed.
#[local] Hint Resolve watched_setTimeout : walk.

(** A promise that is no pending read is settled. *)
Lemma watched_set_cell (p : nat) (c : Cell) (w : World) :
  (forall pin, cells w !! p <> Some (ReadCell pin Pending)) ->
  stays (watched ts x) w (with_cells (<[p := c]> (cells w)) w).
Proof.
  intros Hp. apply watched_frame;
    [intros ? ? H1 H2; eauto|intros ? H; exact H|].
  intros p' pin H. cbn -[lookup insert].
  rewrite list_lookup_insert_ne; [exact H|]. intros ->. now apply (Hp pin).
Qed.

Lemma watched_settle_sent p o : respects (stays (watched ts x)) (settle_sent p o).
Proof.
  intros w. unfold settle_sent, bind, gets. cbn [fst snd].
  destruct (cells w !! p) as [[s|pin s|[| |]]|] eqn:E; try apply stays_refl.
  cbn. apply watched_set_cell. intros pin. rewrite E. discriminate.
Qed.
#[local] Hint Resolve watched_settle_sent : walk.

Lemma watched_resolve_connect p : respects (stays (watched ts x)) (resolve_connect p).
Proof.
  intros w. unfold resolve_connect, bind, gets. cbn [fst snd].
  destruct (cells w !! p) as [[[| |]|pin s|s]|] eqn:E; try apply stays_refl.
  cbn. apply watched_set_cell. intros pin. rewrite E. discriminate.
Qed.
#[local] Hint Resolve watched_resolve_connect : walk.

Lemma released_no_pin (w : World) (pin : JsIndex) :
  the_pin (exec releaseBoard w) pin = None.
Proof. unfold the_pin. now rewrite releaseBoard_board. Qed.

Lemma watched_releaseBoard : respects (stays (watched ts x)) releaseBoard.
Proof. intros w. apply watched_none. apply released_no_pin. Qed.
#[local] Hint Resolve watched_releaseBoard : walk.

Lemma watched_disconnect : respects (stays (watched ts x)) disconnect.
Proof. unfold disconnect. walk. Qed.
#[local] Hint Resolve watched_disconnect : walk.

Lemma watched_handleDisconnectError : respects (stays (watched ts x)) handleDisconnectError.
Proof. unfold handleDisconnectError, emit. walk. Qed.
#[local] Hint Resolve watched_handleDisconnectError : walk.

Lemma watched_reject_connect p reason :
  respects (stays (watched ts x)) (reject_connect p reason).
Proof.
  intros w. unfold reject_connect. unfold bind at 1, gets. cbn [fst snd].
  destruct (cells w !! p) as [[[| |]|pin s|s]|] eqn:E; try apply stays_refl.
  apply watched_none. intros pin. unfold bind.
  pose proof (releaseBoard_returns w) as Hr. pose proof (released_no_pin w pin) as Hn.
  unfold exec in Hn. destruct (releaseBoard w) as [[[]|r] w1]; [|discriminate Hr].
  cbn in Hn |- *. exact Hn.
Qed.
#[local] Hint Resolve watched_reject_connect : walk.

Lemma watched_connectSerial : respects (stays (watched ts x)) connectSerial.
Proof. unfold connectSerial. walk. Qed.
#[local] Hint Resolve watched_connectSerial : walk.

Lemma watched_onBoarReady : respects (stays (watched ts x)) onBoarReady.
Proof. unfold onBoarReady. walk. Qed.
#[local] Hint Resolve watched_onBoarReady : walk.

End Watched.

Section Settling.

Import Board Spec.

Lemma JsIndex_eqb_eq (a b : JsIndex) : JsIndex_eqb a b = true -> a = b.
Proof.
  destruct a as [y|], b as [z|]; cbn; try discriminate; [|reflexivity].
  intros H. apply Z.eqb_eq in H. now subst.
Qed.

(** What the callbacks of a pending read do: its promise is settled,
    and no pin is marked that was not; the pin of the read is not
    marked any more. *)
Lemma settle_read_pins (w : World) (p : nat) (o : Settled Z) (pin : JsIndex) :
  cells w !! p = Some (ReadCell pin Pending) ->
  let w' := exec (settle_read p o) w in
  fst (settle_read p o w) = Ok tt /\
  timers w' = timers w /\
  (exists s, cells w' = <[p := ReadCell pin s]> (cells w)) /\
  forall pin' q', the_pin w' pin' = Some q' ->
    exists q, the_pin w pin' = Some q /\
      (updating q' = true -> updating q = true /\ JsIndex_eqb pin pin' = false).
Proof.
  intros Hc.
  destruct w as [[st fm ext pi a1 a2 a3 a4 a5 a6] h c t ce o' l].
  cbn -[lookup] in Hc. unfold settle_read.
  destruct fm as [f|].
  2:{ destruct o; js; norm; (split; [reflexivity|]); (split; [reflexivity|]);
      (split; [eexists; reflexivity|]); intros pin' q' H; discriminate H. }
  destruct (h !! f) as [fo|] eqn:Hh.
  2:{ destruct o; js; norm; (split; [reflexivity|]); (split; [reflexivity|]);
      (split; [eexists; reflexivity|]); intros pin' q' H;
      unfold the_pin in H; cbn -[lookup] in H; rewrite ?Hh in H; discriminate H. }
  destruct (index (pins fo) pin) as [q0|] eqn:Hq.
  2:{ destruct o; js; norm; (split; [reflexivity|]); (split; [reflexivity|]);
      (split; [eexists; reflexivity|]).
      all: intros pin' q' H; exists q'; (split; [exact H|]); intros Hu;
           (split; [exact Hu|]);
           unfold the_pin in H; cbn -[lookup index] in H; rewrite ?Hh in H.
      all: destruct (JsIndex_eqb pin pin') eqn:Eb; [|reflexivity].
      all: apply JsIndex_eqb_eq in Eb; subst pin'; congruence. }
  destruct o; js; norm; (split; [reflexivity|]); (split; [reflexivity|]);
    (split; [eexists; reflexivity|]).
  all: intros pin' q' H; unfold the_pin in *;
       cbn -[lookup insert alter index alter_index] in *;
       rewrite ?list_lookup_alter_eq, ?Hh in *;
       cbn -[lookup insert alter index alter_index] in *;
       rewrite ?index_alter_any in H;
       destruct (JsIndex_eqb pin pin') eqn:Eb;
       [ destruct (index (pins fo) pin') as [q1|]; cbn in H; [|discriminate H];
         injection H as <-; exists q1; split; [reflexivity|]; cbn; discriminate
       | exists q'; split; [exact H|]; intros Hu; split; [exact Hu|reflexivity] ].
Qed.

Lemma settle_read_idle (w : World) (p : nat) (o : Settled Z) :
  (forall pin, cells w !! p <> Some (ReadCell pin Pending)) ->
  settle_read p o w = (Ok tt, w).
Proof.
  intros H. unfold settle_read, bind, gets. cbn [fst snd].
  destruct (cells w !! p) as [[s|pin [| |]|s]|] eqn:E; try reflexivity.
  now contradiction (H pin).
Qed.

Variable x : JsIndex.

(** The callbacks of read [p] run: the timers of [p] are not needed any
    more. *)
Lemma settle_read_watched_in (p : nat) (o : Settled Z) (L L' : list Timer) (w : World) :
  (forall T, In T L -> In T L' \/ exists t d, T = mkTimer t (RejectAfter p d)) ->
  watched_in L x w -> watched_in L' x (exec (settle_read p o) w).
Proof.
  intros HL Hw.
  assert (Hcase : (exists pin, cells w !! p = Some (ReadCell pin Pending)) \/
                  (forall pin, cells w !! p <> Some (ReadCell pin Pending))).
  { destruct (cells w !! p) as [[s|pin [| |]|s]|]; eauto; right; intros; discriminate. }
  destruct Hcase as [[pin Hc]|Hn].
  - destruct (settle_read_pins w p o pin Hc) as (_ & _ & [s Hs] & Hp).
    intros pin' q' Hq Hu. destruct (Hp pin' q' Hq) as (q & Hq0 & Hu0).
    destruct (Hu0 Hu) as [Hu1 Hne].
    destruct (Hw pin' q Hq0 Hu1) as [E|(p' & d & t & Hin & Hcell)]; [now left|right].
    assert (Hpp : p' <> p).
    { intros ->. rewrite Hc in Hcell. injection Hcell as ->.
      rewrite JsIndex_eqb_refl in Hne. discriminate. }
    exists p', d, t. split.
    + destruct (HL _ Hin) as [H|(t0 & d0 & [= _ E _])]; [exact H|congruence].
    + rewrite Hs. now rewrite list_lookup_insert_ne by congruence.
  - unfold exec. rewrite settle_read_idle by exact Hn. cbn [snd].
    intros pin' q Hq Hu.
    destruct (Hw pin' q Hq Hu) as [E|(p' & d & t & Hin & Hcell)]; [now left|right].
    exists p', d, t. split; [|exact Hcell].
    destruct (HL _ Hin) as [H|(t0 & d0 & [= _ E _])]; [exact H|].
    subst p'. now contradiction (Hn pin').
Qed.

Lemma settle_read_timers (p : nat) (o : Settled Z) (w : World) :
  fst (settle_read p o w) = Ok tt /\ timers (exec (settle_read p o) w) = timers w.
Proof.
  assert (Hcase : (exists pin, cells w !! p = Some (ReadCell pin Pending)) \/
                  (forall pin, cells w !! p <> Some (ReadCell pin Pending))).
  { destruct (cells w !! p) as [[s|pin [| |]|s]|]; eauto; right; intros; discriminate. }
  destruct Hcase as [[pin Hc]|Hn].
  - destruct (settle_read_pins w p o pin Hc) as (H1 & H2 & _). now split.
  - unfold exec. rewrite settle_read_idle by exact Hn. now split.
Qed.

Lemma watched_settle_read (ts : list Timer) (p : nat) (o : Settled Z) :
  respects (stays (watched ts x)) (settle_read p o).
Proof.
  intros w Hw. unfold watched. fold (exec (settle_read p o) w).
  rewrite (proj2 (settle_read_timers p o w)).
  apply (settle_read_watched_in p o (ts ++ timers w)); [auto|exact Hw].
Qed.

Lemma settle_sent_timers (p : nat) (o : Settled unit) (w : World) :
  fst (settle_sent p o w) = Ok tt /\ timers (exec (settle_sent p o) w) = timers w.
Proof.
  unfold exec, settle_sent, bind, gets. cbn [fst snd].
  destruct (cells w !! p) as [[s|pin s|[| |]]|]; now split.
Qed.

(** A timer goes off. *)
Lemma fire_watched_in (T : Timer) (L : list Timer) (w : World) :
  watched_in (T :: L) x w ->
  watched_in L x (exec (fire (action T)) w) /\
  fst (fire (action T) w) = Ok tt /\
  timers (exec (fire (action T)) w) = timers w.
Proof.
  intros Hw. destruct T as [t [p d|p]]; cbn [action fire].
  - split; [|apply settle_read_timers].
    apply (settle_read_watched_in p _ (mkTimer t (RejectAfter p d) :: L)); [|exact Hw].
    intros T [<-|H]; [right; eauto|now left].
  - split; [|apply settle_sent_timers].
    assert (Hw' : watched_in L x w).
    { intros pin q Hq Hu.
      destruct (Hw pin q Hq Hu) as [E|(p' & d & t' & [Hin|Hin] & Hcell)];
        [now left|discriminate Hin|right; exists p', d, t'; now split]. }
    revert Hw'. unfold exec, settle_sent, bind, gets. cbn [fst snd].
    destruct (cells w !! p) as [[s|pin s|[| |]]|] eqn:E; try (intros H; exact H).
    cbn. apply watched_in_frame;
      [intros ? ? H1 H2; eauto|intros ? H; exact H|].
    intros p' pin H. cbn -[lookup insert].
    rewrite list_lookup_insert_ne; [exact H|]. intros ->. congruence.
Qed.

End Settling.

Section Promises.

Import Board Spec.

Lemma same_promises_refl (w : World) : same_promises w w.
Proof. now split. Qed.

Lemma same_promises_trans (w1 w2 w3 : World) :
  same_promises w1 w2 -> same_promises w2 w3 -> same_promises w1 w3.
Proof. intros [H1 H2] [H3 H4]. split; congruence. Qed.

Ltac same_prim := intros ?w; cbn -[lookup alter insert]; split; reflexivity.

Ltac walk := repeat walk_step same_promises_refl same_promises_trans same_prim.

Lemma same_set_this_pin pin g : respects same_promises (set_this_pin pin g).
Proof. unfold set_this_pin, alter_firmata. walk. Qed.

Lemma same_send c : respects same_promises (send c).
Proof. unfold send, emit. walk. Qed.

Lemma same_once f h : respects same_promises (once f h).
Proof. unfold once, alter_firmata. walk. Qed.

End Promises.

Section Watching.

Import Board Spec.

Variable ts : list Timer.

#[local] Hint Resolve watched_once watched_set_value watched_set_updateTime
  watched_set_inputBias watched_clear_updating watched_send watched_new_cell
  watched_setTimeout watched_settle_sent watched_resolve_connect
  watched_releaseBoard watched_disconnect watched_handleDisconnectError
  watched_reject_connect watched_connectSerial watched_onBoarReady
  watched_settle_read : walk.

Ltac watched_prim x :=
  intros ?w; cbn -[lookup alter insert];
  apply watched_frame;
  [ intros ? ? H1 H2; eexists; split; [exact H1|exact H2]
  | intros ? H; exact H
  | intros ? ? H; exact H ].

Ltac walk x :=
  repeat walk_step (stays_refl (watched ts x)) (stays_trans (watched ts x))
                   ltac:(watched_prim x).

Lemma fire_all_watched_in (x : JsIndex) (due L : list Timer) (w : World) :
  watched_in (due ++ L) x w ->
  watched_in L x (exec (fire_all due) w) /\
  timers (exec (fire_all due) w) = timers w.
Proof.
  revert w; induction due as [|T due IH]; intros w Hw; cbn [fire_all].
  { now split. }
  destruct (fire_watched_in x T (due ++ L) w Hw) as (H1 & H2 & H3).
  unfold exec in *. unfold bind.
  destruct (fire (action T) w) as [[[]|r] w1]; cbn [fst snd] in *; [|discriminate H2].
  destruct (IH w1 H1) as [H4 H5]. split; [exact H4|congruence].
Qed.

Lemma watched_elapse (x : JsIndex) (ms : Z) : respects (stays (watched ts x)) (elapse ms).
Proof.
  intros w Hw. change (elapse ms w) with (handle (Elapsed ms) w). rewrite elapse_fires.
  set (now := clock w + Z.max 0 ms).
  set (due := List.filter (fun t => due t <=? now) (timers w)).
  set (rest := List.filter (fun t => negb (Board.due t <=? now)) (timers w)).
  set (w1 := with_timers rest (with_clock now w)).
  destruct (fire_all_watched_in x due (ts ++ rest) w1) as [H1 H2].
  - revert Hw. unfold watched. apply watched_in_frame;
      [intros ? ? H3 H4; eauto| |intros ? ? H; exact H].
    intros T HT. rewrite !in_app_iff in *. destruct HT as [HT|HT]; [tauto|].
    unfold due, rest. rewrite !List.filter_In.
    destruct (Board.due T <=? now); cbn; tauto.
  - unfold watched. fold (exec (fire_all due) w1). rewrite H2. exact H1.
Qed.
#[local] Hint Resolve watched_elapse : walk.

Lemma watched_run_handler (x : JsIndex) f h v :
  respects (stays (watched ts x)) (run_handler f h v).
Proof. destruct h; cbn [run_handler]; walk x. Qed.
#[local] Hint Resolve watched_run_handler : walk.

Lemma watched_run_handlers (x : JsIndex) f hs v :
  respects (stays (watched ts x)) (run_handlers f hs v).
Proof. induction hs; cbn [run_handlers]; walk x. Qed.
#[local] Hint Resolve watched_run_handlers : walk.

Lemma watched_deliver (x : JsIndex) f s v :
  respects (stays (watched ts x)) (deliver f s v).
Proof.
  unfold deliver. walk x.
  apply watched_alter_firmata. intros fo' pin q' H Hu. cbn in H. eauto.
Qed.
#[local] Hint Resolve watched_deliver : walk.

Lemma index_nil {A} (pin : JsIndex) : index (@nil A) pin = None.
Proof. destruct pin as [z|]; cbn; [|reflexivity]. now destruct (z <? 0). Qed.

(** The port opens: the instance the board takes has no pin yet. *)
Lemma watched_port_opened (x : JsIndex) p info :
  respects (stays (watched ts x)) (port_opened p info).
Proof.
  intros [[st fm ext pi a1 a2 a3 a4 a5 a6] h c t ce o l].
  unfold port_opened, setupFirmata, landed, once. js.
  apply watched_none. intros pin. unfold the_pin. cbn -[lookup alter index].
  rewrite !list_lookup_alter_eq, list_lookup_middle by reflexivity.
  cbn. apply index_nil.
Qed.
#[local] Hint Resolve watched_port_opened : walk.

Lemma lookup_map {A B} (f : A -> B) (l : list A) (i : nat) :
  map f l !! i = f <$> l !! i.
Proof. revert i; induction l as [|a l IH]; intros [|i]; cbn; auto. Qed.

Lemma watched_library (x : JsIndex) f u :
  respects (stays (watched ts x)) (alter_firmata f (lib_update u)).
Proof.
  apply watched_alter_firmata. intros fo pin q' H Hu.
  destruct u as [ps aps|b|b]; cbn in H; [|eauto|eauto].
  exfalso. destruct pin as [z|]; cbn in H; [|discriminate].
  destruct (z <? 0); [discriminate|]. rewrite lookup_map in H.
  destruct (ps !! Z.to_nat z); cbn in H; [|discriminate].
  injection H as <-. discriminate Hu.
Qed.
#[local] Hint Resolve watched_library : walk.

Lemma watched_handle (x : JsIndex) (e : Event) :
  respects (stays (watched ts x)) (handle e).
Proof. destruct e; cbn [handle]; unfold landed; walk x. Qed.

Lemma watched_paced (x : JsIndex) (c : M unit) :
  respects (stays (watched ts x)) c -> respects (stays (watched ts x)) (paced c).
Proof. intros H. unfold paced. walk x. Qed.

Lemma set_this_pin_cases (pin : JsIndex) (g : Pin -> Pin) (w : World) :
  (exists r, set_this_pin pin g w = (Throw r, w)) \/
  (exists w1, set_this_pin pin g w = (Ok tt, w1) /\
     cells w1 = cells w /\ timers w1 = timers w /\
     forall pin' q', the_pin w1 pin' = Some q' ->
       JsIndex_eqb pin pin' = true \/ the_pin w pin' = Some q').
Proof.
  destruct w as [[st fm ext pi a1 a2 a3 a4 a5 a6] h c t ce o l].
  unfold set_this_pin. js.
  destruct fm as [f|]; js; [|left; eauto].
  destruct (h !! f) as [fo|] eqn:Hh; js; [|left; eauto].
  destruct (index (pins fo) pin) as [q|] eqn:Hq; js; [|left; eauto].
  right. eexists. split; [reflexivity|]. cbn -[lookup alter index alter_index].
  split; [reflexivity|]. split; [reflexivity|].
  intros pin' q'. rewrite list_lookup_alter_eq, Hh. cbn -[index alter_index].
  rewrite index_alter_any. destruct (JsIndex_eqb pin pin'); [now left|now right].
Qed.

Lemma watched_excused (L : list Timer) (pin : JsIndex) (w : World) :
  watched_in L pin w -> awaited L w pin -> watched_in L None w.
Proof.
  intros Hw Ha pin' q Hq Hu. right.
  destruct (Hw pin' q Hq Hu) as [E|H]; [|exact H].
  apply JsIndex_eqb_eq in E. now subst pin'.
Qed.

Lemma attempt_runs {A} (c : M A) (w : World) :
  attempt c w = (Ok (fst (c w)), snd (c w)).
Proof. unfold attempt. now destruct (c w). Qed.

(** A read goes out: the pin is marked, the promise is made, the
    request is sent and the timeout is set; if the request fails the
    callbacks of the read run at once. *)
Lemma read_tail_watched (pin : JsIndex) (body : nat -> M unit) (waiting : World -> Z) :
  (forall p, respects (stays (watched ts pin)) (body p)) ->
  (forall p, respects same_promises (body p)) ->
  respects (stays (watched ts None))
    (bind (set_this_pin pin (with_updating true)) (fun _ =>
     bind (new_cell (ReadCell pin Pending)) (fun p =>
     bind (attempt (body p)) (fun r =>
     bind (gets waiting) (fun wait =>
     bind (setTimeout (RejectAfter p wait) wait) (fun _ =>
     bind (match r with
           | Ok _ => ret tt
           | Throw e => settle_read p (Rejected e)
           end) (fun _ =>
     ret (Later p : Promise Z)))))))).
Proof.
  intros Hb Hs w Hw. unfold bind at 1.
  destruct (set_this_pin_cases pin (with_updating true) w)
    as [[r E]|(w1 & E & Hc1 & Ht1 & Hp1)]; rewrite E; [exact Hw|].
  assert (Hw1 : watched ts pin w1).
  { intros pin' q' Hq Hu. destruct (Hp1 pin' q' Hq) as [Eb|Hq0]; [now left|].
    destruct (Hw pin' q' Hq0 Hu) as [Eb|(p & d & t & Hin & Hcell)].
    - apply JsIndex_eqb_eq in Eb. subst pin'.
      unfold the_pin in Hq0. destruct (firmata (board w)); [|discriminate].
      destruct (heap w !! n); discriminate.
    - right. exists p, d, t. rewrite Ht1, Hc1. now split. }
  unfold bind at 1. cbn [new_cell].
  set (p := length (cells w1)).
  set (w2 := with_cells (cells w1 ++ [ReadCell pin Pending]) w1).
  assert (Hw2 : watched ts pin w2) by (apply (watched_new_cell pin ts _ w1); exact Hw1).
  assert (Hc2 : cells w2 !! p = Some (ReadCell pin Pending))
    by (cbn; now apply list_lookup_middle).
  unfold bind at 1. rewrite attempt_runs.
  set (w3 := snd (body p w2)).
  assert (Hw3 : watched ts pin w3) by (apply Hb; exact Hw2).
  destruct (Hs p w2) as [Hc3 Ht3]. fold w3 in Hc3, Ht3.
  unfold bind at 1, gets. unfold bind at 1, setTimeout, modify.
  set (wait := waiting w3).
  set (T := mkTimer (clock w3 + Z.max 0 wait) (RejectAfter p wait)).
  set (w4 := with_timers (insert_timer T (timers w3)) w3).
  assert (Hw4 : watched ts None w4).
  { apply (watched_excused _ pin).
    - apply (watched_setTimeout pin ts (RejectAfter p wait) wait w3). exact Hw3.
    - exists p, wait, (clock w3 + Z.max 0 wait). split.
      + apply in_app_iff. right. cbn. apply In_insert_timer. now left.
      + cbn. now rewrite Hc3. }
  destruct (fst (body p w2)) as [[]|e].
  - exact Hw4.
  - unfold bind.
    pose proof (watched_settle_read None ts p (Rejected e) w4 Hw4) as H5.
    destruct (settle_read p (Rejected e) w4) as [[[]|r] w5]; exact H5.
Qed.

Lemma watched_updateDigitalInput (pin : JsIndex) :
  respects (stays (watched ts None)) (updateDigitalInput pin).
Proof.
  unfold updateDigitalInput.
  apply (respects_bind _ (stays_trans (watched ts None))); [walk (@None Z)|intros p0].
  destruct (match mode p0 with Some m => _ | None => false end); [walk (@None Z)|].
  apply (respects_bind _ (stays_trans (watched ts None))); [walk (@None Z)|intros now].
  apply (respects_bind _ (stays_trans (watched ts None))); [walk (@None Z)|intros itv].
  destruct (recent now itv p0); [walk (@None Z)|].
  apply (read_tail_watched pin
           (fun p =>
              bind (this_pin pin) (fun q =>
              bind (if negb (is_mode MODES.PULLUP (inputBias q))
                    then set_this_pin pin (with_inputBias MODES.INPUT) else ret tt)
                   (fun _ =>
              bind (this_pin pin) (fun q' =>
              bind (send (c_pinMode pin (default MODES.INPUT (inputBias q')))) (fun _ =>
              bind (send (c_reportDigitalPin pin 1)) (fun _ =>
              bind this_firmata (fun f => once f (on_digital_read pin p))))))))
           (fun w => updateDigitalInputWaitingTime (board w))).
  - intros p. walk pin.
  - intros p.
    repeat walk_step same_promises_refl same_promises_trans
      ltac:(first [apply same_set_this_pin|apply same_send|apply same_once]).
Qed.

Lemma watched_updateAnalogInput (analogPin : JsIndex) :
  respects (stays (watched ts None)) (updateAnalogInput analogPin).
Proof.
  unfold updateAnalogInput.
  apply (respects_bind _ (stays_trans (watched ts None))); [walk (@None Z)|intros f].
  apply (respects_bind _ (stays_trans (watched ts None))); [walk (@None Z)|intros fo].
  apply (respects_bind _ (stays_trans (watched ts None))); [walk (@None Z)|intros p0].
  apply (respects_bind _ (stays_trans (watched ts None))); [walk (@None Z)|intros now].
  apply (respects_bind _ (stays_trans (watched ts None))); [walk (@None Z)|intros itv].
  destruct (recent now itv p0); [walk (@None Z)|].
  apply (read_tail_watched (index (analogPins fo) analogPin)
           (fun p =>
              bind (send (c_pinMode analogPin MODES.ANALOG)) (fun _ =>
              bind (send (c_reportAnalogPin analogPin 1)) (fun _ =>
              bind this_firmata (fun g =>
                once g (on_analog_read analogPin (index (analogPins fo) analogPin) p)))))
           (fun w => updateAnalogInputWaitingTime (board w))).
  - intros p. walk (index (analogPins fo) analogPin).
  - intros p.
    repeat walk_step same_promises_refl same_promises_trans
      ltac:(first [apply same_set_this_pin|apply same_send|apply same_once]).
Qed.
#[local] Hint Resolve watched_updateDigitalInput watched_updateAnalogInput : walk.

Lemma watched_invoke (c : Call) : respects (stays (watched ts None)) (invoke c).
Proof.
  destruct c; cbn [invoke]; try (walk (@None Z); fail).
  - destruct i; cbn [update]; walk (@None Z).
  - unfold setInputBias, pinMode.
    apply (respects_bind _ (stays_trans (watched ts None))); [|intros ?; walk (@None Z)].
    apply (respects_bind _ (stays_trans (watched ts None))); [walk (@None Z)|intros ?].
    apply watched_paced. walk (@None Z).
  - unfold pinMode. walk (@None Z).
  - apply (respects_bind _ (stays_trans (watched ts None))); [|intros ?; walk (@None Z)].
    apply watched_paced. walk (@None Z).
  - apply (respects_bind _ (stays_trans (watched ts None))); [|intros ?; walk (@None Z)].
    apply watched_paced. walk (@None Z).
  - apply (respects_bind _ (stays_trans (watched ts None))); [|intros ?; walk (@None Z)].
    apply watched_paced. walk (@None Z).
Qed.

End Watching.

Section Awaited.

Import Board Spec.

Lemma reachable_watched (w : World) : reachable w -> watched [] None w.
Proof.
  intros (t & acts & ->).
  apply (respects_fold (stays (watched [] None)) (stays_refl (watched [] None))
           (stays_trans (watched [] None)) (fun a w => perform a w) acts (new_World t)).
  - intros [e|c] w0; cbn [perform]; [apply watched_handle|apply watched_invoke].
  - intros pin q H. discriminate H.
Qed.

(** In every world a board gets into, a pin of the instance it holds
    that is marked as updating has a read in flight: a pending promise
    of an input update of that pin, whose timeout is among the timers
    set. So the mark does not outlast the waiting time of the read, and
    once no timer is left no pin is marked. *)
Theorem updating_pin_is_awaited (w : World) :
  reachable w ->
  (forall pin q, the_pin w pin = Some q -> updating q = true ->
     exists p delay t,
       In (mkTimer t (RejectAfter p delay)) (timers w) /\
       cells w !! p = Some (ReadCell pin Pending)) /\
  (timers w = [] -> forall pin q, the_pin w pin = Some q -> updating q = false).
Proof.
  intros H. pose proof (reachable_watched w H) as Hw.
  assert (H1 : forall pin q, the_pin w pin = Some q -> updating q = true ->
                 exists p delay t,
                   In (mkTimer t (RejectAfter p delay)) (timers w) /\
                   cells w !! p = Some (ReadCell pin Pending)).
  { intros pin q Hq Hu. destruct (Hw pin q Hq Hu) as [E|Ha]; [|exact Ha].
    apply JsIndex_eqb_eq in E. subst pin. unfold the_pin in Hq.
    destruct (firmata (board w)); [|discriminate].
    destruct (heap w !! n); discriminate. }
  split; [exact H1|].
  intros Ht pin q Hq. destruct (updating q) eqn:Hu; [|reflexivity].
  destruct (H1 pin q Hq Hu) as (p & d & t & Hin & _). rewrite Ht in Hin. destruct Hin.
Qed.

Lemma reachable_reading_world : reachable reading_world.
Proof.
  exists 1700000000000,
    [Inside do_connectSerial; Outside (PortOpened 0 a_port);
     Outside (Emitted 0 E_open 0); Outside (Library 0 (Topology three_pins [2]));
     Outside (Emitted 0 E_ready 0); Inside (do_update (Digital (Some 1)))].
  vm_compute. reflexivity.
Qed.

Lemma updating_pin_witness :
  let q := mkPin [MODES.INPUT; MODES.OUTPUT] None 0 None true (Some MODES.INPUT) in
  (reachable reading_world /\ the_pin reading_world (Some 1) = Some q /\
   updating q = true) /\
  exists p delay t,
    In (mkTimer t (RejectAfter p delay)) (timers reading_world) /\
    cells reading_world !! p = Some (ReadCell (Some 1) Pending).
Proof.
  intros q.
  assert (Hq : the_pin reading_world (Some 1) = Some q) by (vm_compute; reflexivity).
  assert (Hu : updating q = true) by reflexivity.
  split; [split; [exact reachable_reading_world|split; [exact Hq|exact Hu]]|].
  exact (proj1 (updating_pin_is_awaited reading_world reachable_reading_world)
           (Some 1) q Hq Hu).
Defined.

End Awaited.

(** ** The connector, job by job *)

Section Jobs.

Import Connector RegistrySpec.

Lemma orderly_moved_now (b : nat) (w w' : Board.World) (c : State) :
  orderly c -> orderly (moved_now b w w' c).
Proof.
  intros H. unfold moved_now.
  destruct (Nat.ltb _ _); [apply orderly_on_RELEASED|]; now apply orderly_store.
Qed.

Lemma orderly_on_now (b : nat) (a : Spec.Action) (c : State) :
  orderly c -> orderly (on_now b a c).
Proof.
  intros H. unfold on_now. destruct (store c !! b); [now apply orderly_moved_now|exact H].
Qed.

Lemma orderly_connectedBoard (extensionId : string) (c : State) :
  orderly c -> orderly (snd (connectedBoard extensionId c)).
Proof.
  intros H. unfold connectedBoard.
  destruct (findBoard None c) as [[b|]|r]; try now apply orderly_connectSerial.
  exact H.
Qed.

Lemma orderly_run_job (j : Job) (c : State) : orderly c -> orderly (run_job j c).
Proof.
  intros H. destruct j as [b a|ms|x|x|k]; cbn [run_job].
  - now apply orderly_on_now.
  - assert (H0 : orderly (with_clock (Connector.clock c + Z.max 0 ms) c)).
    { destruct H as [J1 J2 J3 J4 J5]. now split. }
    revert H0. generalize (with_clock (Connector.clock c + Z.max 0 ms) c) as c0.
    generalize (seq 0 (length (store c))) as bs.
    induction bs as [|b bs IH]; intros c0 H0; cbn [fold_left]; [exact H0|].
    apply IH. now apply orderly_on_now.
  - now apply orderly_connectedBoard.
  - now apply orderly_connectSerial.
  - now apply orderly_settle_call.
Qed.

Lemma occurs_orderly (c : State) : occurs c -> orderly c.
Proof.
  intros (serial & t & jobs & ->).
  pose proof (orderly_new serial t) as H0. revert H0.
  generalize (new_State serial t) as c0.
  induction jobs as [|j jobs IH]; intros c0 H0; cbn [fold_left]; [exact H0|].
  apply IH. now apply orderly_run_job.
Qed.

Lemma occurs_more (jobs : list Job) (c : State) :
  occurs c -> occurs (fold_left (fun c j => run_job j c) jobs c).
Proof.
  intros (serial & t & jobs0 & ->). exists serial, t, (jobs0 ++ jobs).
  now rewrite fold_left_app.
Qed.

(** Board [b] has gone from [w] to [w'] within one job: it is out of the
    registry if it was released. *)
Lemma attached_moved_now (b : nat) (w w' : Board.World) (c : State) :
  orderly c -> all_attached c -> store c !! b = Some w ->
  Spec.announced w w' ->
  all_attached (moved_now b w w' c).
Proof.
  intros Ho Ha Hb Hann. unfold moved_now.
  set (c1 := with_store (<[b := w']> (store c)) c).
  assert (Ho1 : orderly c1) by now apply orderly_store.
  assert (Hlt : (b < length (store c))%nat) by (apply lookup_lt_is_Some; eauto).
  destruct (Nat.ltb_spec (Board.released (Board.log w))
                         (Board.released (Board.log w'))) as [Hr|Hr].
  - destruct (on_RELEASED_spec b c1 Ho1) as (Hbs & _ & Hs & Hc).
    intros x Hx. rewrite Hbs in Hx. apply filter_out_In in Hx as [Hx Hne].
    destruct (Ha x Hx) as (wx & Hwx & Hax). exists wx. split; [|exact Hax].
    rewrite Hs. cbn -[lookup insert]. now rewrite list_lookup_insert_ne by congruence.
  - intros x Hx. destruct (Nat.eq_dec x b) as [->|Hne].
    + exists w'. split; [cbn -[lookup insert]; now apply list_lookup_insert_eq|].
      destruct (Ha b Hx) as (w0 & Hw0 & Ha0).
      assert (w0 = w) by congruence. subst w0.
      destruct Hann as [Hle Hkeep]. apply Hkeep; [lia|exact Ha0].
    + destruct (Ha x Hx) as (wx & Hwx & Hax). exists wx. split; [|exact Hax].
      cbn -[lookup insert]. now rewrite list_lookup_insert_ne by congruence.
Qed.

Lemma attached_on_now (b : nat) (a : Spec.Action) (c : State) :
  orderly c -> all_attached c -> all_attached (on_now b a c).
Proof.
  intros Ho Ha. unfold on_now. destruct (store c !! b) as [w|] eqn:Hb; [|exact Ha].
  apply attached_moved_now; try assumption. apply announced_perform.
Qed.

(** Where every board in the registry is connected and holds an
    instance, that is so after any job but one: the callback of a
    [connectSerial] registers its board as it finds it, and it finds it
    released if the board was released since its instance was ready. A
    board in the registry that is released is taken out within the same
    job. *)
Theorem registered_boards_stay_connected (c : State) (j : Job) :
  occurs c -> all_attached c -> in_time j c -> all_attached (run_job j c).
Proof.
  intros Hoc Ha Ht. pose proof (occurs_orderly c Hoc) as Ho.
  destruct j as [b a|ms|x|x|k]; cbn [run_job].
  - now apply attached_on_now.
  - assert (H0 : orderly (with_clock (Connector.clock c + Z.max 0 ms) c) /\
                 all_attached (with_clock (Connector.clock c + Z.max 0 ms) c)).
    { destruct Ho as [J1 J2 J3 J4 J5]. split; [now split|exact Ha]. }
    revert H0. generalize (with_clock (Connector.clock c + Z.max 0 ms) c) as c0.
    generalize (seq 0 (length (store c))) as bs.
    induction bs as [|b bs IH]; intros c0 [H0 H1]; cbn [fold_left]; [exact H1|].
    apply IH. split; [now apply orderly_on_now|now apply attached_on_now].
  - now apply attached_connectedBoard.
  - now apply attached_connectSerial.
  - destruct (settle_call_cases k c)
      as [[-> _]|[(b & p & w & u & Hk & Hb & Hp & ->)|(b & p & w & r & Hk & Hb & Hp & ->)]];
      [exact Ha| |exact Ha].
    intros x Hx. cbn in Hx. apply in_app_iff in Hx as [Hx|[<-|[]]]; cbn -[lookup].
    + now apply Ha.
    + exists w. split; [exact Hb|]. exact (Ht k b p w u eq_refl Hk Hb Hp).
Qed.

Lemma occurs_answered : occurs answered.
Proof.
  exists true, 1700000000000,
    [Acquire "xcxArduino";
     Step 0 (Spec.Outside (Board.PortOpened 0 Spec.a_port));
     Step 0 (Spec.Outside (Board.Emitted 0 Board.E_ready 0))].
  reflexivity.
Qed.

Lemma registered_boards_witness :
  (occurs answered /\ all_attached answered /\ in_time (Callback 0) answered) /\
  boards (run_job (Callback 0) answered) = [0%nat] /\
  all_attached (run_job (Callback 0) answered).
Proof.
  assert (Ha : all_attached answered) by (intros b Hb; vm_compute in Hb; destruct Hb).
  assert (Ht : in_time (Callback 0) answered).
  { intros k b p w u [= <-] Hk Hb Hp.
    vm_compute in Hk. injection Hk as <- <-.
    vm_compute in Hb. injection Hb as <-.
    split; [vm_compute; reflexivity|vm_compute; discriminate]. }
  split; [split; [exact occurs_answered|split; [exact Ha|exact Ht]]|].
  split; [vm_compute; reflexivity|].
  exact (registered_boards_stay_connected answered (Callback 0) occurs_answered Ha Ht).
Defined.

Lemma unregistered_new (c : State) : orderly c -> ~ In (length (store c)) (boards c).
Proof.
  intros Ho Hin. destruct (orderly_resolved c Ho _ Hin) as (j & p & Hj).
  pose proof (orderly_calls c Ho) as J1. rewrite List.Forall_forall in J1.
  specialize (J1 _ (proj1 (list_elem_of_In _ _) (list_elem_of_lookup_2 _ _ _ Hj))).
  cbn in J1. lia.
Qed.

(** A board is disconnected after its instance was ready and before the
    callback of [connectSerial] has run: nothing is emitted for it then,
    as it is not in the registry yet, and the callback registers it all
    the same, emits BOARD_ADDED and resolves the call with it. The board
    is in the registry then and is not connected, and [findBoard] and
    [connectedBoard] give it out if the registry was empty before. Had
    the callback run before the disconnect, the board would be in the
    registry and ready. *)
Theorem late_callback_registers_a_released_board (c : State) (ext : string)
    (info : Board.PortInfo) (v : Z) :
  occurs c -> serial c = true ->
  let b := length (store c) in
  let k := length (calls c) in
  let c3 := run_job (Step b (Spec.Outside (Board.Emitted 0 Board.E_ready v)))
              (run_job (Step b (Spec.Outside (Board.PortOpened 0 info)))
                 (run_job (Connect ext) c)) in
  let c4 := run_job (Step b (Spec.Inside Spec.do_disconnect)) c3 in
  let c5 := run_job (Callback k) c4 in
  (boards c3 = boards c /\ emitted c3 = emitted c /\ status k c3 = Some Pending /\
   Board.isReady <$> store c3 !! b = Some true) /\
  (boards c4 = boards c /\ emitted c4 = emitted c /\
   Board.isConnected <$> store c4 !! b = Some false) /\
  (boards c5 = boards c ++ [b] /\ emitted c5 = emitted c ++ [Emit BOARD_ADDED b] /\
   status k c5 = Some (Resolved b) /\
   Board.isConnected <$> store c5 !! b = Some false) /\
  (boards c = [] ->
   findBoard None c5 = Ok (Some b) /\
   connectedBoard ext c5 = (Now (Resolved b), c5)) /\
  (boards (run_job (Callback k) c3) = boards c ++ [b] /\
   Board.isReady <$> store (run_job (Callback k) c3) !! b = Some true).
Proof.
  intros Hoc Hser b k c3 c4 c5. subst b k.
  pose proof (occurs_orderly c Hoc) as Ho.
  set (wA := fresh_board ext (Connector.clock c)).
  set (wB := Board.step (Board.PortOpened 0 info) wA).
  set (wC := Board.step (Board.Emitted 0 Board.E_ready v) wB).
  set (wD := Board.exec (Spec.invoke Spec.do_disconnect) wC).
  set (cl := calls c ++ [mkCall (length (store c)) 0 Pending]).
  assert (FAB : Nat.ltb (Board.released (Board.log wA)) (Board.released (Board.log wB))
                = false) by (vm_compute; reflexivity).
  assert (FBC : Nat.ltb (Board.released (Board.log wB)) (Board.released (Board.log wC))
                = false) by (vm_compute; reflexivity).
  assert (FCD : Nat.ltb (Board.released (Board.log wC)) (Board.released (Board.log wD))
                = true) by (vm_compute; reflexivity).
  assert (GC : Board.cells wC !! 0%nat = Some (Board.ConnectCell (Resolved tt)))
    by (vm_compute; reflexivity).
  assert (GD : Board.cells wD !! 0%nat = Some (Board.ConnectCell (Resolved tt)))
    by (vm_compute; reflexivity).
  assert (RC : Board.isReady wC = true) by (vm_compute; reflexivity).
  assert (RD : Board.isConnected wD = false) by (vm_compute; reflexivity).
  assert (E3 : c3 = with_calls cl (with_store (store c ++ [wC]) c)).
  { unfold c3. cbn [run_job]. rewrite connectSerial_fresh by exact Hser. cbn [snd].
    fold wA cl. unfold on_now at 2. cbn [store with_calls with_store].
    rewrite lookup_last. cbn [Spec.perform]. fold wB.
    unfold moved_now.
    rewrite FAB. cbn [store with_calls with_store].
    rewrite insert_last.
    unfold on_now. cbn [store with_calls with_store].
    rewrite lookup_last. cbn [Spec.perform]. fold wC. unfold moved_now.
    rewrite FBC. cbn [store with_calls with_store].
    rewrite insert_last. reflexivity. }
  assert (Hn : ~ In (length (store c)) (boards c)) by now apply unregistered_new.
  assert (E4 : c4 = with_calls cl (with_store (store c ++ [wD]) c)).
  { unfold c4. rewrite E3. cbn [run_job]. unfold on_now.
    cbn [store with_calls with_store]. rewrite lookup_last.
    cbn [Spec.perform]. fold wD. unfold moved_now.
    rewrite FCD. cbn [store with_calls with_store].
    rewrite insert_last. unfold on_RELEASED.
    assert (Hex : existsb (Nat.eqb (length (store c)))
                    (watching (with_store (store c ++ [wD]) (with_calls cl
                       (with_store (store c ++ [wC]) c)))) = false).
    { destruct (existsb _ _) eqn:Ex; [|reflexivity]. apply existsb_In in Ex.
      cbn [watching with_store with_calls] in Ex.
      rewrite (orderly_watching c Ho) in Ex. contradiction. }
    rewrite Hex. reflexivity. }
  assert (Hk : forall st, (with_calls cl (with_store st c)).(calls) !! length (calls c)
                          = Some (mkCall (length (store c)) 0 Pending))
    by (intros st; cbn [calls with_calls with_store]; apply lookup_last).
  assert (Esettle : forall wX u,
            Board.cells wX !! 0%nat = Some (Board.ConnectCell (Resolved u)) ->
            settle_call (length (calls c)) (with_calls cl (with_store (store c ++ [wX]) c))
            = mkState (boards c ++ [length (store c)]) (store c ++ [wX]) (serial c) (Connector.clock c)
                (calls c ++ [mkCall (length (store c)) 0 (Resolved (length (store c)))]) (watching c ++ [length (store c)])
                (emitted c ++ [Emit BOARD_ADDED (length (store c))])).
  { intros wX u HX. unfold settle_call. rewrite Hk.
    cbn [store with_calls with_store]. rewrite lookup_last.
    change (Board.cells <$> Some wX) with (Some (Board.cells wX)). cbv iota.
    rewrite HX. unfold addBoard, with_calls, with_watching, with_emitted, with_boards,
      with_store.
    cbn [store boards serial Connector.clock calls watching emitted].
    unfold cl. now rewrite insert_last. }
  assert (E5 : c5 = mkState (boards c ++ [length (store c)]) (store c ++ [wD]) (serial c)
                      (Connector.clock c) (calls c ++ [mkCall (length (store c)) 0 (Resolved (length (store c)))])
                      (watching c ++ [length (store c)]) (emitted c ++ [Emit BOARD_ADDED (length (store c))])).
  { unfold c5. cbn [run_job]. rewrite E4. exact (Esettle wD tt GD). }
  split; [|split; [|split; [|split]]].
  - rewrite E3. unfold status. cbn [boards emitted calls store with_calls with_store].
    unfold cl. rewrite !lookup_last. cbn [fmap option_fmap option_map call_status].
    rewrite RC. repeat split.
  - rewrite E4. cbn [boards emitted calls store with_calls with_store].
    rewrite lookup_last. cbn [fmap option_fmap option_map]. rewrite RD. repeat split.
  - rewrite E5. unfold status. cbn [boards emitted calls store].
    rewrite !lookup_last. cbn [fmap option_fmap option_map call_status].
    rewrite RD. repeat split.
  - intros He. rewrite E5. unfold connectedBoard, findBoard. cbn [boards].
    rewrite He. cbn [app]. split; reflexivity.
  - cbn [run_job]. rewrite E3, (Esettle wC tt GC). cbn [boards store].
    rewrite lookup_last. cbn [fmap option_fmap option_map]. rewrite RC.
    split; reflexivity.
Qed.

Lemma late_callback_witness :
  let c := new_State true 1700000000000 in
  (occurs c /\ serial c = true) /\
  boards
    (run_job (Callback 0)
       (run_job (Step 0 (Spec.Inside Spec.do_disconnect))
          (run_job (Step 0 (Spec.Outside (Board.Emitted 0 Board.E_ready 0)))
             (run_job (Step 0 (Spec.Outside (Board.PortOpened 0 Spec.a_port)))
                (run_job (Connect "xcxArduino") c))))) = [0%nat].
Proof.
  intros c.
  assert (Hoc : occurs c) by (exists true, 1700000000000, []; reflexivity).
  split; [split; [exact Hoc|reflexivity]|].
  exact (proj1 (proj1 (proj2 (proj2
    (late_callback_registers_a_released_board c "xcxArduino" Spec.a_port 0
       Hoc eq_refl))))).
Defined.

End Jobs.

(** ** The board the blocks hold *)

Section Held.

Import Connector RegistrySpec.

Lemma findBoard_first (c : State) : findBoard None c = Ok (head (boards c)).
Proof. unfold findBoard. now destruct (boards c). Qed.

Lemma updateBoard_spec (cn : nat -> bool) (s : Peripheral.State) :
  Peripheral.updateBoard cn s =
  if match Peripheral.board s with Some b => cn b | None => false end then s
  else Peripheral.mkState (Peripheral.boardConnector s)
         (head (boards (Peripheral.boardConnector s))).
Proof. unfold Peripheral.updateBoard. now rewrite findBoard_first. Qed.

Lemma listeners_connector (cn : nat -> bool) (l : list Emission) (s : Peripheral.State) :
  Peripheral.boardConnector (fold_left (fun s e => Peripheral.listener cn e s) l s)
  = Peripheral.boardConnector s.
Proof.
  revert s; induction l as [|e l IH]; intros s; cbn [fold_left]; [reflexivity|].
  rewrite IH. destruct e as [[|] x|x pth]; cbn [Peripheral.listener];
    rewrite ?updateBoard_spec; try reflexivity;
    now destruct (match Peripheral.board s with Some b => cn b | None => false end).
Qed.

Lemma heard_connector (cn : nat -> bool) (c' : State) (s : Peripheral.State) :
  Peripheral.boardConnector (Peripheral.heard cn c' s) = c'.
Proof. unfold Peripheral.heard. now rewrite listeners_connector. Qed.

Lemma heard_app (cn : nat -> bool) (c' : State) (s : Peripheral.State)
    (l : list Emission) :
  emitted c' = emitted (Peripheral.boardConnector s) ++ l ->
  Peripheral.heard cn c' s =
  fold_left (fun s e => Peripheral.listener cn e s) l
    (Peripheral.mkState c' (Peripheral.board s)).
Proof. intros H. unfold Peripheral.heard. now rewrite H, drop_app_length. Qed.

Lemma heard_quiet (cn : nat -> bool) (c' : State) (s : Peripheral.State) :
  emitted c' = emitted (Peripheral.boardConnector s) ->
  Peripheral.heard cn c' s = Peripheral.mkState c' (Peripheral.board s).
Proof. intros H. rewrite (heard_app cn c' s []); [reflexivity|now rewrite app_nil_r]. Qed.

Lemma head_In {A} (l : list A) (x : A) : head l = Some x -> In x l.
Proof. destruct l; cbn; [discriminate|]. intros [= ->]. now left. Qed.

(** The callback of call [k], heard by the blocks. *)
Lemma settle_heard (k : nat) (s : Peripheral.State) :
  let c := Peripheral.boardConnector s in
  Peripheral.held_ok s ->
  Peripheral.held_ok
    (Peripheral.heard (Peripheral.board_isConnected c) (settle_call k c) s).
Proof.
  destruct s as [c held]. cbn [Peripheral.boardConnector]. intros Hh.
  unfold Peripheral.held_ok in Hh. cbn [Peripheral.board Peripheral.boardConnector] in Hh.
  destruct (settle_call_cases k c)
    as [[E _]|[(b & p & w & u & Hk & Hb & Hp & E)|(b & p & w & r & Hk & Hb & Hp & E)]];
    rewrite E.
  - rewrite heard_quiet by reflexivity. exact Hh.
  - rewrite (heard_app _ _ _ [Emit BOARD_ADDED b]) by reflexivity.
    cbn [fold_left Peripheral.listener Peripheral.board]. rewrite updateBoard_spec.
    cbn [Peripheral.board Peripheral.boardConnector].
    unfold Peripheral.held_ok.
    destruct held as [x|]; [|reflexivity].
    destruct (Peripheral.board_isConnected c x); [|reflexivity].
    cbn. destruct (boards c); [discriminate|exact Hh].
  - rewrite heard_quiet by reflexivity. exact Hh.
Qed.

Lemma on_RELEASED_present (b : nat) (c : State) :
  orderly c -> In b (boards c) ->
  emitted (on_RELEASED b c) = emitted c ++
    [Emit BOARD_ADDED b;
     Runtime_PERIPHERAL_DISCONNECTED b
       (match store c !! b with
        | Some w => Board.portInfo (Board.board w)
        | None => None
        end)].
Proof.
  intros Ho Hin. unfold on_RELEASED.
  assert (Hex : existsb (Nat.eqb b) (watching c) = true).
  { apply existsb_In. now rewrite (orderly_watching c Ho). }
  rewrite Hex. set (c0 := with_watching _ c). cbn [emitted with_emitted].
  destruct (removeBoard_rest b c0) as (-> & _ & _).
  rewrite removeBoard_emitted by exact Hin.
  cbn [store c0 with_watching emitted]. now rewrite <- app_assoc.
Qed.

Lemma on_RELEASED_absent (b : nat) (c : State) :
  orderly c -> ~ In b (boards c) -> on_RELEASED b c = c.
Proof.
  intros Ho Hn. unfold on_RELEASED.
  destruct (existsb (Nat.eqb b) (watching c)) eqn:E; [|reflexivity].
  apply existsb_In in E. rewrite (orderly_watching c Ho) in E. contradiction.
Qed.

(** The RELEASED listener of the connector for board [b], heard by the
    blocks. *)
Lemma released_heard (b : nat) (s : Peripheral.State) :
  let c1 := Peripheral.boardConnector s in
  orderly c1 -> Peripheral.held_ok s ->
  Peripheral.held_ok
    (Peripheral.heard (Peripheral.released_now b c1) (on_RELEASED b c1) s).
Proof.
  destruct s as [c1 held]. cbn [Peripheral.boardConnector Peripheral.board].
  intros Ho Hh.
  unfold Peripheral.held_ok in Hh. cbn [Peripheral.boardConnector Peripheral.board] in Hh.
  destruct (in_dec Nat.eq_dec b (boards c1)) as [Hin|Hn].
  - rewrite (heard_app _ (on_RELEASED b c1) (Peripheral.mkState c1 held) _
               (on_RELEASED_present b c1 Ho Hin)).
    cbn [fold_left Peripheral.listener Peripheral.board]. rewrite updateBoard_spec.
    cbn [Peripheral.board Peripheral.boardConnector].
    destruct (on_RELEASED_spec b c1 Ho) as (Hbs & _).
    destruct held as [x|]; [|reflexivity].
    unfold Peripheral.released_now. destruct (Nat.eqb_spec x b) as [->|Hne]; cbn [negb andb].
    + reflexivity.
    + destruct (Peripheral.board_isConnected c1 x); [|reflexivity].
      unfold Peripheral.held_ok. cbn [Peripheral.board Peripheral.boardConnector].
      rewrite Hbs. destruct (boards c1) as [|y l]; [discriminate|].
      injection Hh as ->. cbn. destruct (Nat.eqb_spec b y) as [->|_]; [contradiction|].
      reflexivity.
  - rewrite on_RELEASED_absent by assumption. rewrite heard_quiet by reflexivity.
    exact Hh.
Qed.

(** Board [b] has gone from [w] to [w'] within one job, for the blocks:
    the connector does what it does alone, and [this.board] follows the
    registry. *)
Lemma moved_now_sound (b : nat) (w w' : Board.World) (s : Peripheral.State) :
  Peripheral.sound s ->
  Peripheral.sound (Peripheral.moved_now b w w' s) /\
  Peripheral.boardConnector (Peripheral.moved_now b w w' s)
    = moved_now b w w' (Peripheral.boardConnector s).
Proof.
  destruct s as [c held]. intros [Ho Hh]. cbn [Peripheral.boardConnector] in Ho.
  unfold Peripheral.moved_now, moved_now. cbn [Peripheral.boardConnector Peripheral.board].
  set (c1 := with_store (<[b := w']> (store c)) c).
  assert (Ho1 : orderly c1) by now apply orderly_store.
  set (s1 := Peripheral.mkState c1 held).
  assert (Hh1 : Peripheral.held_ok s1) by exact Hh.
  destruct (Nat.ltb (Board.released (Board.log w)) (Board.released (Board.log w'))).
  - split; [|apply heard_connector]. split.
    + rewrite heard_connector. now apply orderly_on_RELEASED.
    + exact (released_heard b s1 Ho1 Hh1).
  - split; [|reflexivity]. split; [exact Ho1|exact Hh1].
Qed.

Lemma on_now_sound (b : nat) (a : Spec.Action) (s : Peripheral.State) :
  Peripheral.sound s ->
  Peripheral.sound (Peripheral.on_now b a s) /\
  Peripheral.boardConnector (Peripheral.on_now b a s)
    = on_now b a (Peripheral.boardConnector s).
Proof.
  intros H. unfold Peripheral.on_now, on_now.
  destruct (store (Peripheral.boardConnector s) !! b) as [w|]; [|now split].
  now apply moved_now_sound.
Qed.

Lemma connectSerial_quiet (extensionId : string) (c : State) :
  boards (snd (connectSerial extensionId c)) = boards c /\
  emitted (snd (connectSerial extensionId c)) = emitted c.
Proof.
  destruct (serial c) eqn:Hs.
  - rewrite connectSerial_fresh by exact Hs. now split.
  - unfold connectSerial. rewrite Hs. now split.
Qed.

Lemma connectedBoard_quiet (extensionId : string) (c : State) :
  boards (snd (connectedBoard extensionId c)) = boards c /\
  emitted (snd (connectedBoard extensionId c)) = emitted c.
Proof.
  unfold connectedBoard. destruct (findBoard None c) as [[b|]|r];
    try apply connectSerial_quiet. now split.
Qed.

(** The connector has gone to [c'] by a job that leaves the registry
    alone and emits nothing. *)
Lemma quiet_sound (j : Job) (cn : nat -> bool) (s : Peripheral.State) :
  Peripheral.sound s ->
  boards (run_job j (Peripheral.boardConnector s)) = boards (Peripheral.boardConnector s) ->
  emitted (run_job j (Peripheral.boardConnector s)) = emitted (Peripheral.boardConnector s) ->
  Peripheral.sound (Peripheral.heard cn (run_job j (Peripheral.boardConnector s)) s) /\
  Peripheral.boardConnector (Peripheral.heard cn (run_job j (Peripheral.boardConnector s)) s)
    = run_job j (Peripheral.boardConnector s).
Proof.
  intros (Ho & Hh) Hb He. rewrite heard_quiet by exact He.
  split; [|reflexivity]. split; cbn [Peripheral.boardConnector].
  - now apply orderly_run_job.
  - unfold Peripheral.held_ok. cbn [Peripheral.boardConnector Peripheral.board].
    now rewrite Hb.
Qed.

Lemma elapse_sound (ms : Z) (s : Peripheral.State) :
  Peripheral.sound s ->
  Peripheral.sound (Peripheral.perform (Peripheral.Underneath (Elapse ms)) s) /\
  Peripheral.boardConnector (Peripheral.perform (Peripheral.Underneath (Elapse ms)) s)
    = run_job (Elapse ms) (Peripheral.boardConnector s).
Proof.
  intros H. cbn [Peripheral.perform run_job].
  set (c0 := with_clock _ (Peripheral.boardConnector s)).
  set (s0 := Peripheral.mkState c0 (Peripheral.board s)).
  assert (H0 : Peripheral.sound s0).
  { destruct H as (Ho & Hh). destruct Ho as [J1 J2 J3 J4 J5].
    split; [now split|exact Hh]. }
  change c0 with (Peripheral.boardConnector s0).
  generalize (seq 0 (length (store (Peripheral.boardConnector s)))) as bs.
  revert H0. generalize s0 as s1. clear.
  intros s1 H1 bs. revert s1 H1; induction bs as [|b bs IH]; intros s1 H1;
    cbn [fold_left]; [now split|].
  destruct (on_now_sound b (Spec.Outside (Board.Elapsed ms)) s1 H1) as [H2 E2].
  destruct (IH _ H2) as [H3 E3]. split; [exact H3|]. now rewrite E3, E2.
Qed.

(** Whatever happens, [this.board] is the first board of the registry,
    and the connector goes where the jobs take it. *)
Lemma perform_sound (a : Peripheral.Action) (s : Peripheral.State) :
  Peripheral.sound s ->
  Peripheral.sound (Peripheral.perform a s) /\
  Peripheral.boardConnector (Peripheral.perform a s)
    = fold_left (fun c j => run_job j c) (Peripheral.below a s)
        (Peripheral.boardConnector s).
Proof.
  intros H. destruct a as [[b a|ms|x|x|k]| |]; cbn [Peripheral.below fold_left].
  - now apply on_now_sound.
  - now apply elapse_sound.
  - apply (quiet_sound (Acquire x)); [exact H| |]; apply connectedBoard_quiet.
  - apply (quiet_sound (Connect x)); [exact H| |]; apply connectSerial_quiet.
  - cbn [Peripheral.perform run_job]. split; [|apply heard_connector].
    destruct H as [Ho Hh]. split.
    + rewrite heard_connector. now apply orderly_settle_call.
    + now apply settle_heard.
  - cbn [Peripheral.perform]. unfold Peripheral.scan, Peripheral.connectBoard.
    destruct (match Peripheral.board s with
              | Some b => Peripheral.board_isConnected (Peripheral.boardConnector s) b
              | None => false
              end); [now split|].
    destruct (connectedBoard Peripheral.EXTENSION_ID (Peripheral.boardConnector s))
      as [p c'] eqn:E. cbn [fst snd fold_left].
    replace c' with (run_job (Acquire Peripheral.EXTENSION_ID) (Peripheral.boardConnector s))
      by (cbn [run_job]; now rewrite E).
    apply (quiet_sound (Acquire Peripheral.EXTENSION_ID)); [exact H| |];
      apply connectedBoard_quiet.
  - cbn [Peripheral.perform]. unfold Peripheral.disconnect, Peripheral.disconnectBoard.
    destruct (Peripheral.board s) as [b|]; [|now split].
    cbn [fold_left run_job].
    destruct (store (Peripheral.boardConnector s) !! b) as [w|] eqn:Hb; cbn [snd].
    + now apply on_now_sound.
    + split; [exact H|]. unfold on_now. now rewrite Hb.
Qed.

Lemma reachable_sound (s : Peripheral.State) :
  Peripheral.reachable s ->
  Peripheral.sound s /\ occurs (Peripheral.boardConnector s).
Proof.
  intros (serial & t & acts & ->).
  assert (H0 : Peripheral.sound (Peripheral.new_State None serial t) /\
               occurs (Peripheral.boardConnector (Peripheral.new_State None serial t))).
  { split.
    - split; [apply orderly_new|reflexivity].
    - exists serial, t, []. reflexivity. }
  revert H0. generalize (Peripheral.new_State None serial t) as s0.
  induction acts as [|a acts IH]; intros s0 [H0 H1]; cbn [fold_left]; [now split|].
  apply IH. destruct (perform_sound a s0 H0) as [H2 E2].
  split; [exact H2|]. rewrite E2. now apply occurs_more.
Qed.

(** In every state the blocks get into when they were constructed on a
    runtime that had no connector yet, whatever is done with them, their
    connector and its boards, job by job: [this.board] is the first
    board of the registry, which is what [findBoard ()] gives, and null
    exactly when the registry is empty; the board the blocks hold is one
    the connector constructed; and [updateBoard ()] called then changes
    nothing. Whether the board held is connected is not said: the
    connector may have registered it released. *)
Theorem blocks_hold_the_first_board (s : Peripheral.State) :
  Peripheral.reachable s ->
  let c := Peripheral.boardConnector s in
  occurs c /\
  findBoard None c = Ok (Peripheral.board s) /\
  (Peripheral.board s = None <-> boards c = []) /\
  (forall b, Peripheral.board s = Some b -> In b (boards c) /\ is_Some (store c !! b)) /\
  Peripheral.updateBoard (Peripheral.board_isConnected c) s = s.
Proof.
  intros H c. destruct (reachable_sound s H) as [(Ho & Hh) Hr].
  fold c in Ho, Hr. unfold Peripheral.held_ok in Hh. fold c in Hh.
  split; [exact Hr|]. split; [now rewrite findBoard_first, Hh|].
  split; [rewrite Hh; destruct (boards c); cbn; split; congruence|].
  split.
  - intros b Hb. rewrite Hh in Hb. apply head_In in Hb. split; [exact Hb|].
    destruct (orderly_resolved c Ho b Hb) as (k & p & Hk).
    apply lookup_lt_is_Some. pose proof (orderly_calls c Ho) as J1.
    rewrite List.Forall_forall in J1.
    apply (J1 (mkCall b p (Resolved b))).
    eapply list_elem_of_In, list_elem_of_lookup_2, Hk.
  - rewrite updateBoard_spec. fold c. rewrite <- Hh.
    destruct s as [c0 held]. cbn [Peripheral.board Peripheral.boardConnector].
    now destruct (match held with Some b => _ | None => false end).
Qed.

Lemma reachable_scanned : Peripheral.reachable Peripheral.scanned.
Proof.
  exists true, 1700000000000,
    [Peripheral.Scans;
     Peripheral.Underneath (Step 0 (Spec.Outside (Board.PortOpened 0 Spec.a_port)));
     Peripheral.Underneath (Step 0 (Spec.Outside (Board.Emitted 0 Board.E_ready 0)));
     Peripheral.Underneath (Callback 0)].
  reflexivity.
Qed.

Lemma reachable_overtaken : Peripheral.reachable Peripheral.overtaken.
Proof.
  exists true, 1700000000000,
    [Peripheral.Scans;
     Peripheral.Underneath (Step 0 (Spec.Outside (Board.PortOpened 0 Spec.a_port)));
     Peripheral.Underneath (Step 0 (Spec.Outside (Board.Emitted 0 Board.E_ready 0)));
     Peripheral.Underneath (Step 0 (Spec.Inside Spec.do_disconnect));
     Peripheral.Underneath (Callback 0)].
  reflexivity.
Qed.

Lemma blocks_hold_witness :
  Peripheral.reachable Peripheral.scanned /\
  Peripheral.board Peripheral.scanned = Some 0%nat /\
  findBoard None (Peripheral.boardConnector Peripheral.scanned)
  = Ok (Peripheral.board Peripheral.scanned).
Proof.
  split; [exact reachable_scanned|]. split; [vm_compute; reflexivity|].
  exact (proj1 (proj2 (blocks_hold_the_first_board Peripheral.scanned reachable_scanned))).
Defined.

(** [connectBoard ()] returns undefined and does nothing when the blocks
    hold a board that is connected. When the board they hold is not
    connected, which is so when the connector registered it released,
    [connectedBoard] of the connector resolves at once with that very
    board, the first of the registry, and nothing changes. When they
    hold none the registry is empty, so the connector is asked for a new
    board with [connectSerial] for this extension, and [this.board]
    stays null for now. The promise [connectBoard] returns is never
    rejected. *)
Theorem connectBoard_asks_for_a_board (s : Peripheral.State) :
  Peripheral.reachable s ->
  let c := Peripheral.boardConnector s in
  (forall b, Peripheral.board s = Some b ->
     Peripheral.board_isConnected c b = true ->
     Peripheral.connectBoard s = (None, s)) /\
  (forall b, Peripheral.board s = Some b ->
     Peripheral.board_isConnected c b = false ->
     Peripheral.connectBoard s = (Some (Now (Resolved b)), s)) /\
  (Peripheral.board s = None ->
   Peripheral.connectBoard s =
   (Some (fst (connectSerial Peripheral.EXTENSION_ID c)),
    Peripheral.mkState (snd (connectSerial Peripheral.EXTENSION_ID c)) None)) /\
  (forall c0 r reason,
     snd (Peripheral.connectBoard_callbacks c0 r) <> Rejected reason).
Proof.
  intros H c. destruct (reachable_sound s H) as [(Ho & Hh) Hr].
  fold c in Ho, Hr. unfold Peripheral.held_ok in Hh. fold c in Hh.
  split; [|split; [|split]].
  - intros b Hb Hc. unfold Peripheral.connectBoard. fold c. now rewrite Hb, Hc.
  - intros b Hb Hc. unfold Peripheral.connectBoard. fold c. rewrite Hb, Hc.
    unfold connectedBoard. rewrite findBoard_first, <- Hh, Hb.
    rewrite heard_quiet by reflexivity. f_equal. clear. now destruct s.
  - intros Hb. unfold Peripheral.connectBoard. fold c. rewrite Hb.
    unfold connectedBoard. rewrite findBoard_first, <- Hh, Hb.
    destruct (connectSerial Peripheral.EXTENSION_ID c) as [p c'] eqn:E. cbn [fst snd].
    f_equal. rewrite heard_quiet.
    + now rewrite Hb.
    + fold c. change c' with (snd (p, c')). rewrite <- E. apply connectSerial_quiet.
  - intros c0 [|b|r0] reason; cbn; [discriminate| |discriminate].
    destruct (store c0 !! b); discriminate.
Qed.

Lemma connectBoard_witness :
  (Peripheral.reachable Peripheral.overtaken /\
   Peripheral.board Peripheral.overtaken = Some 0%nat /\
   Peripheral.board_isConnected (Peripheral.boardConnector Peripheral.overtaken) 0
   = false) /\
  Peripheral.connectBoard Peripheral.overtaken
  = (Some (Now (Resolved 0%nat)), Peripheral.overtaken).
Proof.
  assert (Hb : Peripheral.board Peripheral.overtaken = Some 0%nat)
    by (vm_compute; reflexivity).
  assert (Hc : Peripheral.board_isConnected
                 (Peripheral.boardConnector Peripheral.overtaken) 0 = false)
    by (vm_compute; reflexivity).
  split; [split; [exact reachable_overtaken|split; [exact Hb|exact Hc]]|].
  exact (proj1 (proj2 (connectBoard_asks_for_a_board Peripheral.overtaken
                         reachable_overtaken)) 0%nat Hb Hc).
Defined.

Lemma filter_head (b : nat) (l : list nat) :
  NoDup (b :: l) -> List.filter (fun x => negb (Nat.eqb b x)) (b :: l) = l.
Proof.
  intros Hnd. apply NoDup_cons in Hnd as [Hb _]. rewrite list_elem_of_In in Hb.
  cbn. rewrite Nat.eqb_refl. cbn. now apply filter_absent.
Qed.

(** Board [b] of the registry has gone from [w] to [w'] within one
    job. *)
Lemma registered_moved_now (c : State) (b : nat) (w w' : Board.World) :
  orderly c -> In b (boards c) -> store c !! b = Some w ->
  let c' := moved_now b w w' c in
  store c' = <[b := w']> (store c) /\
  (Board.released (Board.log w') <= Board.released (Board.log w) ->
     boards c' = boards c /\ emitted c' = emitted c)%nat /\
  (Board.released (Board.log w) < Board.released (Board.log w') ->
     boards c' = List.filter (fun x => negb (Nat.eqb b x)) (boards c) /\
     emitted c' = emitted c ++
       [Emit BOARD_ADDED b;
        Runtime_PERIPHERAL_DISCONNECTED b (Board.portInfo (Board.board w'))])%nat.
Proof.
  intros Ho Hin Hw c'. unfold c', moved_now.
  set (c1 := with_store (<[b := w']> (store c)) c).
  assert (Ho1 : orderly c1) by now apply orderly_store.
  destruct (on_RELEASED_spec b c1 Ho1) as (Hb1 & _ & Hs1 & _).
  destruct (Nat.ltb_spec (Board.released (Board.log w)) (Board.released (Board.log w')))
    as [Hlt|Hle].
  - split; [exact Hs1|]. split; [lia|]. intros _. split; [exact Hb1|].
    rewrite on_RELEASED_present by assumption.
    cbn [store c1 with_store emitted].
    now rewrite list_lookup_insert_eq by (now apply lookup_lt_Some in Hw).
  - split; [reflexivity|]. split; [now split|lia].
Qed.

(** [disconnect ()] of the blocks that hold board [b]. A board that is
    'disconnect' already, as one the connector registered released, is
    left where it is: nothing is emitted and [this.board] stays. For any
    other board, when [disconnect] of the board returns, the board is
    released and leaves the registry, BOARD_ADDED and then
    PERIPHERAL_DISCONNECTED with its port information are emitted, and
    [this.board] becomes the next board of the registry, or null if
    there is none. When it throws, because the instance raises on reset,
    [disconnect] of the blocks throws and the registry and [this.board]
    are as before. Blocks that hold no board do nothing. *)
Theorem disconnect_passes_to_the_next_board (s : Peripheral.State) :
  Peripheral.reachable s ->
  let c := Peripheral.boardConnector s in
  let s' := snd (Peripheral.disconnect s) in
  let c' := Peripheral.boardConnector s' in
  (Peripheral.board s = None -> Peripheral.disconnect s = (Ok tt, s)) /\
  (forall b w, Peripheral.board s = Some b -> store c !! b = Some w ->
     fst (Peripheral.disconnect s) = fst (Board.disconnect w) /\
     (Board.state (Board.board w) = Board.S_disconnect ->
        fst (Board.disconnect w) = Ok tt /\
        boards c' = boards c /\ emitted c' = emitted c /\
        Peripheral.board s' = Some b) /\
     (Board.state (Board.board w) <> Board.S_disconnect ->
      fst (Board.disconnect w) = Ok tt ->
        boards c' = tail (boards c) /\
        Peripheral.board s' = head (tail (boards c)) /\
        emitted c' = emitted c ++
          [Emit BOARD_ADDED b;
           Runtime_PERIPHERAL_DISCONNECTED b (Board.portInfo (Board.board w))] /\
        Peripheral.board_isConnected c' b = false) /\
     (forall r, fst (Board.disconnect w) = Throw r ->
        boards c' = boards c /\ emitted c' = emitted c /\
        Peripheral.board s' = Some b)).
Proof.
  intros H c s' c'. destruct (reachable_sound s H) as [Hsound Hr].
  pose proof Hsound as (Ho & Hh).
  fold c in Ho, Hr. unfold Peripheral.held_ok in Hh. fold c in Hh.
  split.
  { intros Hb. unfold Peripheral.disconnect, Peripheral.disconnectBoard. now rewrite Hb. }
  intros b w Hb Hw. rewrite Hb in Hh.
  assert (Hin : In b (boards c)) by (apply head_In; now rewrite <- Hh).
  set (w' := Board.exec (Spec.invoke Spec.do_disconnect) w).
  assert (E : Peripheral.disconnect s
              = (fst (Board.disconnect w), Peripheral.moved_now b w w' s)).
  { unfold Peripheral.disconnect, Peripheral.disconnectBoard. rewrite Hb. fold c.
    rewrite Hw. unfold Peripheral.on_now. fold c. now rewrite Hw. }
  assert (Es : s' = Peripheral.moved_now b w w' s) by (unfold s'; now rewrite E).
  destruct (moved_now_sound b w w' s Hsound) as [(_ & Hh') Ec].
  rewrite <- Es in Hh', Ec. unfold Peripheral.held_ok in Hh'. fold c' in Hh', Ec. fold c in Ec.
  destruct (registered_moved_now c b w w' Ho Hin Hw) as (Hst & Hsame & Hrel).
  rewrite <- Ec in Hst, Hsame, Hrel.
  assert (Hquiet : w' = w -> boards c' = boards c /\ emitted c' = emitted c /\
                             Peripheral.board s' = Some b).
  { intros Ew. destruct Hsame as [Hbs Hem]; [rewrite Ew; lia|].
    split; [exact Hbs|]. split; [exact Hem|]. now rewrite Hh', Hbs, <- Hh. }
  split; [now rewrite E|]. split; [|split].
  - intros Hst0.
    destruct (disconnect_cases w) as [[r Ed]|[[_ Ed]|[Hne _]]]; [| |contradiction].
    + exfalso. revert Ed. unfold Board.disconnect, Board.bind, Board.gets.
      rewrite Hst0. cbn. discriminate.
    + split; [now rewrite Ed|]. apply Hquiet.
      unfold w'. cbn [Spec.invoke]. unfold Board.exec. now rewrite Ed.
  - intros Hne Hok.
    destruct (disconnect_cases w) as [[r Ed]|[[Hst0 _]|[_ (l & Ed & Hl)]]];
      [rewrite Ed in Hok; discriminate|contradiction|].
    assert (Ew : w' = Board.exec Board.releaseBoard (Board.with_log (Board.log w ++ l) w)).
    { unfold w'. cbn [Spec.invoke]. unfold Board.exec at 1. now rewrite Ed. }
    destruct (releaseBoard_log (Board.with_log (Board.log w ++ l) w)) as (l' & El & Hl').
    assert (Hlt : (Board.released (Board.log w) < Board.released (Board.log w'))%nat).
    { rewrite Ew, El. cbn [Board.log Board.with_log].
      rewrite !released_app, Hl, Hl'. cbn. lia. }
    destruct (Hrel Hlt) as (Hbs & Hem).
    assert (Et : List.filter (fun x => negb (Nat.eqb b x)) (boards c) = tail (boards c)).
    { pose proof (orderly_once c Ho) as Hnd.
      destruct (boards c) as [|y l0]; [destruct Hin|]. injection Hh as ->.
      cbn [tail]. now apply filter_head. }
    rewrite Et in Hbs. split; [exact Hbs|]. split; [now rewrite Hh', Hbs|]. split.
    + rewrite Hem. do 4 f_equal. rewrite Ew, releaseBoard_board. reflexivity.
    + unfold Peripheral.board_isConnected. rewrite Hst.
      rewrite list_lookup_insert_eq by (now apply lookup_lt_Some in Hw).
      rewrite Ew. unfold Board.isConnected. now rewrite releaseBoard_board.
  - intros r Hthrow.
    destruct (disconnect_cases w) as [[r0 Ed]|[[Hst0 Ed]|[_ (l & Ed & Hl)]]];
      [|rewrite Ed in Hthrow; discriminate|rewrite Ed in Hthrow; discriminate].
    apply Hquiet. unfold w'. cbn [Spec.invoke]. unfold Board.exec. now rewrite Ed.
Qed.

Lemma disconnect_passes_witness :
  let w := nth 0 (store (Peripheral.boardConnector Peripheral.scanned))
             (Board.new_World 0) in
  (Peripheral.reachable Peripheral.scanned /\
   Peripheral.board Peripheral.scanned = Some 0%nat /\
   store (Peripheral.boardConnector Peripheral.scanned) !! 0%nat = Some w /\
   Board.state (Board.board w) <> Board.S_disconnect /\
   fst (Board.disconnect w) = Ok tt) /\
  Peripheral.board (snd (Peripheral.disconnect Peripheral.scanned))
  = head (tail (boards (Peripheral.boardConnector Peripheral.scanned))).
Proof.
  intros w.
  assert (Hb : Peripheral.board Peripheral.scanned = Some 0%nat) by (vm_compute; reflexivity).
  assert (Hw : store (Peripheral.boardConnector Peripheral.scanned) !! 0%nat = Some w)
    by (vm_compute; reflexivity).
  assert (Hs : Board.state (Board.board w) <> Board.S_disconnect)
    by (vm_compute; discriminate).
  assert (Hok : fst (Board.disconnect w) = Ok tt) by (vm_compute; reflexivity).
  split; [split; [exact reachable_scanned|split; [exact Hb|split; [exact Hw|
          split; [exact Hs|exact Hok]]]]|].
  exact (proj1 (proj2 (proj1 (proj2 (proj2 (proj2
    (disconnect_passes_to_the_next_board Peripheral.scanned reachable_scanned)
    0%nat w Hb Hw))) Hs Hok))).
Defined.

End Held.
